(** * NbaRotationsTool: the rotation engine of [rotation_tool/state_manager.py]

    A shallow embedding of the archetype catalog, the segment computer, the
    boundary editor and the on-court occupancy aggregator, followed by the
    properties of these functions.

    Numbers.  Python's [float] values are modelled by exact rationals [Q]:
    [+], [-], [*], [/] are the exact operations, [==] is numeric equality
    ([Qeq]) and the comparisons are the decidable order of [Q].  Rounding,
    infinities and NaN are outside the model; where rounding decides an
    order, the loop concerned is given a second time over binary64
    numbers.  Python's [int] counters are [Z].  Mutation of a [Player] is explicit state passing: a mutating
    function returns the player it leaves behind. *)

From stdpp Require Import gmap strings list sorting.
From Stdlib Require Import QArith Qabs Qround Lqa.
From Stdlib Require Import PrimFloat.
From Stdlib Require Uint63.

Open Scope Q_scope.

(** ** Python's numeric builtins *)

Definition Qltb (a b : Q) : bool := negb (Qle_bool b a).

(** [max(a, b)]: the first argument is kept unless the second is strictly
    larger. *)
Definition pymax (a b : Q) : Q := if Qltb a b then b else a.

(** [min(a, b)]: the first argument is kept unless the second is strictly
    smaller. *)
Definition pymin (a b : Q) : Q := if Qltb b a then b else a.

(** [sum(...)]: starts from [0] and adds from left to right. *)
Definition pysum (l : list Q) : Q := fold_left Qplus l 0.

(** [x or 0.0] for a number [x]: a zero is falsy. *)
Definition or_zero (x : Q) : Q := if Qeq_bool x 0 then 0 else x.

(** [l[i]] for an index that the code keeps in range. *)
Definition getq (l : list Q) (i : nat) : Q := default 0 (l !! i).

Definition Qnat (n : nat) : Q := inject_Z (Z.of_nat n).

(** ** data_model.py *)

Record Stint := { start_min : Q; end_min : Q }.

Record Player := {
  player_id : string;
  name : string;
  team : string;
  archetype_id : option string;
  expected_minutes : Q;
  closer_weighting : Q;
  stddev_scaler : Q;
  stints_raw : list Q;
  stints : list Stint
}.

Record Team := { team_name : string; players : list Player }.

(** ** archetypes.py and the catalog of state_manager.py *)

Record Archetype := {
  arch_id : string;
  arch_name : string;
  starter : bool;
  stint_pattern : list string
}.

Definition ARCHETYPES : list Archetype := [
  {| arch_id := "StarterCloserThreeStints";
     arch_name := "Starter, 3 on-stints, closer-capable";
     starter := true;
     stint_pattern := ["on"; "off"; "on"; "off"; "on"] |};
  {| arch_id := "StarterCloserFourStints";
     arch_name := "Starter, 4 on-stints, closer-capable";
     starter := true;
     stint_pattern := ["on"; "off"; "on"; "off"; "on"; "off"; "on"] |};
  {| arch_id := "StarterCloserFiveStints";
     arch_name := "Starter, 5 on-stints, closer-capable";
     starter := true;
     stint_pattern :=
       ["on"; "off"; "on"; "off"; "on"; "off"; "on"; "off"; "on"] |};
  {| arch_id := "NonStarterNonCloserOneStint";
     arch_name := "Bench, single on-stint, non-closer";
     starter := false;
     stint_pattern := ["off"; "on"; "off"] |};
  {| arch_id := "NonStarterNonCloserTwoStints";
     arch_name := "Bench, 2 on-stints, non-closer";
     starter := false;
     stint_pattern := ["off"; "on"; "off"; "on"; "off"] |};
  {| arch_id := "NonStarterNonCloserThreeStints";
     arch_name := "Bench, 3 on-stints, non-closer";
     starter := false;
     stint_pattern := ["off"; "on"; "off"; "on"; "off"; "on"; "off"] |};
  {| arch_id := "NonStarterCloserThreeStints";
     arch_name := "Bench, 3 on-stints, closer-capable";
     starter := false;
     stint_pattern := ["off"; "on"; "off"; "on"; "off"; "on"] |};
  {| arch_id := "NonStarterCloserFourStints";
     arch_name := "Bench, 4 on-stints, closer-capable";
     starter := false;
     stint_pattern :=
       ["off"; "on"; "off"; "on"; "off"; "on"; "off"; "on"] |};
  {| arch_id := "GarbageTime";
     arch_name := "Garbage Time (does not play)";
     starter := false;
     stint_pattern := ["off"] |};
  {| arch_id := "Star";
     arch_name := "Star (special rule must sub off at 12 and 36 min)";
     starter := true;
     stint_pattern := ["on"; "off"; "on"; "off"; "on"] |}
].

(** [get_config]: the dictionary [arch_map], filled item by item with
    [arch_map[arch.id] = arch]. *)
Definition get_config : gmap string Archetype :=
  fold_left (fun arch_map arch => <[arch_id arch := arch]> arch_map)
            ARCHETYPES ∅.

(** The guard [if not player.archetype_id: return ...] followed by
    [arch = cfg.archetypes.get(player.archetype_id)] and [if not arch]:
    [None] and the empty string are falsy, an [Archetype] object is
    truthy. *)
Definition truthy_id (a : option string) : option string :=
  match a with
  | Some s => if String.eqb s "" then None else Some s
  | None => None
  end.

Definition resolve (p : Player) : option Archetype :=
  match truthy_id (archetype_id p) with
  | Some s => get_config !! s
  | None => None
  end.

Definition is_on (tag : string) : bool := String.eqb tag "on".

(** The loop of [split_on_off_indices]: position [i] goes to [on_idx] when
    its tag is ["on"], to [off_idx] otherwise, in pattern order. *)
Fixpoint split_loop (i : nat) (pattern : list string) : list nat * list nat :=
  match pattern with
  | [] => ([], [])
  | tag :: rest =>
      let '(on_idx, off_idx) := split_loop (S i) rest in
      if is_on tag then (i :: on_idx, off_idx) else (on_idx, i :: off_idx)
  end.

Definition split_on_off_indices (archetype_id : string)
  : list nat * list nat :=
  match get_config !! archetype_id with
  | None => ([], [])
  | Some arch => split_loop 0 (stint_pattern arch)
  end.

(** [for i in idx: raw[i] = eq] *)
Definition fill (idx : list nat) (eq : Q) (raw : list Q) : list Q :=
  fold_left (fun r i => <[i := eq]> r) idx raw.

Definition nonempty {A} (l : list A) : bool :=
  match l with [] => false | _ => true end.

Definition _ensure_default_percentages (player : Player) : list Q :=
  match truthy_id (archetype_id player) with
  | None => stints_raw player
  | Some aid =>
      match get_config !! aid with
      | None => stints_raw player
      | Some arch =>
          let L := length (stint_pattern arch) in
          let raw :=
            stints_raw player
              ++ replicate (L - length (stints_raw player))%nat 0 in
          let '(on_idx, off_idx) := split_on_off_indices aid in
          let on_sum := pysum (map (getq raw) on_idx) in
          let off_sum := pysum (map (getq raw) off_idx) in
          let raw :=
            if nonempty on_idx && Qeq_bool on_sum 0
            then fill on_idx (1 / Qnat (length on_idx)) raw else raw in
          let raw :=
            if nonempty off_idx && Qeq_bool off_sum 0
            then fill off_idx (1 / Qnat (length off_idx)) raw else raw in
          take L raw
      end
  end.

Definition Segment : Type := Q * Q * string.

Definition seg_start (s : Segment) : Q := s.1.1.
Definition seg_end (s : Segment) : Q := s.1.2.
Definition seg_tag (s : Segment) : string := s.2.

(** First loop of [compute_segments]: the durations in archetype order. *)
Fixpoint durations_loop (i : nat) (pattern : list string) (raw : list Q)
  (on_total off_total : Q) : list Q :=
  match pattern with
  | [] => []
  | tag :: rest =>
      let pct := if (i <? length raw)%nat then getq raw i else 0 in
      (if is_on tag
       then (if Qltb 0 on_total then pct * on_total else 0)
       else (if Qltb 0 off_total then pct * off_total else 0))
        :: durations_loop (S i) rest raw on_total off_total
  end.

(** Second loop: accumulate to [(start, end, tag)] from the running [t]. *)
Fixpoint segs_loop (i : nat) (pattern : list string) (durations : list Q)
  (t : Q) : list Segment :=
  match pattern with
  | [] => []
  | tag :: rest =>
      let d := pymax 0 (getq durations i) in
      let start := t in
      let end_ := pymin 48 (start + d) in
      (start, end_, tag) :: segs_loop (S i) rest durations end_
  end.

(** [if segs: s, _, tag = segs[-1]; segs[-1] = (s, 48.0, tag)] *)
Fixpoint set_last_end (segs : list Segment) : list Segment :=
  match segs with
  | [] => []
  | [(s, _, tag)] => [(s, 48, tag)]
  | x :: rest => x :: set_last_end rest
  end.

Definition compute_segments (player : Player) : list Segment :=
  match truthy_id (archetype_id player) with
  | None => []
  | Some aid =>
      match get_config !! aid with
      | None => []
      | Some arch =>
          let raw := _ensure_default_percentages player in
          let on_total :=
            pymax 0 (pymin 48 (or_zero (expected_minutes player))) in
          let off_total := pymax 0 (48 - on_total) in
          let durations :=
            durations_loop 0 (stint_pattern arch) raw on_total off_total in
          set_last_end (segs_loop 0 (stint_pattern arch) durations 0)
      end
  end.

(** The clamping loop of [compute_default_boundaries]. *)
Fixpoint boundaries_loop (ends : list Q) (last : Q) : list Q :=
  match ends with
  | [] => []
  | e :: rest =>
      let val := pymax (last + 0.001) (pymin 48 e) in
      val :: boundaries_loop rest val
  end.

(** [segs[:-1]] *)
Definition but_last {A} (l : list A) : list A := take (length l - 1) l.

Definition compute_default_boundaries (player : Player) : list Q :=
  let segs := compute_segments player in
  if nonempty segs
  then boundaries_loop (map seg_end (but_last segs)) 0
  else [].

(** ** apply_boundaries *)

(** The sanitizing loop [for k in range(L - 1)], run over the list of its
    indices [ks]; [ends] is already cut to [ends[:L-1]]. *)
Fixpoint sanitize_loop (ks : list nat) (L : nat) (ends : list Q)
  (min_gap last : Q) : list Q :=
  match ks with
  | [] => []
  | k :: rest =>
      let raw := if (k <? length ends)%nat then getq ends k
                 else last + min_gap in
      let remaining :=
        inject_Z (Z.of_nat L - 1 - (Z.of_nat k + 1)) in
      let val :=
        pymax (last + min_gap) (pymin (48 - remaining * min_gap) raw) in
      val :: sanitize_loop rest L ends min_gap val
  end.

Definition sanitize (L : nat) (ends : list Q) (min_gap : Q) : list Q :=
  sanitize_loop (seq 0 (L - 1)) L (take (L - 1) ends) min_gap 0.

(** *** Binary64 arithmetic

    The same loop over IEEE-754 binary64 numbers, the [float] of the
    source: [+], [-] and [*] round to nearest, [max] and [min] return one
    of their arguments, and the integer [L - 1 - (k + 1)] is converted
    before it is multiplied. *)
Definition pymax_b64 (a b : float) : float :=
  if PrimFloat.ltb a b then b else a.
Definition pymin_b64 (a b : float) : float :=
  if PrimFloat.ltb b a then b else a.

Fixpoint sanitize_loop_b64 (ks : list nat) (L : nat) (ends : list float)
  (min_gap last : float) : list float :=
  match ks with
  | [] => []
  | k :: rest =>
      let raw := if (k <? length ends)%nat
                 then default PrimFloat.zero (ends !! k)
                 else PrimFloat.add last min_gap in
      let remaining :=
        PrimFloat.of_uint63
          (Uint63.of_Z (Z.of_nat L - 1 - (Z.of_nat k + 1))) in
      let val :=
        pymax_b64 (PrimFloat.add last min_gap)
          (pymin_b64
             (PrimFloat.sub 48%float (PrimFloat.mul remaining min_gap))
             raw) in
      val :: sanitize_loop_b64 rest L ends min_gap val
  end.

Definition sanitize_b64 (L : nat) (ends : list float) (min_gap : float)
  : list float :=
  sanitize_loop_b64 (seq 0 (L - 1)) L (take (L - 1) ends) min_gap
    PrimFloat.zero.

(** [for e in out_ends: seg_starts.append(t); seg_ends.append(e); t = e],
    then the final segment to 48. *)
Fixpoint bounds_loop (out_ends : list Q) (t : Q) : list Q * list Q :=
  match out_ends with
  | [] => ([t], [48])
  | e :: rest =>
      let '(seg_starts, seg_ends) := bounds_loop rest e in
      (t :: seg_starts, e :: seg_ends)
  end.

(** [[max(0.0, seg_ends[i] - seg_starts[i]) for i in range(L)]] *)
Definition edit_durations (L : nat) (seg_starts seg_ends : list Q) : list Q :=
  map (fun i => pymax 0 (getq seg_ends i - getq seg_starts i)) (seq 0 L).

(** [for i in idx: raw[i] = durations[i] / total if total > 0 else 0.0] *)
Definition fill_shares (idx : list nat) (durations : list Q) (total : Q)
  (raw : list Q) : list Q :=
  fold_left
    (fun r i => <[i := if Qltb 0 total then getq durations i / total else 0]> r)
    idx raw.

Definition set_edit (player : Player) (em : Q) (raw : list Q) : Player :=
  {| player_id := player_id player;
     name := name player;
     team := team player;
     archetype_id := archetype_id player;
     expected_minutes := em;
     closer_weighting := closer_weighting player;
     stddev_scaler := stddev_scaler player;
     stints_raw := raw;
     stints := stints player |}.

(** The function mutates [player] in place; the model returns the player
    as the call leaves it. *)
Definition apply_boundaries (player : Player) (ends : list Q) (min_gap : Q)
  : Player :=
  match truthy_id (archetype_id player) with
  | None => player
  | Some aid =>
      match get_config !! aid with
      | None => player
      | Some arch =>
          let L := length (stint_pattern arch) in
          if (L <=? 0)%nat then player else
          let out_ends := sanitize L ends min_gap in
          let '(seg_starts, seg_ends) := bounds_loop out_ends 0 in
          let durations := edit_durations L seg_starts seg_ends in
          let '(on_idx, off_idx) := split_on_off_indices aid in
          let on_total := pysum (map (getq durations) on_idx) in
          let off_total := pysum (map (getq durations) off_idx) in
          let raw := replicate L 0 in
          let raw := fill_shares on_idx durations on_total raw in
          let raw := fill_shares off_idx durations off_total raw in
          set_edit player (pymax 0 (pymin 48 on_total)) raw
      end
  end.

(** ** team_oncourt_steps *)

Definition Event : Type := Q * Z.

(** The events of one player: [(s, +1)] and [(e, -1)] for every "on"
    segment with [e > s], both clamped to [0, 48]. *)
Fixpoint segment_events (segs : list Segment) : list Event :=
  match segs with
  | [] => []
  | (s, e, tag) :: rest =>
      if is_on tag && Qltb s e
      then (pymax 0 (pymin 48 s), 1%Z) :: (pymax 0 (pymin 48 e), (-1)%Z)
             :: segment_events rest
      else segment_events rest
  end.

Definition collect_events (ps : list Player) : list Event :=
  concat (map (fun p => segment_events (compute_segments p)) ps)
    ++ [(0, 0%Z); (48, 0%Z)].

(** Tuple comparison [(t1, d1) < (t2, d2)]: the first components decide
    unless they are equal. *)
Definition event_ltb (a b : Event) : bool :=
  if Qeq_bool a.1 b.1 then (a.2 <? b.2)%Z else Qltb a.1 b.1.

(** [events.sort(key=...)] is a stable sort.  The result of a stable sort
    is determined by the input and the order of the keys; the insertion
    sort below is stable: an element is placed before the first element of
    the sorted rest that is not strictly smaller than it. *)
Fixpoint insert_event (x : Event) (l : list Event) : list Event :=
  match l with
  | [] => [x]
  | y :: rest =>
      if event_ltb y x then y :: insert_event x rest else x :: y :: rest
  end.

Definition sort_events (l : list Event) : list Event :=
  foldr insert_event [] l.

Record Walk := { xs : list Q; ys : list Z; curr : Z; last_t : Q }.

Definition walk_step (w : Walk) (ev : Event) : Walk :=
  let '(t, d) := ev in
  let w1 :=
    if nonempty (xs w) then w
    else {| xs := xs w ++ [last_t w]; ys := ys w ++ [curr w];
            curr := curr w; last_t := last_t w |} in
  let w2 :=
    if Qeq_bool t (last_t w1) then w1
    else {| xs := xs w1 ++ [t]; ys := ys w1 ++ [curr w1];
            curr := curr w1; last_t := t |} in
  let c := (curr w2 + d)%Z in
  {| xs := xs w2 ++ [t]; ys := ys w2 ++ [c]; curr := c;
     last_t := last_t w2 |}.

Definition walk (events : list Event) : Walk :=
  fold_left walk_step events
    {| xs := []; ys := []; curr := 0%Z; last_t := 0 |}.

(** [math.isclose(a, b)] with its defaults [rel_tol = 1e-09] and
    [abs_tol = 0.0]. *)
Definition isclose (a b : Q) : bool :=
  Qeq_bool a b
  || (let diff := Qabs (b - a) in
      Qle_bool diff (Qabs (1e-9 * b)) || Qle_bool diff (Qabs (1e-9 * a))
      || Qle_bool diff 0).

(** [for i in range(1, len(xs))], reading [xs[i]] and [ys[i]] in step. *)
Fixpoint dedup_loop (xs : list Q) (ys : list Z) (out_x : list Q)
  (out_y : list Z) : list Q * list Z :=
  match xs, ys with
  | x :: xs', y :: ys' =>
      if negb (isclose x (default 0 (last out_x))
               && (y =? default 0%Z (last out_y))%Z)
      then dedup_loop xs' ys' (out_x ++ [x]) (out_y ++ [y])
      else dedup_loop xs' ys' out_x out_y
  | _, _ => (out_x, out_y)
  end.

Definition dedup (xs : list Q) (ys : list Z) : list Q * list Z :=
  match xs, ys with
  | x0 :: xs', y0 :: ys' => dedup_loop xs' ys' [x0] [y0]
  | _, _ => ([], [])
  end.

(** [if out_x[-1] != 48.0: out_x.append(48.0); out_y.append(out_y[-1])] *)
Definition ensure_final (out : list Q * list Z) : list Q * list Z :=
  let '(out_x, out_y) := out in
  if negb (Qeq_bool (default 0 (last out_x)) 48)
  then (out_x ++ [48], out_y ++ [default 0%Z (last out_y)])
  else (out_x, out_y).

Definition team_oncourt_steps (team : Team) : list Q * list Z :=
  let events := sort_events (collect_events (players team)) in
  let w := walk events in
  ensure_final (dedup (xs w) (ys w)).

(** ** Predicates used in the statements *)

(** Each segment starts where the previous one ended, the first at [t]. *)
Fixpoint contiguous_from (t : Q) (segs : list Segment) : Prop :=
  match segs with
  | [] => True
  | s :: rest => seg_start s = t /\ contiguous_from (seg_end s) rest
  end.

Definition seg_in_game (s : Segment) : Prop :=
  0 <= seg_start s /\ seg_start s <= seg_end s /\ seg_end s <= 48.


(** ** Players used in the examples *)

Definition mk_player (archetype : option string) (minutes : Q)
  (raw : list Q) : Player :=
  {| player_id := "p1"; name := "Player"; team := "Home";
     archetype_id := archetype; expected_minutes := minutes;
     closer_weighting := 0; stddev_scaler := 1;
     stints_raw := raw; stints := [] |}.

Definition bench_archetype : Archetype :=
  {| arch_id := "NonStarterNonCloserOneStint";
     arch_name := "Bench, single on-stint, non-closer";
     starter := false;
     stint_pattern := ["off"; "on"; "off"] |}.

Definition garbage_archetype : Archetype :=
  {| arch_id := "GarbageTime";
     arch_name := "Garbage Time (does not play)";
     starter := false;
     stint_pattern := ["off"] |}.

(** One bench player, 12 expected minutes, weights [1.0, 1.0, 0.0]. *)
Definition bench12 : Player :=
  mk_player (Some "NonStarterNonCloserOneStint") 12 [1; 1; 0].

(** A starter playing all 48 minutes in the first stint. *)
Definition starter48 : Player :=
  mk_player (Some "StarterCloserThreeStints") 48 [1; 0; 0; 0; 0].

Definition starter3_archetype : Archetype :=
  {| arch_id := "StarterCloserThreeStints";
     arch_name := "Starter, 3 on-stints, closer-capable";
     starter := true;
     stint_pattern := ["on"; "off"; "on"; "off"; "on"] |}.

(** A player whose archetype has a single stint. *)
Definition garbage7 : Player := mk_player (Some "GarbageTime") 7 [0.5; 3].

(** A player without an archetype, and one whose id is not in the catalog. *)
Definition unconfigured : Player := mk_player None 30 [0.5; 0.5].
Definition unknown_archetype : Player :=
  mk_player (Some "PointCentre") 30 [0.5; 0.5].

Definition team_of (ps : list Player) : Team :=
  {| team_name := "Home"; players := ps |}.

(** The window of the sanitized boundaries, for an archetype of [L]
    stints: boundary [k] is at least [min_gap] above the previous one (0
    before the first) and at most [48 - (L - 2 - k) * min_gap]. *)
Definition in_window (L : nat) (min_gap : Q) (out : list Q) : Prop :=
  forall k prev v,
    (0 :: out) !! k = Some prev -> out !! k = Some v ->
    prev < v /\ prev + min_gap <= v
    /\ v <= 48 - (Qnat L - 2 - Qnat k) * min_gap.

(** The lower end of the window alone: boundary [k] is above the previous
    one (0 before the first), by at least [min_gap]. *)
Definition spaced (min_gap : Q) (out : list Q) : Prop :=
  forall k prev v,
    (0 :: out) !! k = Some prev -> out !! k = Some v ->
    prev < v /\ prev + min_gap <= v.

(** ** The order of the events and the running count *)

(** [a] is not after [b] in the sort order of the events. *)
Definition ev_le (a b : Event) : Prop := event_ltb b a = false.

(** The sum of the deltas of a list of events. *)
Definition sum_deltas (l : list Event) : Z :=
  foldr (fun ev acc => (ev.2 + acc)%Z) 0%Z l.

(** Every running count is non-negative when the events [l] are processed
    from the count [c]. *)
Fixpoint nonneg_run (c : Z) (l : list Event) : Prop :=
  match l with
  | [] => True
  | ev :: rest => (0 <= c + ev.2)%Z /\ nonneg_run (c + ev.2) rest
  end.

(** Events that come in pairs [(s, +1), (e, -1)] with [s < e]. *)
Inductive paired : list Event -> Prop :=
  | paired_nil : paired []
  | paired_cons s e l :
      s < e -> paired l -> paired ((s, 1%Z) :: (e, (-1)%Z) :: l).

(** The points appended by the loop of the walk once [xs] is non-empty,
    from the running count [c] and the last time [lt]: a point [(t, c)] when
    the time changes, then a point with the count after the event. *)
Fixpoint emitted (c : Z) (lt : Q) (events : list Event) : list (Q * Z) :=
  match events with
  | [] => []
  | (t, d) :: rest =>
      (if Qeq_bool t lt then [] else [(t, c)])
        ++ (t, (c + d)%Z)
        :: emitted (c + d) (if Qeq_bool t lt then lt else t) rest
  end.

Definition in_game (t : Q) : Prop := 0 <= t <= 48.

(** Each entry is at most the next one. *)
Definition nondecreasing (l : list Q) : Prop :=
  forall i a b, l !! i = Some a -> l !! S i = Some b -> a <= b.

(** Two bench players: the first is on court during [0, 20], the second
    during [20, 48]. *)
Definition early_sub : Player :=
  mk_player (Some "NonStarterNonCloserOneStint") 20 [0; 1; 1].
Definition late_sub : Player :=
  mk_player (Some "NonStarterNonCloserOneStint") 28 [1; 1; 0].
Definition relay_team : Team := team_of [early_sub; late_sub].






(** ** Round trips through the boundary editor *)

(** Two segment lists agree within [tol] at every start and end, with the
    same tags. *)
Definition seg_close (tol : Q) (a b : Segment) : Prop :=
  Qabs (seg_start a - seg_start b) <= tol
  /\ Qabs (seg_end a - seg_end b) <= tol
  /\ seg_tag a = seg_tag b.

Definition segs_close (tol : Q) (l1 l2 : list Segment) : Prop :=
  Forall2 (seg_close tol) l1 l2.

Definition seg_width (s : Segment) : Q := seg_end s - seg_start s.

(** [f i + f (i + 1) + ... + f (i + n - 1)] *)
Fixpoint sum_range (f : nat -> Q) (i n : nat) : Q :=
  match n with
  | O => 0
  | S n' => f i + sum_range f (S i) n'
  end.

(** A bench player with no expected minutes and no weights yet. *)
Definition idle_bench : Player :=
  mk_player (Some "NonStarterNonCloserOneStint") 0 [].

(** Two segments with numerically equal ends and the same tag. *)
Definition seg_eq (a b : Segment) : Prop :=
  seg_start a == seg_start b /\ seg_end a == seg_end b
  /\ seg_tag a = seg_tag b.

(** ** visuals.py: starter-like players *)

(** [_is_starter_like]: the archetype's [starter] flag, or the id "Star". *)
Definition _is_starter_like (player : Player) : bool :=
  match truthy_id (archetype_id player) with
  | None => false
  | Some aid =>
      match get_config !! aid with
      | None => false
      | Some arch => starter arch || String.eqb aid "Star"
      end
  end.

(** ** Further predicates *)

(** Every value is at least [gap] above the one before, [last] before the
    first. *)
Fixpoint spaced_from (gap last : Q) (l : list Q) : Prop :=
  match l with
  | [] => True
  | x :: rest => last + gap <= x /\ spaced_from gap x rest
  end.

(** A bench player whose weights are spread over the edit. *)
Definition bench30 : Player :=
  mk_player (Some "NonStarterNonCloserOneStint") 30 [0.25; 1; 0.75].

(** The weights written by [apply_boundaries] from the durations of the
    edited stints: every stint gets its share of the total of its group. *)
Definition share_weights (pattern : list string) (durations : list Q)
  : list Q :=
  let on_idx := (split_loop 0 pattern).1 in
  let off_idx := (split_loop 0 pattern).2 in
  fill_shares off_idx durations (pysum (map (getq durations) off_idx))
    (fill_shares on_idx durations (pysum (map (getq durations) on_idx))
       (replicate (length pattern) 0)).

(** The durations of the stints cut by the sanitized boundaries. *)
Definition cut_durations (L : nat) (ends : list Q) (min_gap : Q) : list Q :=
  edit_durations L (0 :: sanitize L ends min_gap)
    (sanitize L ends min_gap ++ [48]).

(** The points cut by the sanitized boundaries: 0, the boundaries, 48. *)
Definition cut_point (L : nat) (ends : list Q) (min_gap : Q) (j : nat) : Q :=
  getq (0 :: sanitize L ends min_gap ++ [48]) j.

(** The total width of the "on" segments. *)
Definition on_court_minutes (segs : list Segment) : Q :=
  pysum (map seg_width (List.filter (fun s => is_on (seg_tag s)) segs)).

(** A bench player with a single weight, for the first stint. *)
Definition bench_partial : Player :=
  mk_player (Some "NonStarterNonCloserOneStint") 20 [0.4].

(** ** state_manager.py: sums and statuses *)

(** [round(x, 6)] in the exact model: the nearest multiple of [1e-6],
    a tie going to the even one. *)
Definition round_half_even (y : Q) : Z :=
  let f := Qfloor y in
  let r := y - inject_Z f in
  if Qltb r (1 # 2) then f
  else if Qltb (1 # 2) r then (f + 1)%Z
  else if Z.even f then f else (f + 1)%Z.

Definition pyround6 (x : Q) : Q :=
  inject_Z (round_half_even (x * 1000000)) / 1000000.

Definition closer_sum (team : Team) : Q :=
  pyround6
    (pysum (map (fun p => pymax 0 (pymin 1 (closer_weighting p)))
              (players team))).

(** [closer_status(total, tol)]; the callers leave [tol] at its default
    [0.01]. *)
Definition closer_status (total tol : Q) : string :=
  if Qle_bool (Qabs (total - 5)) tol then "ok" else "bad".

Definition expected_minutes_sum (team : Team) : Q :=
  pyround6
    (pysum (map (fun p => pymax 0 (pymin 48 (or_zero (expected_minutes p))))
              (players team))).

(** [expected_minutes_status(total, target, tol)]; the defaults are
    [240.0] and [0.01]. *)
Definition expected_minutes_status (total target tol : Q) : string :=
  if Qle_bool (Qabs (total - target)) tol then "ok" else "bad".

(** [split_on_off_sums]: the weights present at the "on" positions and at
    the "off" positions, summed. *)
Definition split_on_off_sums (player : Player) : option (Q * Q) :=
  match truthy_id (archetype_id player) with
  | None => None
  | Some aid =>
      let '(on_idx, off_idx) := split_on_off_indices aid in
      let present :=
        List.filter (fun i => (i <? length (stints_raw player))%nat) in
      Some (pysum (map (getq (stints_raw player)) (present on_idx)),
            pysum (map (getq (stints_raw player)) (present off_idx)))
  end.

(** A roster of four players. *)
Definition short_team : Team :=
  team_of [mk_player (Some "Star") 48 []; mk_player (Some "Star") 48 [];
           mk_player None 60 []; mk_player (Some "GarbageTime") 48 []].

(** ** Bounding the running count *)

(** Every running count is at most [b] when the events [l] are processed
    from the count [c]. *)
Fixpoint at_most_run (c b : Z) (l : list Event) : Prop :=
  match l with
  | [] => True
  | ev :: rest => (c + ev.2 <= b)%Z /\ at_most_run (c + ev.2) b rest
  end.

(** Every running count is at most [b] after an event sorted before [x]
    and at most [b + 1] after any other event. *)
Fixpoint capped_run (c b : Z) (x : Event) (l : list Event) : Prop :=
  match l with
  | [] => True
  | ev :: rest =>
      (c + ev.2 <= (if event_ltb ev x then b else b + 1))%Z
      /\ capped_run (c + ev.2) b x rest
  end.

(** The events of the "on" segments of one player, in time order: each
    segment starts no earlier than [t] and than the end of the one
    before, and ends by minute 48. *)
Inductive chained : Q -> list Event -> Prop :=
  | chained_nil t : chained t []
  | chained_cons t s e l :
      t <= s -> s < e -> e <= 48 -> chained e l ->
      chained t ((s, 1%Z) :: (e, (-1)%Z) :: l).

(** The first event of a chain; an event after minute 48 when the chain is
    empty. *)
Definition chain_head (l : list Event) : Event :=
  match l with
  | [] => (49, 0%Z)
  | ev :: _ => ev
  end.

(** ** io_utils.py: the exported table *)

Record GameData := { home_team : Team; away_team : Team }.

(** A cell of the table: a string or a number. *)
Inductive Cell :=
  | CStr (s : string)
  | CNum (x : Q).

Definition HEADERS : list string := [
  "Team"; "Player id"; "Player name"; "Expected typical minutes";
  "Rotation archetype id"; "Closer weighting";
  "Stint 0 minutes"; "Stint 1 minutes"; "Stint 2 minutes";
  "Stint 3 minutes"; "Stint 4 minutes"; "Stint 5 minutes";
  "Stint 6 minutes"; "Stint 7 minutes"; "Stint 8 minutes";
  "StandardDeviationScaler"
].

(** [f"Stint {i} minutes"] for a one-digit [i]. *)
Definition stint_col (i : nat) : string :=
  "Stint " ++ String (Ascii.ascii_of_nat (48 + i)) " minutes".

Definition STINT_COLS : list string := map stint_col (seq 0 9).

(** The dictionary [row] that [_rows_for_team] builds for one player. *)
Definition export_row (p : Player) : gmap string Cell :=
  let row : gmap string Cell :=
    <["StandardDeviationScaler" := CNum (stddev_scaler p)]>
    (<["Closer weighting" := CNum (closer_weighting p)]>
    (<["Rotation archetype id" :=
         CStr (match truthy_id (archetype_id p) with
               | Some s => s
               | None => ""
               end)]>
    (<["Expected typical minutes" := CNum (expected_minutes p)]>
    (<["Player name" := CStr (name p)]>
    (<["Player id" := CStr (player_id p)]>
    (<["Team" := CStr (team p)]> ∅)))))) in
  fold_left
    (fun row ic =>
       <[ic.2 := if (ic.1 <? length (stints_raw p))%nat
                 then CNum (getq (stints_raw p) ic.1) else CStr ""]> row)
    (zip (seq 0 (length STINT_COLS)) STINT_COLS) row.

(** [pd.DataFrame(rows, columns=HEADERS)]: one line per dictionary, its
    cells in the order of [HEADERS]; a key that is missing leaves no
    cell. *)
Definition frame (rows : list (gmap string Cell))
  : list (list (option Cell)) :=
  map (fun row => map (fun h => row !! h) HEADERS) rows.

Definition export_csv (game : GameData) : list (list (option Cell)) :=
  frame (map export_row (players (home_team game))
         ++ map export_row (players (away_team game))).

(** The numbers found in the stint columns of a line of the table. *)
Definition stint_numbers (line : list (option Cell)) : list Q :=
  omap (fun c => match c with Some (CNum x) => Some x | _ => None end)
       (take 9 (drop 6 line)).

(** The line that [export_csv] writes for a player, in [HEADERS] order. *)
Definition export_line_of (p : Player) : list (option Cell) :=
  [Some (CStr (team p)); Some (CStr (player_id p)); Some (CStr (name p));
   Some (CNum (expected_minutes p));
   Some (CStr (match truthy_id (archetype_id p) with
               | Some s => s
               | None => ""
               end));
   Some (CNum (closer_weighting p))]
  ++ map (fun i => Some (if (i <? length (stints_raw p))%nat
                         then CNum (getq (stints_raw p) i) else CStr ""))
         (seq 0 9)
  ++ [Some (CNum (stddev_scaler p))].

(** A player with more weights than the table has stint columns. *)
Definition long_weights : Player :=
  mk_player (Some "Star") 30 [1; 2; 3; 4; 5; 6; 7; 8; 9; 10; 11].

(** [f 0 + ... + f (j - 1)]: where stint [j] starts when the durations [f]
    are laid end to end. *)
Definition prefix_sum (f : nat -> Q) (j : nat) : Q := sum_range f 0 j.

(** A starter with weights that add up to 1 in each group. *)
Definition starter_even : Player :=
  mk_player (Some "StarterCloserThreeStints") 30
    [0.5; 0.25; 0.25; 0.75; 0.25].

(** [on_total] of [compute_segments]: the expected minutes, clamped. *)
Definition clamped_minutes (p : Player) : Q :=
  pymax 0 (pymin 48 (or_zero (expected_minutes p))).
(** * Properties *)

(** ** Comparisons and clamping *)

Lemma Qltb_true (a b : Q) : Qltb a b = true <-> a < b.
Proof.
  unfold Qltb. rewrite negb_true_iff.
  split; intros H.
  - apply Qnot_le_lt. intros Hle. apply Qle_bool_iff in Hle. congruence.
  - destruct (Qle_bool b a) eqn:E; [|reflexivity].
    apply Qle_bool_iff in E. lra.
Qed.

Lemma Qltb_false (a b : Q) : Qltb a b = false <-> b <= a.
Proof.
  unfold Qltb. rewrite negb_false_iff. apply Qle_bool_iff.
Qed.

Lemma Qeq_bool_false (a b : Q) : Qeq_bool a b = false <-> ~ a == b.
Proof.
  split; intros H.
  - intros E. apply Qeq_bool_iff in E. congruence.
  - destruct (Qeq_bool a b) eqn:E; [|reflexivity].
    apply Qeq_bool_iff in E. contradiction.
Qed.

(** Case analysis on every Python comparison in sight, leaving the order
    facts as hypotheses for [lra]. *)
Ltac no_test t :=
  lazymatch t with
  | context [Qltb _ _] => fail
  | context [Qeq_bool _ _] => fail
  | _ => idtac
  end.

Ltac py_case :=
  match goal with
  | |- context [Qltb ?a ?b] =>
      no_test a; no_test b;
      let E := fresh "E" in
      destruct (Qltb a b) eqn:E;
      [apply Qltb_true in E | apply Qltb_false in E]
  | |- context [Qeq_bool ?a ?b] =>
      no_test a; no_test b;
      let E := fresh "E" in
      destruct (Qeq_bool a b) eqn:E;
      [apply Qeq_bool_iff in E | apply Qeq_bool_false in E]
  end.

Ltac py_arith := unfold pymax, pymin, or_zero in *; repeat py_case; try lra.

Lemma pymax_lb_l (a b : Q) : a <= pymax a b.
Proof. py_arith. Qed.

Lemma pymax_lb_r (a b : Q) : b <= pymax a b.
Proof. py_arith. Qed.

Lemma pymin_ub_l (a b : Q) : pymin a b <= a.
Proof. py_arith. Qed.

Lemma pymin_ub_r (a b : Q) : pymin a b <= b.
Proof. py_arith. Qed.

Lemma clamp_range (lo hi x : Q) :
  lo <= hi -> lo <= pymax lo (pymin hi x) <= hi.
Proof. intros. py_arith. Qed.

Lemma clamp_id (lo hi x : Q) :
  lo <= x <= hi -> pymax lo (pymin hi x) == x.
Proof. intros. py_arith. Qed.

(** ** The catalog *)

Lemma fold_insert_lookup (l : list Archetype) (m : gmap string Archetype)
  (s : string) (a : Archetype) :
  fold_left (fun arch_map arch => <[arch_id arch := arch]> arch_map) l m !! s
    = Some a ->
  m !! s = Some a \/ a ∈ l.
Proof.
  revert m. induction l as [|x l IH]; intros m H; simpl in H.
  - by left.
  - destruct (IH _ H) as [Hm | Hl].
    + destruct (decide (arch_id x = s)) as [Heq|Hne].
      * subst s. rewrite lookup_insert_eq in Hm. inversion Hm; subst.
        right. apply list_elem_of_here.
      * rewrite lookup_insert_ne in Hm by done. by left.
    + right. by apply list_elem_of_further.
Qed.

Lemma catalog_member (s : string) (a : Archetype) :
  get_config !! s = Some a -> a ∈ ARCHETYPES.
Proof.
  intros H. apply fold_insert_lookup in H as [H|H]; [|done].
  by rewrite lookup_empty in H.
Qed.

(** Every archetype of the catalog has at least one stint. *)
Lemma catalog_pattern_nonempty (s : string) (a : Archetype) :
  get_config !! s = Some a -> (0 < length (stint_pattern a))%nat.
Proof.
  intros H. apply catalog_member in H.
  unfold ARCHETYPES in H.
  repeat (apply elem_of_cons in H as [-> | H]; [simpl; lia|]).
  by apply elem_of_nil in H.
Qed.

Lemma resolve_lookup (p : Player) (arch : Archetype) :
  resolve p = Some arch ->
  exists aid, truthy_id (archetype_id p) = Some aid
              /\ get_config !! aid = Some arch.
Proof.
  unfold resolve. destruct (truthy_id (archetype_id p)) as [aid|]; [|done].
  intros H. by exists aid.
Qed.

(** ** compute_segments: shape of the result *)

Lemma segs_loop_length i pattern durations t :
  length (segs_loop i pattern durations t) = length pattern.
Proof.
  revert i t. induction pattern as [|tag rest IH]; intros i t; simpl;
    [done | by rewrite IH].
Qed.

Lemma segs_loop_tags i pattern durations t :
  map seg_tag (segs_loop i pattern durations t) = pattern.
Proof.
  revert i t. induction pattern as [|tag rest IH]; intros i t; simpl;
    [done | by rewrite IH].
Qed.

Lemma segs_loop_contiguous i pattern durations t :
  contiguous_from t (segs_loop i pattern durations t).
Proof.
  revert i t. induction pattern as [|tag rest IH]; intros i t; simpl;
    [done | split; [done | apply IH]].
Qed.

Lemma segs_loop_in_game i pattern durations t :
  0 <= t <= 48 ->
  Forall seg_in_game (segs_loop i pattern durations t).
Proof.
  revert i t. induction pattern as [|tag rest IH]; intros i t Ht; simpl.
  - constructor.
  - pose proof (pymax_lb_l 0 (getq durations i)) as Hd.
    set (d := pymax 0 (getq durations i)) in *.
    assert (t <= pymin 48 (t + d) <= 48) as Hend by py_arith.
    constructor.
    + unfold seg_in_game, seg_start, seg_end; simpl. lra.
    + apply IH. lra.
Qed.

Lemma set_last_end_cons x y rest :
  set_last_end (x :: y :: rest) = x :: set_last_end (y :: rest).
Proof. by destruct x as [[s e] tag]. Qed.

Lemma set_last_end_length segs : length (set_last_end segs) = length segs.
Proof.
  induction segs as [|x rest IH]; [done|].
  destruct rest as [|y rest].
  - by destruct x as [[s e] tag].
  - rewrite set_last_end_cons. cbn [length] in *. by f_equal.
Qed.

Lemma set_last_end_tags segs :
  map seg_tag (set_last_end segs) = map seg_tag segs.
Proof.
  induction segs as [|x rest IH]; [done|].
  destruct rest as [|y rest].
  - by destruct x as [[s e] tag].
  - rewrite set_last_end_cons. cbn [map] in *. by f_equal.
Qed.

Lemma set_last_end_contiguous t segs :
  contiguous_from t segs -> contiguous_from t (set_last_end segs).
Proof.
  revert t. induction segs as [|x rest IH]; intros t H; [done|].
  destruct rest as [|y rest].
  - destruct x as [[s e] tag]. simpl in *. tauto.
  - rewrite set_last_end_cons. destruct H as [H1 H2].
    split; [done | by apply IH].
Qed.

Lemma set_last_end_in_game segs :
  Forall seg_in_game segs -> Forall seg_in_game (set_last_end segs).
Proof.
  induction segs as [|x rest IH]; intros H; [done|].
  apply Forall_cons in H as [Hx Hrest].
  destruct rest as [|y rest].
  - destruct x as [[s e] tag]. constructor; [|constructor].
    unfold seg_in_game, seg_start, seg_end in *; simpl in *. lra.
  - rewrite set_last_end_cons. constructor; [done | by apply IH].
Qed.

Lemma set_last_end_last segs :
  segs <> [] -> seg_end <$> last (set_last_end segs) = Some 48.
Proof.
  induction segs as [|x rest IH]; intros H; [done|].
  destruct rest as [|y rest].
  - by destruct x as [[s e] tag].
  - rewrite set_last_end_cons, last_cons.
    assert (y :: rest <> []) as Hne by done.
    specialize (IH Hne).
    by destruct (last (set_last_end (y :: rest))).
Qed.

Lemma compute_segments_resolved (p : Player) (aid : string)
  (arch : Archetype) :
  truthy_id (archetype_id p) = Some aid ->
  get_config !! aid = Some arch ->
  compute_segments p =
    let raw := _ensure_default_percentages p in
    let on_total := pymax 0 (pymin 48 (or_zero (expected_minutes p))) in
    let off_total := pymax 0 (48 - on_total) in
    set_last_end
      (segs_loop 0 (stint_pattern arch)
         (durations_loop 0 (stint_pattern arch) raw on_total off_total) 0).
Proof. intros Hid Hget. unfold compute_segments. by rewrite Hid, Hget. Qed.

(** C1.  For a player whose archetype resolves in the catalog,
    [compute_segments] returns one segment per stint of the pattern, tagged
    in pattern order; the first segment starts at 0, every segment starts
    where the previous one ended, every segment has
    [0 <= start <= end <= 48], and the last segment ends at 48.  This holds
    for every [expected_minutes] and every [stints_raw] list. *)
Theorem compute_segments_cover (p : Player) (arch : Archetype) :
  resolve p = Some arch ->
  length (compute_segments p) = length (stint_pattern arch)
  /\ map seg_tag (compute_segments p) = stint_pattern arch
  /\ contiguous_from 0 (compute_segments p)
  /\ Forall seg_in_game (compute_segments p)
  /\ seg_end <$> last (compute_segments p) = Some 48.
Proof.
  intros Hres. destruct (resolve_lookup _ _ Hres) as (aid & Hid & Hget).
  rewrite (compute_segments_resolved _ _ _ Hid Hget). cbv zeta.
  set (durations := durations_loop _ _ _ _ _).
  repeat split.
  - by rewrite set_last_end_length, segs_loop_length.
  - by rewrite set_last_end_tags, segs_loop_tags.
  - apply set_last_end_contiguous, segs_loop_contiguous.
  - apply set_last_end_in_game, segs_loop_in_game. lra.
  - apply set_last_end_last. intros Hnil.
    apply (f_equal length) in Hnil. rewrite segs_loop_length in Hnil.
    pose proof (catalog_pattern_nonempty _ _ Hget). simpl in Hnil. lia.
Qed.

Lemma compute_segments_cover_witness :
  resolve bench12 = Some bench_archetype
  /\ length (compute_segments bench12) = length (stint_pattern bench_archetype)
  /\ map seg_tag (compute_segments bench12) = stint_pattern bench_archetype
  /\ contiguous_from 0 (compute_segments bench12)
  /\ Forall seg_in_game (compute_segments bench12)
  /\ seg_end <$> last (compute_segments bench12) = Some 48.
Proof.
  split; [reflexivity|].
  apply (compute_segments_cover bench12 bench_archetype). reflexivity.
Defined.

(** ** Players without a resolvable archetype *)

Lemma resolve_None (p : Player) :
  resolve p = None <->
  archetype_id p = None \/ archetype_id p = Some ""
  \/ exists s, archetype_id p = Some s /\ get_config !! s = None.
Proof.
  unfold resolve, truthy_id. destruct (archetype_id p) as [s|].
  - destruct (String.eqb_spec s "") as [->|Hne].
    + split; [by right; left | done].
    + split.
      * intros H. right; right. by exists s.
      * intros [H|[H|(s' & H1 & H2)]]; [done | congruence |].
        by inversion H1; subst.
  - split; [by left | done].
Qed.

(** C9.  When the player's [archetype_id] is absent, empty or unknown to
    the catalog, [compute_segments] and [compute_default_boundaries] return
    the empty list and [apply_boundaries] returns the player unchanged, for
    every [ends] and [min_gap]; the three functions are total, so no call
    fails. *)
Theorem unresolved_archetype_noop (p : Player) (ends : list Q) (min_gap : Q) :
  archetype_id p = None \/ archetype_id p = Some ""
  \/ (exists s, archetype_id p = Some s /\ get_config !! s = None) ->
  compute_segments p = []
  /\ compute_default_boundaries p = []
  /\ apply_boundaries p ends min_gap = p.
Proof.
  intros H. apply resolve_None in H. unfold resolve in H.
  assert (compute_segments p = []) as Hsegs.
  { unfold compute_segments.
    destruct (truthy_id (archetype_id p)) as [aid|]; [by rewrite H | done]. }
  repeat split; [done | |].
  - unfold compute_default_boundaries. by rewrite Hsegs.
  - unfold apply_boundaries.
    destruct (truthy_id (archetype_id p)) as [aid|]; [by rewrite H | done].
Qed.

Lemma unresolved_archetype_noop_witness :
  (archetype_id unknown_archetype = None
   \/ archetype_id unknown_archetype = Some ""
   \/ exists s, archetype_id unknown_archetype = Some s
                /\ get_config !! s = None)
  /\ compute_segments unknown_archetype = []
  /\ compute_default_boundaries unknown_archetype = []
  /\ apply_boundaries unknown_archetype [50; 3; 3] 0.001 = unknown_archetype.
Proof.
  assert (archetype_id unknown_archetype = None
          \/ archetype_id unknown_archetype = Some ""
          \/ exists s, archetype_id unknown_archetype = Some s
                       /\ get_config !! s = None) as H.
  { right; right. exists "PointCentre". split; reflexivity. }
  split; [exact H|].
  exact (unresolved_archetype_noop unknown_archetype [50; 3; 3] 0.001 H).
Defined.

(** ** Default boundaries beyond the end of the game *)

(** C10.  [compute_default_boundaries] can leave [0, 48]: for the
    StarterCloserThreeStints player with 48 expected minutes and weights
    [1, 0, 0, 0, 0] every segment ends at 48, and the boundaries returned
    are 48, 48.001, 48.002 and 48.003, three of them above 48. *)
Theorem default_boundaries_exceed_48 :
  resolve starter48 = Some starter3_archetype
  /\ map seg_end (compute_segments starter48) = [48; 48; 48; 48; 48]
  /\ Forall2 Qeq (compute_default_boundaries starter48)
       [48; 48.001; 48.002; 48.003]
  /\ Exists (fun b => 48 < b) (compute_default_boundaries starter48).
Proof.
  split; [reflexivity|]. split; [reflexivity|].
  assert (compute_default_boundaries starter48
          = [48; 48.001; 48.002000; 48.003000000]) as -> by reflexivity.
  split.
  - repeat constructor.
  - apply Exists_cons_tl, Exists_cons_hd. reflexivity.
Qed.

(** ** A single-stint archetype *)

Lemma single_stint_is_garbage (s : string) (a : Archetype) :
  get_config !! s = Some a -> length (stint_pattern a) = 1%nat ->
  a = garbage_archetype.
Proof.
  intros H HL. apply catalog_member in H.
  unfold ARCHETYPES in H.
  repeat (apply elem_of_cons in H as [-> | H];
          [first [reflexivity | simpl in HL; discriminate]|]).
  by apply elem_of_nil in H.
Qed.

Lemma catalog_key (s : string) (a : Archetype) :
  get_config !! s = Some a -> arch_id a = s.
Proof.
  unfold get_config.
  assert (forall l (m : gmap string Archetype),
    (forall k v, m !! k = Some v -> arch_id v = k) ->
    forall k v,
      fold_left (fun arch_map arch => <[arch_id arch := arch]> arch_map) l m
        !! k = Some v -> arch_id v = k) as Hgen.
  { induction l as [|x l IH]; intros m Hm k v; simpl; [apply Hm|].
    apply IH. intros k' v' Hl.
    destruct (decide (arch_id x = k')) as [Heq|Hne].
    - subst k'. rewrite lookup_insert_eq in Hl. by inversion Hl.
    - rewrite lookup_insert_ne in Hl by done. by apply Hm. }
  apply Hgen. intros k v Hl. by rewrite lookup_empty in Hl.
Qed.

(** C4 (as the code has it).  For a player whose archetype has a single
    stint, [apply_boundaries] is not a no-op: whatever [ends] and [min_gap]
    are, it sets [expected_minutes] to 0 and [stints_raw] to a single weight
    equal to 1, and leaves the other fields as they were; the segments of
    the player are [(0, 48, "off")] before and after. *)
Theorem apply_boundaries_single_stint (p : Player) (arch : Archetype)
  (ends : list Q) (min_gap : Q) :
  resolve p = Some arch ->
  length (stint_pattern arch) = 1%nat ->
  (exists w, w == 1 /\ apply_boundaries p ends min_gap = set_edit p 0 [w])
  /\ compute_segments p = [(0, 48, "off")]
  /\ compute_segments (apply_boundaries p ends min_gap) = [(0, 48, "off")].
Proof.
  intros Hres HL. destruct (resolve_lookup _ _ Hres) as (aid & Hid & Hget).
  pose proof (single_stint_is_garbage _ _ Hget HL) as ->.
  pose proof (catalog_key _ _ Hget) as Hkey. simpl in Hkey. subst aid.
  assert (apply_boundaries p ends min_gap = set_edit p 0 [48 / 48]) as Happ.
  { unfold apply_boundaries. rewrite Hid. reflexivity. }
  split; [|split].
  - exists (48 / 48). split; [reflexivity | exact Happ].
  - unfold compute_segments. rewrite Hid.
    change (get_config !! "GarbageTime") with (Some garbage_archetype).
    cbv beta iota zeta. simpl stint_pattern. simpl durations_loop.
    reflexivity.
  - rewrite Happ. unfold compute_segments. simpl archetype_id. rewrite Hid.
    reflexivity.
Qed.

Lemma apply_boundaries_single_stint_witness :
  resolve garbage7 = Some garbage_archetype
  /\ length (stint_pattern garbage_archetype) = 1%nat
  /\ (exists w, w == 1
        /\ apply_boundaries garbage7 [10; 20] 0.001 = set_edit garbage7 0 [w])
  /\ compute_segments garbage7 = [(0, 48, "off")]
  /\ compute_segments (apply_boundaries garbage7 [10; 20] 0.001)
     = [(0, 48, "off")].
Proof.
  split; [reflexivity|]. split; [reflexivity|].
  exact (apply_boundaries_single_stint garbage7 garbage_archetype [10; 20]
           0.001 eq_refl eq_refl).
Defined.

(** C4 as stated fails: the GarbageTime player with 7 expected minutes and
    weights [0.5, 3] comes back with both fields rewritten. *)
Lemma apply_boundaries_single_stint_not_noop :
  resolve garbage7 = Some garbage_archetype
  /\ length (stint_pattern garbage_archetype) = 1%nat
  /\ expected_minutes garbage7 = 7
  /\ expected_minutes (apply_boundaries garbage7 [] 0.001) = 0
  /\ apply_boundaries garbage7 [] 0.001 <> garbage7.
Proof.
  do 4 (split; [reflexivity|]).
  intros H. apply (f_equal stints_raw) in H. vm_compute in H. discriminate.
Qed.

(** ** The occupancy of a one-player team *)

(** C6 (as the code has it).  For the bench player with 12 expected
    minutes and weights [1.0, 1.0, 0.0] the single "on" segment is
    [36, 48], and [team_oncourt_steps] returns the points (0,0), (36,0),
    (36,1), (48,1), (48,0): the event that ends the segment at 48 is
    processed, so the final point has count 0. *)
Theorem bench12_occupancy :
  resolve bench12 = Some bench_archetype
  /\ compute_segments bench12 = [(0, 36, "off"); (36, 48, "on"); (48, 48, "off")]
  /\ team_oncourt_steps (team_of [bench12])
     = ([0; 36; 36; 48; 48], [0; 0; 1; 1; 0]%Z).
Proof. repeat split; reflexivity. Qed.

(** C6 as stated fails: the last count is not 1. *)
Lemma bench12_final_count_not_1 :
  last (team_oncourt_steps (team_of [bench12])).2 <> Some 1%Z.
Proof. vm_compute. discriminate. Qed.

(** ** The sanitizing loop of apply_boundaries *)

Lemma Qnat_S (n : nat) : Qnat (S n) == Qnat n + 1.
Proof.
  unfold Qnat. rewrite Nat2Z.inj_succ, <- Z.add_1_r, inject_Z_plus.
  reflexivity.
Qed.

Lemma Qnat_add (a b : nat) : Qnat (a + b) == Qnat a + Qnat b.
Proof. unfold Qnat. by rewrite Nat2Z.inj_add, inject_Z_plus. Qed.

Lemma Qnat_nonneg (n : nat) : 0 <= Qnat n.
Proof.
  unfold Qnat. change 0 with (inject_Z 0). rewrite <- Zle_Qle. lia.
Qed.

Lemma remaining_count (L k n : nat) :
  (k + S n = L - 1)%nat ->
  inject_Z (Z.of_nat L - 1 - (Z.of_nat k + 1)) == Qnat n.
Proof.
  intros H. unfold Qnat.
  replace (Z.of_nat L - 1 - (Z.of_nat k + 1))%Z with (Z.of_nat n) by lia.
  reflexivity.
Qed.

Lemma sanitize_loop_length ks L ends min_gap last :
  length (sanitize_loop ks L ends min_gap last) = length ks.
Proof.
  revert last. induction ks as [|k ks IH]; intros last; simpl;
    [done | by rewrite IH].
Qed.

(** The lower end of the window needs nothing: every value is at least
    [min_gap] above the previous one. *)
Lemma sanitize_loop_gap ks L ends min_gap last j prev v :
  (last :: sanitize_loop ks L ends min_gap last) !! j = Some prev ->
  sanitize_loop ks L ends min_gap last !! j = Some v ->
  prev + min_gap <= v.
Proof.
  revert last j. induction ks as [|k ks IH]; intros last j Hp Hv;
    [done|].
  simpl in Hp, Hv. destruct j as [|j]; simpl in Hp, Hv.
  - inversion Hp; inversion Hv; subst. apply pymax_lb_l.
  - by eapply IH.
Qed.

(** The upper end holds as long as the boundaries still to come fit under
    48. *)
Lemma sanitize_loop_room L ends min_gap n :
  forall k last j v,
  (k + n = L - 1)%nat -> (1 <= L)%nat ->
  last + Qnat n * min_gap <= 48 ->
  sanitize_loop (seq k n) L ends min_gap last !! j = Some v ->
  v <= 48 - (Qnat L - 2 - Qnat (k + j)) * min_gap.
Proof.
  induction n as [|n IH]; intros k last j v Hk HL Hroom Hv; [done|].
  simpl in Hv.
  pose proof (remaining_count L k n Hk) as Hrem.
  set (raw := if (k <? length ends)%nat then getq ends k
              else last + min_gap) in *.
  set (rem := inject_Z (Z.of_nat L - 1 - (Z.of_nat k + 1))) in *.
  set (val := pymax (last + min_gap) (pymin (48 - rem * min_gap) raw)) in *.
  pose proof (Qnat_S n) as HSn.
  assert (last + min_gap <= 48 - rem * min_gap) as Hwin.
  { rewrite Hrem. rewrite HSn in Hroom. lra. }
  pose proof (clamp_range _ _ raw Hwin) as Hval. fold val in Hval.
  assert (Qnat L == Qnat k + Qnat n + 2) as HQL.
  { replace L with (k + S (S n))%nat by lia.
    rewrite Qnat_add, !Qnat_S. lra. }
  destruct j as [|j]; simpl in Hv.
  - inversion Hv; subst v. rewrite Nat.add_0_r.
    rewrite Hrem in Hval.
    assert (Qnat L - 2 - Qnat k == Qnat n) as -> by lra. lra.
  - replace (k + S j)%nat with (S k + j)%nat by lia.
    apply (IH (S k) val); [lia | done | | done].
    rewrite Hrem in Hval. lra.
Qed.

(** C3 (as the code has it).  For an archetype of [L >= 2] stints, every
    candidate list [ends] and every [min_gap > 0], the sanitized sequence
    built by [apply_boundaries] has [L - 1] values and each value is at
    least [min_gap] above the previous one (the first at least [min_gap]),
    so the sequence is strictly increasing in exact arithmetic.  When
    [min_gap] leaves room for the [L - 1] boundaries,
    [(L - 1) * min_gap <= 48], value [k] also stays below its upper end:
    it lies in [[previous + min_gap, 48 - (L - 2 - k) * min_gap]]. *)
Theorem sanitize_in_window (p : Player) (arch : Archetype) (ends : list Q)
  (min_gap : Q) :
  resolve p = Some arch ->
  (2 <= length (stint_pattern arch))%nat ->
  0 < min_gap ->
  length (sanitize (length (stint_pattern arch)) ends min_gap)
    = (length (stint_pattern arch) - 1)%nat
  /\ spaced min_gap (sanitize (length (stint_pattern arch)) ends min_gap)
  /\ ((Qnat (length (stint_pattern arch)) - 1) * min_gap <= 48 ->
      in_window (length (stint_pattern arch)) min_gap
        (sanitize (length (stint_pattern arch)) ends min_gap)).
Proof.
  intros _ HL Hgap. set (L := length (stint_pattern arch)) in *.
  assert (spaced min_gap (sanitize L ends min_gap)) as Hspaced.
  { intros k prev v Hp Hv. unfold sanitize in Hp, Hv.
    pose proof (sanitize_loop_gap _ _ _ _ _ _ _ _ Hp Hv) as Hlow.
    split; [lra | done]. }
  split; [|split].
  - unfold sanitize. by rewrite sanitize_loop_length, length_seq.
  - exact Hspaced.
  - intros Hroom k prev v Hp Hv.
    destruct (Hspaced k prev v Hp Hv) as [Hlt Hlow].
    split; [done|]. split; [done|].
    assert (Qnat L == Qnat (L - 1) + 1) as HQL.
    { replace L with (S (L - 1)) at 1 by lia. apply Qnat_S. }
    unfold sanitize in Hv.
    apply (sanitize_loop_room L (take (L - 1) ends) min_gap (L - 1) 0%nat 0
             k v); [lia | lia | | done].
    rewrite HQL in Hroom. lra.
Qed.

Lemma sanitize_in_window_witness :
  resolve bench12 = Some bench_archetype
  /\ (2 <= length (stint_pattern bench_archetype))%nat
  /\ 0 < 0.001
  /\ (Qnat (length (stint_pattern bench_archetype)) - 1) * 0.001 <= 48
  /\ length (sanitize (length (stint_pattern bench_archetype)) [50; 3] 0.001)
     = (length (stint_pattern bench_archetype) - 1)%nat
  /\ spaced 0.001
       (sanitize (length (stint_pattern bench_archetype)) [50; 3] 0.001)
  /\ in_window (length (stint_pattern bench_archetype)) 0.001
       (sanitize (length (stint_pattern bench_archetype)) [50; 3] 0.001).
Proof.
  assert (0 < 0.001) as Hgap by reflexivity.
  assert ((Qnat (length (stint_pattern bench_archetype)) - 1) * 0.001 <= 48)
    as Hroom by (vm_compute; discriminate).
  assert (2 <= length (stint_pattern bench_archetype))%nat as HL
    by (simpl; lia).
  split; [reflexivity|]. split; [exact HL|]. split; [exact Hgap|].
  split; [exact Hroom|].
  destruct (sanitize_in_window bench12 bench_archetype [50; 3] 0.001
              eq_refl HL Hgap) as (Hlen & Hspaced & Hwin).
  split; [exact Hlen|]. split; [exact Hspaced|]. exact (Hwin Hroom).
Defined.

(** C3 as stated fails in two ways.  For a large [min_gap] the upper end
    of the window gives way: with three stints and [min_gap = 30] the
    candidates [5, 6] are sanitized to [30, 60]; the first value is above
    its upper end [48 - 30 = 18] and the second is above 48.  And in
    binary64 a [min_gap] too small to change a boundary when added is
    absorbed: with [min_gap = 2^-70] the candidates [20, 20] come back as
    [20, 20], which is not strictly increasing. *)
Lemma sanitize_window_fails :
  resolve bench12 = Some bench_archetype
  /\ (2 <= length (stint_pattern bench_archetype))%nat
  /\ (0 < 30
      /\ sanitize (length (stint_pattern bench_archetype)) [5; 6] 30
         = [30; 60]
      /\ ~ in_window (length (stint_pattern bench_archetype)) 30
             (sanitize (length (stint_pattern bench_archetype)) [5; 6] 30))
  /\ (PrimFloat.ltb 0%float 0x1p-70%float = true
      /\ sanitize_b64 (length (stint_pattern bench_archetype))
           [20%float; 20%float] 0x1p-70%float
         = [20%float; 20%float]
      /\ PrimFloat.ltb 20%float 20%float = false).
Proof.
  split; [reflexivity|]. split; [simpl; lia|]. split; [|split; [|split]].
  - split; [reflexivity|]. split; [reflexivity|].
    intros H. destruct (H 0%nat 0 30 eq_refl eq_refl) as (_ & _ & Hup).
    vm_compute in Hup. by apply Hup.
  - vm_compute. reflexivity.
  - vm_compute. reflexivity.
  - vm_compute. reflexivity.
Qed.

(** ** The sort order of the events *)

Lemma ev_le_iff (a b : Event) :
  ev_le a b <-> a.1 < b.1 \/ (a.1 == b.1 /\ (a.2 <= b.2)%Z).
Proof.
  unfold ev_le, event_ltb.
  destruct (Qeq_bool b.1 a.1) eqn:E.
  - apply Qeq_bool_iff in E. rewrite Z.ltb_ge. split.
    + intros H. right. split; [lra | done].
    + intros [H | [_ H]]; [lra | done].
  - apply Qeq_bool_false in E. rewrite Qltb_false. split.
    + intros H. left. destruct (Qlt_le_dec a.1 b.1) as [Hlt|Hle]; [done|].
      exfalso. apply E. lra.
    + intros [H | [H _]]; [lra|]. exfalso. apply E. lra.
Qed.

Lemma event_ltb_true (a b : Event) :
  event_ltb a b = true <-> a.1 < b.1 \/ (a.1 == b.1 /\ (a.2 < b.2)%Z).
Proof.
  unfold event_ltb. destruct (Qeq_bool a.1 b.1) eqn:E.
  - apply Qeq_bool_iff in E. rewrite Z.ltb_lt. split.
    + intros H. by right.
    + intros [H | [_ H]]; [lra | done].
  - apply Qeq_bool_false in E. rewrite Qltb_true. split.
    + intros H. by left.
    + intros [H | [H _]]; [done | contradiction].
Qed.

Lemma event_ltb_ev_le (a b : Event) : event_ltb a b = true -> ev_le a b.
Proof.
  rewrite event_ltb_true, ev_le_iff. intros [H | [H1 H2]]; [by left|].
  right. split; [done | lia].
Qed.

#[local] Instance ev_le_trans : Transitive ev_le.
Proof.
  intros a b c. rewrite !ev_le_iff.
  intros [H1 | [H1 H1']] [H2 | [H2 H2']].
  - left. lra.
  - left. lra.
  - left. lra.
  - right. split; [lra | lia].
Qed.

Lemma ev_le_time (a b : Event) : ev_le a b -> a.1 <= b.1.
Proof. rewrite ev_le_iff. intros [H | [H _]]; lra. Qed.

Lemma insert_event_sorted (x : Event) (l : list Event) :
  Sorted ev_le l -> Sorted ev_le (insert_event x l).
Proof.
  induction l as [|y l IH]; intros Hs; simpl.
  - repeat constructor.
  - destruct (event_ltb y x) eqn:E.
    + apply Sorted_inv in Hs as [Hs Hhd]. constructor; [by apply IH|].
      destruct l as [|z l]; simpl.
      * constructor. by apply event_ltb_ev_le.
      * destruct (event_ltb z x); constructor.
        -- by inversion Hhd.
        -- by apply event_ltb_ev_le.
    + constructor; [done|]. constructor. exact E.
Qed.

Lemma sort_events_sorted (l : list Event) :
  StronglySorted ev_le (sort_events l).
Proof.
  apply Sorted_StronglySorted; [apply _|].
  induction l as [|x l IH]; simpl; [constructor|].
  by apply insert_event_sorted.
Qed.

Lemma insert_event_perm (x : Event) (l : list Event) :
  insert_event x l ≡ₚ x :: l.
Proof.
  induction l as [|y l IH]; simpl; [done|].
  destruct (event_ltb y x); [|done].
  rewrite IH. apply Permutation_swap.
Qed.

Lemma sort_events_perm (l : list Event) : sort_events l ≡ₚ l.
Proof.
  induction l as [|x l IH]; simpl; [done|].
  by rewrite insert_event_perm, IH.
Qed.

(** ** The walk over the sorted events *)

Lemma walk_step_started (w : Walk) (t : Q) (d : Z) :
  xs w <> [] ->
  walk_step w (t, d) =
    let pts := (if Qeq_bool t (last_t w) then [] else [(t, curr w)])
                 ++ [(t, (curr w + d)%Z)] in
    {| xs := xs w ++ map fst pts; ys := ys w ++ map snd pts;
       curr := (curr w + d)%Z;
       last_t := if Qeq_bool t (last_t w) then last_t w else t |}.
Proof.
  intros Hne. unfold walk_step.
  destruct (xs w) as [|x0 xs0] eqn:Hxs; [done|]. simpl nonempty. cbv iota.
  destruct (Qeq_bool t (last_t w)) eqn:E; simpl.
  - by rewrite Hxs.
  - by rewrite Hxs, <- !app_assoc.
Qed.

Lemma fold_walk_started (events : list Event) (w : Walk) :
  xs w <> [] ->
  xs (fold_left walk_step events w)
    = xs w ++ map fst (emitted (curr w) (last_t w) events)
  /\ ys (fold_left walk_step events w)
    = ys w ++ map snd (emitted (curr w) (last_t w) events).
Proof.
  revert w. induction events as [|[t d] rest IH]; intros w Hne.
  - simpl. by rewrite !app_nil_r.
  - cbn [fold_left]. rewrite (walk_step_started w t d Hne). cbv zeta.
    set (w' := {| xs := _ |}).
    assert (xs w' <> []) as Hne'.
    { simpl. destruct (xs w); [done | discriminate]. }
    destruct (IH w' Hne') as [Hx Hy]. rewrite Hx, Hy. simpl.
    rewrite !map_app, <- !app_assoc. simpl.
    by destruct (Qeq_bool t (last_t w)).
Qed.

Lemma walk_first_step (ev : Event) :
  walk_step {| xs := []; ys := []; curr := 0%Z; last_t := 0 |} ev
  = walk_step {| xs := [0]; ys := [0%Z]; curr := 0%Z; last_t := 0 |} ev.
Proof. by destruct ev as [t d]. Qed.

(** The walk emits the point [(0, 0)] and then, event by event, the
    points of [emitted]. *)
Lemma walk_points (ev : Event) (events : list Event) :
  xs (walk (ev :: events)) = 0 :: map fst (emitted 0 0 (ev :: events))
  /\ ys (walk (ev :: events)) = 0%Z :: map snd (emitted 0 0 (ev :: events)).
Proof.
  unfold walk. cbn [fold_left]. rewrite walk_first_step.
  change (fold_left walk_step events (walk_step ?w ev))
    with (fold_left walk_step (ev :: events) w).
  by apply (fold_walk_started (ev :: events)
              {| xs := [0]; ys := [0%Z]; curr := 0%Z; last_t := 0 |}).
Qed.

Lemma fold_walk_curr (events : list Event) (w : Walk) :
  curr (fold_left walk_step events w) = (curr w + sum_deltas events)%Z.
Proof.
  revert w. induction events as [|[t d] rest IH]; intros w; simpl.
  - lia.
  - rewrite IH. unfold walk_step.
    destruct (nonempty (xs w)); simpl;
      destruct (Qeq_bool t _); simpl; lia.
Qed.

(** The running count of the walk is the sum of the deltas processed. *)
Lemma walk_curr (events : list Event) :
  curr (walk events) = sum_deltas events.
Proof. unfold walk. by rewrite fold_walk_curr. Qed.

Lemma sum_deltas_app (l1 l2 : list Event) :
  sum_deltas (l1 ++ l2) = (sum_deltas l1 + sum_deltas l2)%Z.
Proof.
  unfold sum_deltas. induction l1 as [|x l1 IH]; simpl; [done|].
  rewrite IH. lia.
Qed.

(** ** Running counts stay non-negative *)

Lemma nonneg_run_mono (c c' : Z) (l : list Event) :
  (c <= c')%Z -> nonneg_run c l -> nonneg_run c' l.
Proof.
  revert c c'. induction l as [|y l IH]; intros c c' Hc H; [done|].
  destruct H as [H1 H2]. split; [lia|].
  apply (IH (c + y.2)%Z); [lia | done].
Qed.

Lemma nonneg_run_insert_out (c : Z) (e : Q) (l : list Event) :
  (0 <= c)%Z -> nonneg_run c l ->
  nonneg_run (c + 1) (insert_event (e, (-1)%Z) l).
Proof.
  revert c. induction l as [|y l IH]; intros c Hc H.
  - simpl. split; [lia | done].
  - destruct H as [H1 H2]. simpl.
    destruct (event_ltb y (e, (-1)%Z)).
    + split; [lia|].
      replace (c + 1 + y.2)%Z with (c + y.2 + 1)%Z by lia. by apply IH.
    + split; [simpl; lia|]. simpl.
      replace (c + 1 + -1)%Z with c by lia. by split.
Qed.

Lemma out_not_before_in (s e : Q) :
  s < e -> event_ltb (e, (-1)%Z) (s, 1%Z) = false.
Proof.
  intros H. destruct (event_ltb (e, (-1)%Z) (s, 1%Z)) eqn:E; [|done].
  apply event_ltb_true in E. simpl in E. destruct E as [E | [E _]]; lra.
Qed.

(** Inserting the two events of one "on" segment keeps every running count
    non-negative: the [+1] lands before the [-1]. *)
Lemma nonneg_run_insert_pair (c : Z) (s e : Q) (l : list Event) :
  s < e -> (0 <= c)%Z -> nonneg_run c l ->
  nonneg_run c (insert_event (s, 1%Z) (insert_event (e, (-1)%Z) l)).
Proof.
  intros Hse. revert c. induction l as [|y l IH]; intros c Hc H.
  - simpl. rewrite (out_not_before_in s e Hse). simpl.
    repeat split; lia.
  - pose proof (nonneg_run_insert_out c e (y :: l) Hc H) as Hout.
    destruct H as [H1 H2]. simpl in Hout |- *.
    destruct (event_ltb y (e, (-1)%Z)) eqn:Ey.
    + simpl. destruct (event_ltb y (s, 1%Z)).
      * split; [done|]. by apply IH.
      * split; [simpl; lia|]. exact Hout.
    + simpl. rewrite (out_not_before_in s e Hse).
      split; [simpl; lia|]. exact Hout.
Qed.

Lemma paired_app (l1 l2 : list Event) :
  paired l1 -> paired l2 -> paired (l1 ++ l2).
Proof.
  induction 1 as [|s e l Hse Hl IH]; intros H2; simpl; [done|].
  constructor; [done | by apply IH].
Qed.

Lemma segment_events_paired (segs : list Segment) :
  Forall seg_in_game segs -> paired (segment_events segs).
Proof.
  induction 1 as [|[[s e] tag] segs Hx Hrest IH]; simpl; [constructor|].
  destruct (is_on tag); simpl; [|done].
  destruct (Qltb s e) eqn:E; [|done].
  apply Qltb_true in E. unfold seg_in_game, seg_start, seg_end in Hx.
  simpl in Hx. constructor; [|done]. py_arith.
Qed.

Lemma segment_events_times (segs : list Segment) :
  Forall (fun ev : Event => in_game ev.1) (segment_events segs).
Proof.
  induction segs as [|[[s e] tag] segs IH]; simpl; [constructor|].
  destruct (is_on tag && Qltb s e); [|done].
  repeat constructor; simpl; try done; apply clamp_range; lra.
Qed.

Lemma compute_segments_in_game (p : Player) :
  Forall seg_in_game (compute_segments p).
Proof.
  unfold compute_segments.
  destruct (truthy_id (archetype_id p)) as [aid|]; [|constructor].
  destruct (get_config !! aid) as [arch|]; [|constructor].
  apply set_last_end_in_game, segs_loop_in_game. lra.
Qed.

Lemma player_events_paired (ps : list Player) :
  paired (concat (map (fun p => segment_events (compute_segments p)) ps)).
Proof.
  induction ps as [|p ps IH]; simpl; [constructor|].
  apply paired_app; [|done].
  apply segment_events_paired, compute_segments_in_game.
Qed.

Lemma sort_paired_nonneg (l base : list Event) :
  paired l -> nonneg_run 0 (sort_events base) ->
  nonneg_run 0 (sort_events (l ++ base)).
Proof.
  induction 1 as [|s e l Hse Hl IH]; intros Hb; simpl; [done|].
  apply nonneg_run_insert_pair; [done | lia | by apply IH].
Qed.

(** The running count never drops below zero over the sorted events of a
    team. *)
Lemma team_events_nonneg (ps : list Player) :
  nonneg_run 0 (sort_events (collect_events ps)).
Proof.
  unfold collect_events. apply sort_paired_nonneg.
  - apply player_events_paired.
  - change (nonneg_run 0 [(0, 0%Z); (48, 0%Z)]). simpl. lia.
Qed.

Lemma team_events_times (ps : list Player) :
  Forall (fun ev : Event => in_game ev.1) (sort_events (collect_events ps)).
Proof.
  rewrite sort_events_perm. unfold collect_events.
  apply Forall_app. split.
  - induction ps as [|p ps IH]; simpl; [constructor|].
    apply Forall_app. split; [apply segment_events_times | done].
  - repeat constructor; simpl; lra.
Qed.

Lemma team_events_nonempty (ps : list Player) :
  exists ev rest, sort_events (collect_events ps) = ev :: rest.
Proof.
  destruct (sort_events (collect_events ps)) as [|ev rest] eqn:E;
    [|by eauto].
  pose proof (sort_events_perm (collect_events ps)) as Hp.
  rewrite E in Hp. apply Permutation_nil_l in Hp.
  unfold collect_events in Hp. by destruct (concat _).
Qed.

(** ** The emitted points *)

Lemma emitted_time_elem (c : Z) (lt : Q) (events : list Event) (pt : Q * Z) :
  pt ∈ emitted c lt events -> exists ev, ev ∈ events /\ ev.1 = pt.1.
Proof.
  revert c lt. induction events as [|[t d] rest IH]; intros c lt H; simpl in H.
  - by apply elem_of_nil in H.
  - apply elem_of_app in H as [H | H].
    + destruct (Qeq_bool t lt); [by apply elem_of_nil in H|].
      apply list_elem_of_singleton in H as ->.
      exists (t, d). split; [apply list_elem_of_here | done].
    + apply elem_of_cons in H as [-> | H].
      * exists (t, d). split; [apply list_elem_of_here | done].
      * destruct (IH _ _ H) as (ev & Hev & Heq).
        exists ev. split; [by apply list_elem_of_further | done].
Qed.

Lemma emitted_counts_nonneg (c : Z) (lt : Q) (events : list Event) :
  (0 <= c)%Z -> nonneg_run c events ->
  Forall (fun y => (0 <= y)%Z) (map snd (emitted c lt events)).
Proof.
  revert c lt. induction events as [|[t d] rest IH]; intros c lt Hc H;
    simpl; [constructor|].
  destruct H as [H1 H2]. simpl in H1, H2.
  rewrite map_app. apply Forall_app. split.
  - destruct (Qeq_bool t lt); repeat constructor. done.
  - simpl. constructor; [done | by apply IH].
Qed.

Lemma emitted_times_sorted (c : Z) (lt : Q) (events : list Event) :
  StronglySorted ev_le events ->
  StronglySorted Qle (map fst (emitted c lt events)).
Proof.
  revert c lt. induction events as [|[t d] rest IH]; intros c lt Hs;
    simpl; [constructor|].
  apply StronglySorted_inv in Hs as [Hs Hall].
  assert (Forall (Qle t) (map fst (emitted (c + d) (if Qeq_bool t lt then lt else t) rest)))
    as Hrest.
  { apply Forall_forall. intros x Hx.
    apply list_elem_of_fmap in Hx as (pt & -> & Hpt).
    apply emitted_time_elem in Hpt as (ev & Hev & <-).
    rewrite Forall_forall in Hall.
    apply (ev_le_time (t, d) ev). by apply Hall. }
  specialize (IH (c + d)%Z (if Qeq_bool t lt then lt else t) Hs).
  assert (StronglySorted Qle
            (t :: map fst (emitted (c + d)
                             (if Qeq_bool t lt then lt else t) rest)))
    as Htail by (by constructor).
  destruct (Qeq_bool t lt); simpl; [done|].
  constructor; [done|]. constructor; [lra | done].
Qed.

Lemma emitted_times_in_game (c : Z) (lt : Q) (events : list Event) :
  Forall (fun ev : Event => in_game ev.1) events ->
  Forall in_game (map fst (emitted c lt events)).
Proof.
  intros Hall. apply Forall_forall. intros x Hx.
  apply list_elem_of_fmap in Hx as (pt & -> & Hpt).
  apply emitted_time_elem in Hpt as (ev & Hev & <-).
  rewrite Forall_forall in Hall. by apply Hall.
Qed.

(** ** Deduplication and the final point *)

Lemma dedup_loop_kept (xs0 : list Q) :
  forall (ys0 : list Z) out_x out_y,
  exists kx ky,
    dedup_loop xs0 ys0 out_x out_y = (out_x ++ kx, out_y ++ ky)
    /\ kx `sublist_of` xs0 /\ ky `sublist_of` ys0.
Proof.
  induction xs0 as [|x xs0 IH]; intros ys0 out_x out_y.
  - exists [], []. simpl. rewrite !app_nil_r.
    split_and!; [done | done | apply sublist_nil_l].
  - destruct ys0 as [|y ys0].
    + exists [], []. simpl. rewrite !app_nil_r.
      split_and!; [done | apply sublist_nil_l | done].
    + cbn [dedup_loop].
      destruct (negb _).
      * destruct (IH ys0 (out_x ++ [x]) (out_y ++ [y]))
          as (kx & ky & -> & Hx & Hy).
        exists (x :: kx), (y :: ky). rewrite <- !app_assoc.
        split_and!; [done | by apply sublist_skip..].
      * destruct (IH ys0 out_x out_y) as (kx & ky & -> & Hx & Hy).
        exists kx, ky. split_and!; [done | by apply sublist_cons..].
Qed.

Lemma sublist_strongly_sorted {A} (R : relation A) (l1 l2 : list A) :
  l1 `sublist_of` l2 -> StronglySorted R l2 -> StronglySorted R l1.
Proof.
  induction 1 as [|x l1 l2 Hsub IH|x l1 l2 Hsub IH]; intros Hs.
  - constructor.
  - apply StronglySorted_inv in Hs as [Hs Hall].
    constructor; [by apply IH|].
    apply Forall_forall. intros y Hy. rewrite Forall_forall in Hall.
    apply Hall. by apply (sublist_subseteq _ _ Hsub).
  - apply StronglySorted_inv in Hs as [Hs _]. by apply IH.
Qed.

Lemma sublist_all {A} (P : A -> Prop) (l1 l2 : list A) :
  l1 `sublist_of` l2 -> Forall P l2 -> Forall P l1.
Proof.
  intros Hsub Hall. apply Forall_forall. intros y Hy.
  rewrite Forall_forall in Hall. apply Hall.
  by apply (sublist_subseteq _ _ Hsub).
Qed.

Lemma strongly_sorted_nondecreasing (l : list Q) :
  StronglySorted Qle l -> nondecreasing l.
Proof.
  induction 1 as [|x l Hs IH Hall]; intros i a b Ha Hb; [done|].
  destruct i as [|i]; simpl in Ha, Hb.
  - inversion Ha; subst. rewrite Forall_forall in Hall.
    apply Hall. by apply list_elem_of_lookup_2 in Hb.
  - by apply (IH i).
Qed.

#[local] Instance Qle_transitive : Transitive Qle.
Proof. intros a b c. apply Qle_trans. Qed.

(** What [team_oncourt_steps] hands to its last step: the point [(0, 0)]
    followed by a selection of the emitted points, sorted in time, inside
    the game and with non-negative counts. *)
Lemma team_steps_before_final (team : Team) :
  exists kx ky,
    team_oncourt_steps team = ensure_final (0 :: kx, 0%Z :: ky)
    /\ StronglySorted Qle kx
    /\ Forall in_game kx
    /\ Forall (fun y => (0 <= y)%Z) ky.
Proof.
  unfold team_oncourt_steps.
  destruct (team_events_nonempty (players team)) as (ev & rest & Hev).
  pose proof (sort_events_sorted (collect_events (players team))) as Hs.
  pose proof (team_events_times (players team)) as Ht.
  pose proof (team_events_nonneg (players team)) as Hn.
  rewrite Hev in Hs, Ht, Hn |- *.
  destruct (walk_points ev rest) as [-> ->].
  cbn [dedup].
  destruct (dedup_loop_kept (map fst (emitted 0 0 (ev :: rest)))
              (map snd (emitted 0 0 (ev :: rest))) [0] [0%Z])
    as (kx & ky & -> & Hx & Hy).
  exists kx, ky. split_and!; [done | | |].
  - eapply sublist_strongly_sorted; [done|].
    by apply emitted_times_sorted.
  - eapply sublist_all; [done|]. by apply emitted_times_in_game.
  - eapply sublist_all; [done|]. by apply emitted_counts_nonneg.
Qed.

Lemma last_default_elem (l : list Z) (P : Z -> Prop) :
  P 0%Z -> Forall P l -> P (default 0%Z (last l)).
Proof.
  intros H0 Hall. destruct (last l) as [y|] eqn:E; [|done]. simpl.
  rewrite Forall_forall in Hall. apply Hall.
  rewrite last_lookup in E. by apply list_elem_of_lookup_2 in E.
Qed.

(** C5.  For every team, empty or not, [team_oncourt_steps] returns counts
    that are all non-negative and times that are non-decreasing, all within
    [0, 48], starting with 0 and ending with 48 (the last time is
    numerically equal to 48). *)
Theorem team_oncourt_steps_shape (team : Team) :
  Forall (fun c => (0 <= c)%Z) (team_oncourt_steps team).2
  /\ nondecreasing (team_oncourt_steps team).1
  /\ Forall in_game (team_oncourt_steps team).1
  /\ head (team_oncourt_steps team).1 = Some 0
  /\ exists t, last (team_oncourt_steps team).1 = Some t /\ t == 48.
Proof.
  destruct (team_steps_before_final team) as (kx & ky & -> & Hs & Hg & Hc).
  assert (Forall (fun y => (0 <= y)%Z) (0%Z :: ky)) as Hc0
    by (by constructor).
  assert (Forall in_game (0 :: kx)) as Hg0
    by (constructor; [unfold in_game; lra | done]).
  assert (StronglySorted Qle (0 :: kx)) as Hs0.
  { constructor; [done|]. eapply Forall_impl; [exact Hg|].
    intros x Hx. apply Hx. }
  unfold ensure_final.
  destruct (Qeq_bool (default 0 (last (0 :: kx))) 48) eqn:E; cbn [negb fst snd].
  - apply Qeq_bool_iff in E. split_and!; try done.
    + by apply strongly_sorted_nondecreasing.
    + destruct (last (0 :: kx)) as [t|] eqn:El.
      * exists t. by split.
      * simpl in E. exfalso. revert E. apply Qlt_not_eq. reflexivity.
  - split_and!.
    + apply Forall_app. split; [done|]. constructor; [|constructor].
      apply (last_default_elem (0%Z :: ky) (fun y => (0 <= y)%Z));
        [lia | done].
    + apply (strongly_sorted_nondecreasing ((0 :: kx) ++ [48])).
      apply StronglySorted_app_2; [| exact Hs0 | repeat constructor].
      intros x1 x2 H1 H2. apply list_elem_of_singleton in H2 as ->.
      rewrite Forall_forall in Hg0. by apply Hg0.
    + apply (Forall_app in_game (0 :: kx) [48]). split; [done|].
      constructor; [unfold in_game; lra | constructor].
    + done.
    + exists 48. split; [|reflexivity].
      apply last_snoc.
Qed.

(** ** Events that share a time *)

Lemma strongly_sorted_lookup {A} (R : relation A) (l : list A) i j a b :
  StronglySorted R l -> l !! i = Some a -> l !! j = Some b ->
  (i < j)%nat -> R a b.
Proof.
  intros Hs. revert i j. induction Hs as [|x l Hs IH Hall]; intros i j Ha Hb Hij;
    [done|].
  destruct j as [|j]; [lia|]. simpl in Hb.
  destruct i as [|i]; simpl in Ha.
  - inversion Ha; subst. rewrite Forall_forall in Hall.
    apply Hall. by apply list_elem_of_lookup_2 in Hb.
  - apply (IH i j); [done | done | lia].
Qed.

Lemma sum_deltas_nonpos (l : list Event) :
  Forall (fun ev : Event => (ev.2 <= 0)%Z) l -> (sum_deltas l <= 0)%Z.
Proof.
  unfold sum_deltas. induction 1 as [|x l Hx Hl IH]; simpl; lia.
Qed.

Lemma sum_deltas_nonneg (l : list Event) :
  Forall (fun ev : Event => (0 <= ev.2)%Z) l -> (0 <= sum_deltas l)%Z.
Proof.
  unfold sum_deltas. induction 1 as [|x l Hx Hl IH]; simpl; lia.
Qed.

(** Within a run of events at one time the deltas are sorted, so a partial
    sum never exceeds both the empty sum and the full sum. *)
Lemma same_time_partial_sum (g1 g2 : list Event) (t : Q) :
  StronglySorted ev_le (g1 ++ g2) ->
  Forall (fun ev : Event => ev.1 == t) (g1 ++ g2) ->
  (sum_deltas g1 <= Z.max 0 (sum_deltas g1 + sum_deltas g2))%Z.
Proof.
  intros Hs Ht.
  destruct (decide (Forall (fun ev : Event => (ev.2 <= 0)%Z) g1))
    as [Hneg | Hpos].
  - apply sum_deltas_nonpos in Hneg. lia.
  - apply not_Forall_Exists in Hpos; [|apply _].
    apply Exists_exists in Hpos as (a & Ha & Hpos). simpl in Hpos.
    assert (0 <= sum_deltas g2)%Z.
    { apply sum_deltas_nonneg, Forall_forall. intros b Hb.
      pose proof (StronglySorted_app_1_elem_of _ _ _ _ _ Hs Ha Hb) as Hab.
      rewrite Forall_forall in Ht.
      assert (a.1 == t) as Hat by (apply Ht, elem_of_app; by left).
      assert (b.1 == t) as Hbt by (apply Ht, elem_of_app; by right).
      apply ev_le_iff in Hab as [Hab | [_ Hab]]; [lra | lia]. }
    lia.
Qed.

(** C8.  In the sorted events of a team, an event with delta [-1] comes
    before every event with delta [+1] at the same time; and within a run
    [g1 ++ g2] of events at one time [t], the running count after [g1]
    never exceeds both the count before the run and the count after it. *)
Theorem tie_break_no_spike (team : Team) (pre g1 g2 post : list Event)
  (t : Q) :
  sort_events (collect_events (players team)) = pre ++ (g1 ++ g2) ++ post ->
  Forall (fun ev : Event => ev.1 == t) (g1 ++ g2) ->
  (forall i j a b,
     sort_events (collect_events (players team)) !! i = Some a ->
     sort_events (collect_events (players team)) !! j = Some b ->
     a.1 == b.1 -> a.2 = (-1)%Z -> b.2 = 1%Z -> (i < j)%nat)
  /\ (curr (walk (pre ++ g1))
      <= Z.max (curr (walk pre)) (curr (walk (pre ++ g1 ++ g2))))%Z.
Proof.
  intros Hsplit Ht.
  pose proof (sort_events_sorted (collect_events (players team))) as Hs.
  split.
  - intros i j a b Ha Hb Htime Hda Hdb.
    destruct (Nat.lt_trichotomy i j) as [Hlt | [Heq | Hgt]]; [done | |].
    + subst j. rewrite Ha in Hb. inversion Hb; subst. lia.
    + pose proof (strongly_sorted_lookup _ _ _ _ _ _ Hs Hb Ha Hgt) as Hba.
      apply ev_le_iff in Hba as [Hba | [_ Hba]]; [lra | lia].
  - rewrite Hsplit in Hs.
    apply StronglySorted_app_1_r, StronglySorted_app_1_l in Hs.
    pose proof (same_time_partial_sum g1 g2 t Hs Ht).
    rewrite !walk_curr, !sum_deltas_app. lia.
Qed.

Lemma tie_break_no_spike_witness :
  sort_events (collect_events (players relay_team))
    = [(0, 0%Z); (0, 1%Z)] ++ ([(20, (-1)%Z)] ++ [(20, 1%Z)])
        ++ [(48, (-1)%Z); (48, 0%Z)]
  /\ Forall (fun ev : Event => ev.1 == 20) ([(20, (-1)%Z)] ++ [(20, 1%Z)])
  /\ (forall i j a b,
        sort_events (collect_events (players relay_team)) !! i = Some a ->
        sort_events (collect_events (players relay_team)) !! j = Some b ->
        a.1 == b.1 -> a.2 = (-1)%Z -> b.2 = 1%Z -> (i < j)%nat)
  /\ Z.le (curr (walk ([(0, 0%Z); (0, 1%Z)] ++ [(20, (-1)%Z)])))
       (Z.max (curr (walk [(0, 0%Z); (0, 1%Z)]))
          (curr (walk ([(0, 0%Z); (0, 1%Z)]
                         ++ [(20, (-1)%Z)] ++ [(20, 1%Z)])))).
Proof.
  assert (Forall (fun ev : Event => ev.1 == 20)
            ([(20, (-1)%Z)] ++ [(20, 1%Z)])) as Ht
    by (repeat constructor).
  split; [reflexivity|]. split; [exact Ht|].
  exact (tie_break_no_spike relay_team [(0, 0%Z); (0, 1%Z)]
           [(20, (-1)%Z)] [(20, 1%Z)] [(48, (-1)%Z); (48, 0%Z)] 20
           eq_refl Ht).
Defined.

(** ** One point per event *)




Lemma walk_step_last_y (w : Walk) (ev : Event) :
  last (ys (walk_step w ev)) = Some (curr (walk_step w ev)).
Proof.
  destruct ev as [t d]. unfold walk_step. cbv zeta. simpl.
  apply last_snoc.
Qed.

Lemma walk_last_y (events : list Event) :
  events <> [] -> last (ys (walk events)) = Some (curr (walk events)).
Proof.
  intros Hne. destruct (exists_last Hne) as (l & ev & ->).
  unfold walk. rewrite fold_left_app. simpl. apply walk_step_last_y.
Qed.

Lemma dedup_loop_lengths (xs0 : list Q) :
  forall (ys0 : list Z) out_x out_y,
  length out_x = length out_y ->
  length (dedup_loop xs0 ys0 out_x out_y).1
  = length (dedup_loop xs0 ys0 out_x out_y).2.
Proof.
  induction xs0 as [|x xs0 IH]; intros ys0 out_x out_y Hlen; [done|].
  destruct ys0 as [|y ys0]; [done|]. cbn [dedup_loop].
  destruct (negb _); apply IH; [|done].
  rewrite !length_app. simpl. lia.
Qed.

(** Deduplication never changes the last count: a point is dropped only
    when its count repeats the last kept one. *)
Lemma dedup_loop_last_y (xs0 : list Q) :
  forall (ys0 : list Z) out_x out_y y0,
  length xs0 = length ys0 ->
  last out_y = Some y0 ->
  last (dedup_loop xs0 ys0 out_x out_y).2 = last (y0 :: ys0).
Proof.
  induction xs0 as [|x xs0 IH]; intros ys0 out_x out_y y0 Hlen Hlast.
  - destruct ys0; [done | simpl in Hlen; lia].
  - destruct ys0 as [|y ys0]; [simpl in Hlen; lia|]. cbn [dedup_loop].
    destruct (negb _) eqn:E.
    + rewrite (IH ys0 (out_x ++ [x]) (out_y ++ [y]) y);
        [| simpl in Hlen; lia | apply last_snoc].
      rewrite !last_cons. by destruct (last ys0).
    + apply negb_false_iff, andb_true_iff in E as [_ E].
      rewrite Hlast in E. simpl in E. apply Z.eqb_eq in E. subst y.
      rewrite (IH ys0 out_x out_y y0); [| simpl in Hlen; lia | done].
      rewrite !last_cons. by destruct (last ys0).
Qed.

(** *** The points of one event time in the output *)
























(** ** Sums over index lists *)

Lemma fold_plus_acc (l : list Q) (a : Q) :
  fold_left Qplus l a == a + fold_left Qplus l 0.
Proof.
  revert a. induction l as [|x l IH]; intros a; simpl; [lra|].
  rewrite (IH (a + x)), (IH (0 + x)). lra.
Qed.

Lemma pysum_cons (x : Q) (l : list Q) : pysum (x :: l) == x + pysum l.
Proof. unfold pysum. simpl. rewrite fold_plus_acc. lra. Qed.

Lemma pysum_nonneg (f : nat -> Q) (idx : list nat) :
  Forall (fun k => 0 <= f k) idx -> 0 <= pysum (map f idx).
Proof.
  induction 1 as [|k idx Hk Hall IH]; simpl; [by compute|].
  rewrite pysum_cons. lra.
Qed.

Lemma pysum_member (f : nat -> Q) (idx : list nat) (j : nat) :
  Forall (fun k => 0 <= f k) idx -> j ∈ idx -> f j <= pysum (map f idx).
Proof.
  induction 1 as [|k idx Hk Hall IH]; intros Hj; simpl.
  - by apply elem_of_nil in Hj.
  - rewrite pysum_cons. pose proof (pysum_nonneg f idx Hall).
    apply elem_of_cons in Hj as [-> | Hj]; [lra|].
    specialize (IH Hj). lra.
Qed.

Lemma split_loop_sum (f : nat -> Q) (pattern : list string) (i : nat) :
  pysum (map f (split_loop i pattern).1)
    + pysum (map f (split_loop i pattern).2)
  == sum_range f i (length pattern).
Proof.
  revert i. induction pattern as [|tag rest IH]; intros i; simpl.
  - reflexivity.
  - specialize (IH (S i)). destruct (split_loop (S i) rest) as [on off].
    simpl in IH. destruct (is_on tag); simpl; rewrite pysum_cons; lra.
Qed.

Lemma sum_range_telescope (f g : nat -> Q) (n : nat) :
  forall i,
  (forall j, (i <= j < i + n)%nat -> f j == g (S j) - g j) ->
  sum_range f i n == g (i + n)%nat - g i.
Proof.
  induction n as [|n IH]; intros i H; simpl.
  - rewrite Nat.add_0_r. lra.
  - rewrite (H i) by lia. rewrite (IH (S i)).
    + replace (S i + n)%nat with (i + S n)%nat by lia. lra.
    + intros j Hj. apply H. lia.
Qed.

(** ** The index lists of an archetype *)

Lemma split_loop_on (pattern : list string) (i j : nat) :
  j ∈ (split_loop i pattern).1 <->
  (i <= j)%nat /\ exists tag, pattern !! (j - i)%nat = Some tag
                              /\ is_on tag = true.
Proof.
  revert i. induction pattern as [|tag rest IH]; intros i; simpl.
  - split; [intros H; by apply elem_of_nil in H | intros (_ & t & H & _); done].
  - specialize (IH (S i)). destruct (split_loop (S i) rest) as [on off].
    simpl in IH.
    assert (j ∈ on <-> (S i <= j)%nat /\
             exists t, (tag :: rest) !! (j - i)%nat = Some t
                       /\ is_on t = true) as IH'.
    { rewrite IH. split; intros (Hle & t & Ht & Hon); (split; [done|]);
        exists t; (split; [|done]).
      - replace (j - i)%nat with (S (j - S i)) by lia. done.
      - replace (j - i)%nat with (S (j - S i)) in Ht by lia. done. }
    destruct (is_on tag) eqn:Etag; simpl.
    + rewrite elem_of_cons, IH'. split.
      * intros [-> | (Hle & t & Ht & Hon)].
        -- split; [lia|]. exists tag. by rewrite Nat.sub_diag.
        -- split; [lia|]. by exists t.
      * intros (Hle & t & Ht & Hon).
        destruct (decide (j = i)) as [->|Hne]; [by left|].
        right. split; [lia|]. by exists t.
    + rewrite IH'. split.
      * intros (Hle & t & Ht & Hon). split; [lia|]. by exists t.
      * intros (Hle & t & Ht & Hon). split; [|by exists t].
        destruct (decide (j = i)) as [->|Hne]; [|lia].
        rewrite Nat.sub_diag in Ht. simpl in Ht. congruence.
Qed.

Lemma split_loop_off (pattern : list string) (i j : nat) :
  j ∈ (split_loop i pattern).2 <->
  (i <= j)%nat /\ exists tag, pattern !! (j - i)%nat = Some tag
                              /\ is_on tag = false.
Proof.
  revert i. induction pattern as [|tag rest IH]; intros i; simpl.
  - split; [intros H; by apply elem_of_nil in H | intros (_ & t & H & _); done].
  - specialize (IH (S i)). destruct (split_loop (S i) rest) as [on off].
    simpl in IH.
    assert (j ∈ off <-> (S i <= j)%nat /\
             exists t, (tag :: rest) !! (j - i)%nat = Some t
                       /\ is_on t = false) as IH'.
    { rewrite IH. split; intros (Hle & t & Ht & Hon); (split; [done|]);
        exists t; (split; [|done]).
      - replace (j - i)%nat with (S (j - S i)) by lia. done.
      - replace (j - i)%nat with (S (j - S i)) in Ht by lia. done. }
    destruct (is_on tag) eqn:Etag; simpl.
    + rewrite IH'. split.
      * intros (Hle & t & Ht & Hon). split; [lia|]. by exists t.
      * intros (Hle & t & Ht & Hon). split; [|by exists t].
        destruct (decide (j = i)) as [->|Hne]; [|lia].
        rewrite Nat.sub_diag in Ht. simpl in Ht. congruence.
    + rewrite elem_of_cons, IH'. split.
      * intros [-> | (Hle & t & Ht & Hon)].
        -- split; [lia|]. exists tag. by rewrite Nat.sub_diag.
        -- split; [lia|]. by exists t.
      * intros (Hle & t & Ht & Hon).
        destruct (decide (j = i)) as [->|Hne]; [by left|].
        right. split; [lia|]. by exists t.
Qed.

(** ** Writing into the weight list *)

Lemma fill_shares_length idx durations total raw :
  length (fill_shares idx durations total raw) = length raw.
Proof.
  unfold fill_shares. revert raw.
  induction idx as [|i idx IH]; intros raw; simpl; [done|].
  by rewrite IH, length_insert.
Qed.

Lemma fill_shares_out idx durations total raw j :
  j ∉ idx ->
  getq (fill_shares idx durations total raw) j = getq raw j.
Proof.
  unfold fill_shares, getq. revert raw.
  induction idx as [|i idx IH]; intros raw Hj; simpl; [done|].
  apply not_elem_of_cons in Hj as [Hne Hj].
  rewrite IH by done. by rewrite list_lookup_insert_ne.
Qed.

Lemma fill_shares_in idx durations total raw j :
  j ∈ idx -> (j < length raw)%nat ->
  getq (fill_shares idx durations total raw) j
  = if Qltb 0 total then getq durations j / total else 0.
Proof.
  unfold fill_shares. revert raw.
  induction idx as [|i idx IH]; intros raw Hj Hlen; simpl.
  - by apply elem_of_nil in Hj.
  - destruct (decide (j ∈ idx)) as [Hin | Hout].
    + apply IH; [done | by rewrite length_insert].
    + apply elem_of_cons in Hj as [-> | Hj]; [|done].
      change (getq (fill_shares idx durations total
                      (<[i := if Qltb 0 total
                               then getq durations i / total else 0]> raw)) i
              = if Qltb 0 total then getq durations i / total else 0).
      rewrite fill_shares_out by done.
      unfold getq. by rewrite list_lookup_insert_eq.
Qed.

Lemma fill_length idx eq raw : length (fill idx eq raw) = length raw.
Proof.
  unfold fill. revert raw.
  induction idx as [|i idx IH]; intros raw; simpl; [done|].
  by rewrite IH, length_insert.
Qed.

Lemma fill_out idx eq raw j : j ∉ idx -> getq (fill idx eq raw) j = getq raw j.
Proof.
  unfold fill, getq. revert raw.
  induction idx as [|i idx IH]; intros raw Hj; simpl; [done|].
  apply not_elem_of_cons in Hj as [Hne Hj].
  rewrite IH by done. by rewrite list_lookup_insert_ne.
Qed.

(** ** Running the segment loop again on equal durations *)

Lemma getq_cons_0 x l : getq (x :: l) 0 = x.
Proof. done. Qed.

Lemma getq_cons_S x l j : getq (x :: l) (S j) = getq l j.
Proof. done. Qed.

Lemma getq_lookup (l : list Q) j x : l !! j = Some x -> getq l j = x.
Proof. unfold getq. by intros ->. Qed.

(** If the durations of a second run agree with the widths of the
    segments of a first run in every stint but the last, both runs produce
    the same segments. *)
Lemma segs_loop_rerun (durs0 durs1 : list Q) (rest : list string) :
  forall i t0 t1,
  t0 == t1 -> t0 <= 48 ->
  (forall j seg, (S j < length rest)%nat ->
     segs_loop i rest durs0 t0 !! j = Some seg ->
     getq durs1 (i + j) == seg_width seg) ->
  Forall2 seg_eq (set_last_end (segs_loop i rest durs1 t1))
                 (set_last_end (segs_loop i rest durs0 t0)).
Proof.
  induction rest as [|tag rest IH]; intros i t0 t1 Ht H48 Hw.
  - constructor.
  - destruct rest as [|tag' rest].
    + simpl. constructor; [|constructor].
      unfold seg_eq, seg_start, seg_end, seg_tag; simpl.
      split_and!; [lra | lra | done].
    + assert (getq durs1 i
              == pymin 48 (t0 + pymax 0 (getq durs0 i)) - t0) as Hd.
      { specialize (Hw 0%nat (t0, pymin 48 (t0 + pymax 0 (getq durs0 i)), tag)).
        rewrite Nat.add_0_r in Hw. apply Hw; [simpl; lia | done]. }
      assert (t0 <= pymin 48 (t0 + pymax 0 (getq durs0 i)) <= 48) as Hend0.
      { pose proof (pymax_lb_l 0 (getq durs0 i)).
        set (d := pymax 0 (getq durs0 i)) in *. py_arith. }
      set (end0 := pymin 48 (t0 + pymax 0 (getq durs0 i))) in *.
      assert (pymin 48 (t1 + pymax 0 (getq durs1 i)) == end0) as Hend1.
      { set (d1 := getq durs1 i) in *. py_arith. }
      change (segs_loop i (tag :: tag' :: rest) durs1 t1)
        with ((t1, pymin 48 (t1 + pymax 0 (getq durs1 i)), tag)
                :: segs_loop (S i) (tag' :: rest) durs1
                     (pymin 48 (t1 + pymax 0 (getq durs1 i)))).
      change (segs_loop i (tag :: tag' :: rest) durs0 t0)
        with ((t0, end0, tag)
                :: segs_loop (S i) (tag' :: rest) durs0 end0).
      change (segs_loop (S i) (tag' :: rest) durs1 ?t)
        with ((t, pymin 48 (t + pymax 0 (getq durs1 (S i))), tag')
                :: segs_loop (S (S i)) rest durs1
                     (pymin 48 (t + pymax 0 (getq durs1 (S i))))) at 1.
      change (segs_loop (S i) (tag' :: rest) durs0 end0)
        with ((end0, pymin 48 (end0 + pymax 0 (getq durs0 (S i))), tag')
                :: segs_loop (S (S i)) rest durs0
                     (pymin 48 (end0 + pymax 0 (getq durs0 (S i))))) at 1.
      rewrite !set_last_end_cons.
      constructor.
      * unfold seg_eq, seg_start, seg_end, seg_tag; simpl.
        split_and!; [lra | lra | done].
      * apply (IH (S i) end0 _); [lra | lra |].
        intros j seg Hj Hseg.
        replace (S i + j)%nat with (i + S j)%nat by lia.
        apply Hw; [simpl in *; lia | done].
Qed.

(** ** Boundaries that are already well spaced pass unchanged *)

Lemma boundaries_loop_length bs last :
  length (boundaries_loop bs last) = length bs.
Proof.
  revert last. induction bs as [|b bs IH]; intros last; simpl;
    [done | by rewrite IH].
Qed.

Lemma boundaries_loop_id (g : nat -> Q) (bs : list Q) :
  forall k last,
  (forall j, (j < length bs)%nat -> getq bs j == g (S (k + j))) ->
  last == g k ->
  (forall j, (k <= j < k + length bs)%nat ->
     g j + 0.001 <= g (S j) /\ g (S j) <= 48) ->
  forall j, (j < length bs)%nat ->
    getq (boundaries_loop bs last) j == g (S (k + j)).
Proof.
  induction bs as [|b bs IH]; intros k last Hb Hlast Hg j Hj;
    [simpl in Hj; lia|].
  simpl in Hj.
  assert (b == g (S k)) as Hbk.
  { specialize (Hb 0%nat). rewrite Nat.add_0_r in Hb.
    apply Hb. simpl. lia. }
  destruct (Hg k) as [Hlo Hhi]; [simpl; lia|].
  assert (pymax (last + 0.001) (pymin 48 b) == g (S k)) as Hval
    by py_arith.
  simpl. destruct j as [|j].
  - rewrite getq_cons_0, Nat.add_0_r. exact Hval.
  - rewrite getq_cons_S.
    replace (k + S j)%nat with (S k + j)%nat by lia.
    apply (IH (S k)); [| exact Hval | | lia].
    + intros j' Hj'. replace (S k + j')%nat with (k + S j')%nat by lia.
      apply (Hb (S j')). simpl. lia.
    + intros j' Hj'. apply Hg. simpl. lia.
Qed.

Lemma spaced_room (g : nat -> Q) (min_gap : Q) (bound : nat) (m : nat) :
  forall k,
  (forall j, (j < bound)%nat -> g j + min_gap <= g (S j)) ->
  (k + m <= bound)%nat ->
  g k + Qnat m * min_gap <= g (k + m)%nat.
Proof.
  induction m as [|m IH]; intros k Hg Hk.
  - rewrite Nat.add_0_r. change (Qnat 0) with 0. lra.
  - specialize (IH (S k) Hg). rewrite Qnat_S.
    replace (k + S m)%nat with (S k + m)%nat by lia.
    pose proof (Hg k). assert (k < bound)%nat by lia.
    assert (S k + m <= bound)%nat by lia. intuition. lra.
Qed.

Lemma sanitize_loop_id (g : nat -> Q) (L : nat) (ends : list Q)
  (min_gap : Q) (n : nat) :
  forall k last,
  (k + n = L - 1)%nat -> (1 <= L)%nat ->
  length ends = (L - 1)%nat ->
  (forall j, (j < L - 1)%nat -> getq ends j == g (S j)) ->
  last == g k ->
  (forall j, (j < L - 1)%nat -> g j + min_gap <= g (S j)) ->
  g (L - 1)%nat <= 48 ->
  forall j, (j < n)%nat ->
    getq (sanitize_loop (seq k n) L ends min_gap last) j == g (S (k + j)).
Proof.
  induction n as [|n IH]; intros k last Hk HL Hlen Hends Hlast Hgap H48 j Hj;
    [lia|].
  simpl.
  pose proof (remaining_count L k n Hk) as Hrem.
  set (rem := inject_Z (Z.of_nat L - 1 - (Z.of_nat k + 1))) in *.
  assert ((k <? length ends)%nat = true) as ->
    by (apply Nat.ltb_lt; lia).
  assert (getq ends k == g (S k)) as Hraw by (apply Hends; lia).
  assert (g k + min_gap <= g (S k)) as Hlo by (apply Hgap; lia).
  assert (g (S k) + Qnat n * min_gap <= 48) as Hhi.
  { assert (S k + n <= L - 1)%nat as Hle by lia.
    pose proof (spaced_room g min_gap (L - 1) n (S k) Hgap Hle) as Hroom.
    replace (S k + n)%nat with (L - 1)%nat in Hroom by lia. lra. }
  assert (pymax (last + min_gap) (pymin (48 - rem * min_gap) (getq ends k))
          == g (S k)) as Hval.
  { assert (rem * min_gap == Qnat n * min_gap) as Hprod by (by rewrite Hrem).
    set (x := rem * min_gap) in *. set (raw := getq ends k) in *.
    py_arith. }
  destruct j as [|j].
  - rewrite getq_cons_0, Nat.add_0_r. exact Hval.
  - rewrite getq_cons_S.
    replace (k + S j)%nat with (S k + j)%nat by lia.
    apply (IH (S k)); try done; lia.
Qed.

(** ** The points of a contiguous list of segments *)

Lemma chain_points (segs : list Segment) :
  forall t j seg,
  contiguous_from t segs -> segs !! j = Some seg ->
  seg_start seg = getq (t :: map seg_end segs) j
  /\ seg_end seg = getq (t :: map seg_end segs) (S j).
Proof.
  induction segs as [|s segs IH]; intros t j seg Hc Hj; [done|].
  destruct Hc as [Hs Hc]. destruct j as [|j]; simpl in Hj.
  - inversion Hj; subst. done.
  - destruct (IH _ _ _ Hc Hj) as [H1 H2]. split.
    + rewrite H1. done.
    + rewrite H2. done.
Qed.

Lemma set_last_end_lookup (segs : list Segment) (j : nat) :
  (S j < length segs)%nat -> set_last_end segs !! j = segs !! j.
Proof.
  revert j. induction segs as [|x segs IH]; intros j Hj; [done|].
  destruct segs as [|y segs]; [simpl in Hj; lia|].
  rewrite set_last_end_cons. destruct j as [|j]; [done|].
  simpl. apply IH. simpl in *. lia.
Qed.

Lemma but_last_lookup {A} (l : list A) (j : nat) :
  (S j < length l)%nat -> but_last l !! j = l !! j.
Proof. intros Hj. unfold but_last. apply lookup_take_lt. lia. Qed.

Lemma but_last_length {A} (l : list A) :
  length (but_last l) = (length l - 1)%nat.
Proof. unfold but_last. rewrite length_take. lia. Qed.

Lemma bounds_loop_eq (out_ends : list Q) (t : Q) :
  bounds_loop out_ends t = (t :: out_ends, out_ends ++ [48]).
Proof.
  revert t. induction out_ends as [|e rest IH]; intros t; simpl; [done|].
  by rewrite IH.
Qed.

Lemma edit_durations_lookup (L : nat) (seg_starts seg_ends : list Q) j :
  (j < L)%nat ->
  getq (edit_durations L seg_starts seg_ends) j
  = pymax 0 (getq seg_ends j - getq seg_starts j).
Proof.
  intros Hj. unfold edit_durations, getq at 1.
  rewrite list_lookup_fmap, lookup_seq_lt by done. done.
Qed.

Lemma durations_loop_length i pattern raw on_total off_total :
  length (durations_loop i pattern raw on_total off_total) = length pattern.
Proof.
  revert i. induction pattern as [|tag rest IH]; intros i; simpl;
    [done | by rewrite IH].
Qed.

Lemma durations_loop_lookup (pattern : list string) (raw : list Q)
  (on_total off_total : Q) :
  forall i j tag,
  pattern !! j = Some tag ->
  getq (durations_loop i pattern raw on_total off_total) j
  = let pct := if (i + j <? length raw)%nat then getq raw (i + j) else 0 in
    if is_on tag
    then (if Qltb 0 on_total then pct * on_total else 0)
    else (if Qltb 0 off_total then pct * off_total else 0).
Proof.
  induction pattern as [|tag0 rest IH]; intros i j tag Hj; [done|].
  destruct j as [|j]; simpl in Hj.
  - inversion Hj; subst. simpl. rewrite getq_cons_0, Nat.add_0_r. done.
  - simpl durations_loop. rewrite getq_cons_S, (IH (S i) j tag Hj).
    replace (S i + j)%nat with (i + S j)%nat by lia. done.
Qed.

Lemma getq_app_l (l1 l2 : list Q) j :
  (j < length l1)%nat -> getq (l1 ++ l2) j = getq l1 j.
Proof. intros Hj. unfold getq. by rewrite lookup_app_l. Qed.

Lemma getq_snoc (l : list Q) x : getq (l ++ [x]) (length l) = x.
Proof.
  unfold getq. rewrite lookup_app_r by lia. by rewrite Nat.sub_diag.
Qed.

Lemma getq_take (l : list Q) n j :
  (j < n)%nat -> getq (take n l) j = getq l j.
Proof. intros Hj. unfold getq. by rewrite lookup_take_lt. Qed.

Lemma getq_map_seg_end (segs : list Segment) j seg :
  segs !! j = Some seg -> getq (map seg_end segs) j = seg_end seg.
Proof.
  intros Hj. unfold getq. by rewrite list_lookup_fmap, Hj.
Qed.

Lemma nonempty_length {A} (l : list A) :
  (0 < length l)%nat -> nonempty l = true.
Proof. destruct l; simpl; [lia | done]. Qed.

(** ** The functions on a resolved archetype *)

Lemma split_on_off_indices_resolved (aid : string) (arch : Archetype) :
  get_config !! aid = Some arch ->
  split_on_off_indices aid
  = ((split_loop 0 (stint_pattern arch)).1, (split_loop 0 (stint_pattern arch)).2).
Proof.
  intros Hget. unfold split_on_off_indices. rewrite Hget.
  by destruct (split_loop 0 (stint_pattern arch)).
Qed.

Lemma apply_boundaries_resolved (p : Player) (aid : string)
  (arch : Archetype) (ends : list Q) (min_gap : Q) :
  truthy_id (archetype_id p) = Some aid ->
  get_config !! aid = Some arch ->
  apply_boundaries p ends min_gap =
    let L := length (stint_pattern arch) in
    let out_ends := sanitize L ends min_gap in
    let durations := edit_durations L (0 :: out_ends) (out_ends ++ [48]) in
    let on_idx := (split_loop 0 (stint_pattern arch)).1 in
    let off_idx := (split_loop 0 (stint_pattern arch)).2 in
    let on_total := pysum (map (getq durations) on_idx) in
    let off_total := pysum (map (getq durations) off_idx) in
    set_edit p (pymax 0 (pymin 48 on_total))
      (fill_shares off_idx durations off_total
         (fill_shares on_idx durations on_total (replicate L 0))).
Proof.
  intros Hid Hget. unfold apply_boundaries. rewrite Hid, Hget.
  pose proof (catalog_pattern_nonempty aid arch Hget) as HL.
  destruct (length (stint_pattern arch) <=? 0)%nat eqn:E;
    [apply Nat.leb_le in E; lia|].
  rewrite bounds_loop_eq, (split_on_off_indices_resolved aid arch Hget).
  done.
Qed.

Lemma ensure_default_percentages_resolved (p : Player) (aid : string)
  (arch : Archetype) :
  truthy_id (archetype_id p) = Some aid ->
  get_config !! aid = Some arch ->
  _ensure_default_percentages p =
    let L := length (stint_pattern arch) in
    let raw0 :=
      stints_raw p ++ replicate (L - length (stints_raw p))%nat 0 in
    let on_idx := (split_loop 0 (stint_pattern arch)).1 in
    let off_idx := (split_loop 0 (stint_pattern arch)).2 in
    let raw1 :=
      if nonempty on_idx && Qeq_bool (pysum (map (getq raw0) on_idx)) 0
      then fill on_idx (1 / Qnat (length on_idx)) raw0 else raw0 in
    let raw2 :=
      if nonempty off_idx && Qeq_bool (pysum (map (getq raw0) off_idx)) 0
      then fill off_idx (1 / Qnat (length off_idx)) raw1 else raw1 in
    take L raw2.
Proof.
  intros Hid Hget. unfold _ensure_default_percentages.
  rewrite Hid, Hget, (split_on_off_indices_resolved aid arch Hget).
  done.
Qed.

Lemma split_loop_disjoint (pattern : list string) (j : nat) :
  j ∈ (split_loop 0 pattern).1 -> j ∉ (split_loop 0 pattern).2.
Proof.
  rewrite split_loop_on, split_loop_off.
  intros (_ & t1 & H1 & Hon) (_ & t2 & H2 & Hoff). congruence.
Qed.

Lemma split_loop_tag (pattern : list string) (j : nat) (tag : string) :
  pattern !! j = Some tag ->
  if is_on tag then j ∈ (split_loop 0 pattern).1
  else j ∈ (split_loop 0 pattern).2.
Proof.
  intros Hj. destruct (is_on tag) eqn:E.
  - apply split_loop_on. split; [lia|]. exists tag.
    by rewrite Nat.sub_0_r.
  - apply split_loop_off. split; [lia|]. exists tag.
    by rewrite Nat.sub_0_r.
Qed.

Lemma split_loop_bound (pattern : list string) (j : nat) :
  j ∈ (split_loop 0 pattern).1 \/ j ∈ (split_loop 0 pattern).2 ->
  (j < length pattern)%nat.
Proof.
  rewrite split_loop_on, split_loop_off.
  intros [(_ & t & H & _) | (_ & t & H & _)];
    rewrite Nat.sub_0_r in H; by apply lookup_lt_Some in H.
Qed.

Lemma Qdiv_nonneg (a b : Q) : 0 <= a -> 0 < b -> 0 <= a / b.
Proof. intros Ha Hb. apply Qle_shift_div_l; [done | lra]. Qed.

Lemma Qdiv_pos (a b : Q) : 0 < a -> 0 < b -> 0 < a / b.
Proof. intros Ha Hb. apply Qlt_shift_div_l; [done | lra]. Qed.

Lemma Qdiv_mult_cancel (a b c : Q) : 0 < b -> c == b -> a / b * c == a.
Proof. intros Hb ->. field. lra. Qed.

(** ** The round trip through the boundary editor *)

Section RoundTrip.

Variables (p : Player) (aid : string) (arch : Archetype) (min_gap : Q).
Hypothesis Hid : truthy_id (archetype_id p) = Some aid.
Hypothesis Hget : get_config !! aid = Some arch.

(** The points of the segments before the edit: 0, then every end. *)
Let pat : list string := stint_pattern arch.
Let L : nat := length pat.
Let segs : list Segment := compute_segments p.
Let g (j : nat) : Q := getq (0 :: map seg_end segs) j.

(** Every stint but the last is at least 0.001 and [min_gap] wide. *)
Hypothesis Hthin : forall j, (S j < L)%nat -> g j + 0.001 <= g (S j).
Hypothesis Hgap : forall j, (S j < L)%nat -> g j + min_gap <= g (S j).

Lemma rt_L_pos : (1 <= L)%nat.
Proof. apply (catalog_pattern_nonempty aid arch Hget). Qed.

Lemma rt_segs_length : length segs = L.
Proof.
  unfold segs. rewrite (compute_segments_resolved p aid arch Hid Hget).
  cbv zeta. by rewrite set_last_end_length, segs_loop_length.
Qed.

Lemma rt_segs_contiguous : contiguous_from 0 segs.
Proof.
  unfold segs. rewrite (compute_segments_resolved p aid arch Hid Hget).
  cbv zeta. apply set_last_end_contiguous, segs_loop_contiguous.
Qed.

Lemma rt_segs_last : seg_end <$> last segs = Some 48.
Proof.
  unfold segs. rewrite (compute_segments_resolved p aid arch Hid Hget).
  cbv zeta. apply set_last_end_last. intros Hnil.
  apply (f_equal length) in Hnil. rewrite segs_loop_length in Hnil.
  pose proof rt_L_pos. unfold L, pat in *. simpl in Hnil. lia.
Qed.

Lemma rt_seg_points j seg :
  segs !! j = Some seg -> seg_start seg = g j /\ seg_end seg = g (S j).
Proof. intros Hj. by apply chain_points; [apply rt_segs_contiguous|]. Qed.

Lemma rt_points_range j :
  (j < L)%nat -> 0 <= g j /\ g j <= g (S j) /\ g (S j) <= 48.
Proof.
  intros Hj. rewrite <- rt_segs_length in Hj.
  destruct (lookup_lt_is_Some_2 segs j Hj) as [seg Hseg].
  destruct (rt_seg_points j seg Hseg) as [<- <-].
  pose proof (compute_segments_in_game p) as Hall.
  rewrite Forall_forall in Hall. apply Hall.
  by apply list_elem_of_lookup_2 in Hseg.
Qed.

Lemma rt_g_0 : g 0%nat = 0.
Proof. done. Qed.

Lemma rt_g_L : g L = 48.
Proof.
  pose proof rt_segs_last as Hl. pose proof rt_segs_length as Hlen.
  pose proof rt_L_pos as HL.
  destruct (last segs) as [seg|] eqn:E; [|done].
  simpl in Hl. inversion Hl as [H48].
  rewrite last_lookup in E.
  destruct (rt_seg_points _ _ E) as [_ He].
  rewrite Hlen in He. replace (S (Init.Nat.pred L)) with L in He by lia.
  congruence.
Qed.

(** *** The boundaries handed to the editor *)

Lemma rt_default_boundaries :
  length (compute_default_boundaries p) = (L - 1)%nat
  /\ forall j, (S j < L)%nat ->
       getq (compute_default_boundaries p) j == g (S j).
Proof.
  pose proof rt_L_pos as HL. pose proof rt_segs_length as Hlen.
  unfold compute_default_boundaries. fold segs.
  rewrite (nonempty_length segs) by lia.
  assert (length (map seg_end (but_last segs)) = (L - 1)%nat) as Hbl
    by (by rewrite length_map, but_last_length, Hlen).
  split; [by rewrite boundaries_loop_length|].
  intros j Hj.
  pose proof (boundaries_loop_id g (map seg_end (but_last segs))
                0%nat 0) as Hloop.
  simpl in Hloop. apply Hloop; clear Hloop.
  - intros i Hi. rewrite Hbl in Hi.
    assert (i < length segs)%nat as Hi' by lia.
    destruct (lookup_lt_is_Some_2 segs i Hi') as [seg Hseg].
    erewrite getq_map_seg_end;
      [| rewrite but_last_lookup by lia; exact Hseg].
    by destruct (rt_seg_points i seg Hseg) as [_ ->].
  - reflexivity.
  - intros i Hi. rewrite Hbl in Hi. split; [apply Hthin; lia|].
    apply rt_points_range. lia.
  - rewrite Hbl. lia.
Qed.

(** *** The sanitized boundaries and the durations of the edit *)

Lemma rt_sanitize :
  length (sanitize L (compute_default_boundaries p) min_gap) = (L - 1)%nat
  /\ forall j, (S j < L)%nat ->
       getq (sanitize L (compute_default_boundaries p) min_gap) j
       == g (S j).
Proof.
  pose proof rt_L_pos as HL.
  destruct rt_default_boundaries as [Hlen Hb].
  unfold sanitize. split; [by rewrite sanitize_loop_length, length_seq|].
  rewrite take_ge by lia. intros j Hj.
  apply (sanitize_loop_id g L _ min_gap (L - 1) 0%nat 0);
    try done; try lia.
  - intros i Hi. apply Hb. lia.
  - intros i Hi. apply Hgap. lia.
  - destruct (rt_points_range (L - 1)) as (_ & H1 & H2); [lia|].
    replace (S (L - 1)) with L in * by lia. lra.
Qed.

Let out_ends : list Q := sanitize L (compute_default_boundaries p) min_gap.
Let durations : list Q := edit_durations L (0 :: out_ends) (out_ends ++ [48]).

Lemma rt_durations j :
  (j < L)%nat -> getq durations j == g (S j) - g j.
Proof.
  intros Hj. destruct rt_sanitize as [Hlen Hs]. fold out_ends in Hlen, Hs.
  unfold durations. rewrite edit_durations_lookup by done.
  assert (getq (0 :: out_ends) j == g j) as Hstart.
  { destruct j as [|j]; [reflexivity|].
    rewrite getq_cons_S. apply Hs. lia. }
  assert (getq (out_ends ++ [48]) j == g (S j)) as Hend.
  { destruct (decide (S j < L)%nat) as [Hlt | Hge].
    - rewrite getq_app_l by lia. by apply Hs.
    - assert (j = length out_ends) as -> by lia.
      rewrite getq_snoc, Hlen. replace (S (L - 1)) with L by lia.
      by rewrite rt_g_L. }
  destruct (rt_points_range j Hj) as (_ & Hle & _).
  set (a := getq (out_ends ++ [48]) j) in *.
  set (b := getq (0 :: out_ends) j) in *. py_arith.
Qed.

Lemma rt_durations_nonneg j : 0 <= getq durations j.
Proof.
  destruct (decide (j < L)%nat) as [Hlt | Hge].
  - unfold durations. rewrite edit_durations_lookup by done.
    apply pymax_lb_l.
  - unfold getq, durations, edit_durations.
    rewrite lookup_ge_None_2; [simpl; lra|].
    rewrite length_map, length_seq. lia.
Qed.

Let on_idx : list nat := (split_loop 0 pat).1.
Let off_idx : list nat := (split_loop 0 pat).2.
Let on_total : Q := pysum (map (getq durations) on_idx).
Let off_total : Q := pysum (map (getq durations) off_idx).

Lemma rt_totals : on_total + off_total == 48.
Proof.
  unfold on_total, off_total, on_idx, off_idx.
  rewrite (split_loop_sum (getq durations) pat 0).
  rewrite (sum_range_telescope (getq durations) g (length pat) 0%nat).
  - fold L. simpl. rewrite rt_g_L, rt_g_0. lra.
  - intros j Hj. apply rt_durations. unfold L. lia.
Qed.

Lemma rt_on_total_nonneg : 0 <= on_total.
Proof.
  apply pysum_nonneg, Forall_forall. intros k _.
  apply rt_durations_nonneg.
Qed.

Lemma rt_off_total_nonneg : 0 <= off_total.
Proof.
  apply pysum_nonneg, Forall_forall. intros k _.
  apply rt_durations_nonneg.
Qed.

(** *** The player after the edit *)

Let weights : list Q :=
  fill_shares off_idx durations off_total
    (fill_shares on_idx durations on_total (replicate L 0)).
Let edited : Player :=
  apply_boundaries p (compute_default_boundaries p) min_gap.

Lemma rt_edited :
  edited = set_edit p (pymax 0 (pymin 48 on_total)) weights.
Proof.
  unfold edited.
  by rewrite (apply_boundaries_resolved p aid arch _ _ Hid Hget).
Qed.

Lemma rt_weights_length : length weights = L.
Proof.
  unfold weights. by rewrite !fill_shares_length, length_replicate.
Qed.

Lemma rt_weight_on j :
  j ∈ on_idx ->
  getq weights j
  = if Qltb 0 on_total then getq durations j / on_total else 0.
Proof.
  intros Hj. unfold weights.
  rewrite fill_shares_out by (by apply split_loop_disjoint).
  apply fill_shares_in; [done|]. rewrite length_replicate.
  apply (split_loop_bound pat). by left.
Qed.

Lemma rt_weight_off j :
  j ∈ off_idx ->
  getq weights j
  = if Qltb 0 off_total then getq durations j / off_total else 0.
Proof.
  intros Hj. unfold weights.
  apply fill_shares_in; [done|].
  rewrite fill_shares_length, length_replicate.
  apply (split_loop_bound pat). by right.
Qed.

Lemma rt_weights_nonneg j : 0 <= getq weights j.
Proof.
  destruct (decide (j ∈ off_idx)) as [Hoff | Hnoff].
  - rewrite rt_weight_off by done. py_case; [|lra].
    apply Qdiv_nonneg; [apply rt_durations_nonneg | done].
  - destruct (decide (j ∈ on_idx)) as [Hon | Hnon].
    + rewrite rt_weight_on by done. py_case; [|lra].
      apply Qdiv_nonneg; [apply rt_durations_nonneg | done].
    + unfold weights. rewrite !fill_shares_out by done.
      unfold getq. destruct (replicate L 0 !! j) as [x|] eqn:E;
        [|simpl; lra].
      apply lookup_replicate in E as [-> _]. simpl. lra.
Qed.

(** A stint that is not the last one has a positive duration, and so
    has its group. *)
Lemma rt_duration_pos j : (S j < L)%nat -> 0 < getq durations j.
Proof.
  intros Hj. rewrite rt_durations by lia.
  pose proof (Hthin j Hj). lra.
Qed.

Lemma rt_on_total_pos j :
  (S j < L)%nat -> j ∈ on_idx -> 0 < on_total.
Proof.
  intros Hj Hin. pose proof (rt_duration_pos j Hj).
  assert (getq durations j <= on_total); [|lra].
  apply pysum_member; [|done].
  apply Forall_forall. intros k _. apply rt_durations_nonneg.
Qed.

Lemma rt_off_total_pos j :
  (S j < L)%nat -> j ∈ off_idx -> 0 < off_total.
Proof.
  intros Hj Hin. pose proof (rt_duration_pos j Hj).
  assert (getq durations j <= off_total); [|lra].
  apply pysum_member; [|done].
  apply Forall_forall. intros k _. apply rt_durations_nonneg.
Qed.

(** *** The weights and durations recomputed from the edited player *)

Lemma rt_edited_id : truthy_id (archetype_id edited) = Some aid.
Proof. rewrite rt_edited. exact Hid. Qed.

Lemma rt_weight_pos j tag :
  (S j < L)%nat -> pat !! j = Some tag -> 0 < getq weights j.
Proof.
  intros Hj Htag. pose proof (split_loop_tag pat j tag Htag) as Hin.
  pose proof (rt_duration_pos j Hj).
  destruct (is_on tag).
  - pose proof (rt_on_total_pos j Hj Hin) as Hpos.
    rewrite rt_weight_on by done. apply Qltb_true in Hpos as Hb.
    rewrite Hb. by apply Qdiv_pos.
  - pose proof (rt_off_total_pos j Hj Hin) as Hpos.
    rewrite rt_weight_off by done. apply Qltb_true in Hpos as Hb.
    rewrite Hb. by apply Qdiv_pos.
Qed.

Lemma rt_group_sum_pos (idx : list nat) j tag :
  (S j < L)%nat -> pat !! j = Some tag -> j ∈ idx ->
  Qeq_bool (pysum (map (getq weights) idx)) 0 = false.
Proof.
  intros Hj Htag Hin. apply Qeq_bool_false.
  pose proof (rt_weight_pos j tag Hj Htag).
  assert (getq weights j <= pysum (map (getq weights) idx)); [|lra].
  apply pysum_member; [|done].
  apply Forall_forall. intros k _. apply rt_weights_nonneg.
Qed.

Lemma rt_new_weights :
  length (_ensure_default_percentages edited) = L
  /\ forall j tag, (S j < L)%nat -> pat !! j = Some tag ->
       getq (_ensure_default_percentages edited) j = getq weights j.
Proof.
  rewrite (ensure_default_percentages_resolved edited aid arch
             rt_edited_id Hget).
  assert (stints_raw edited = weights) as -> by (by rewrite rt_edited).
  cbv zeta. fold pat. fold L.
  replace (L - length weights)%nat with 0%nat
    by (rewrite rt_weights_length; lia).
  simpl replicate. rewrite app_nil_r. fold on_idx off_idx.
  set (on_fill := nonempty on_idx
                  && Qeq_bool (pysum (map (getq weights) on_idx)) 0).
  set (off_fill := nonempty off_idx
                   && Qeq_bool (pysum (map (getq weights) off_idx)) 0).
  set (raw1 := if on_fill
               then fill on_idx (1 / Qnat (length on_idx)) weights
               else weights).
  set (raw2 := if off_fill
               then fill off_idx (1 / Qnat (length off_idx)) raw1
               else raw1).
  assert (length raw1 = L) as Hlen1.
  { unfold raw1. destruct on_fill; [rewrite fill_length|];
      apply rt_weights_length. }
  assert (length raw2 = L) as Hlen2.
  { unfold raw2. destruct off_fill; [rewrite fill_length|]; done. }
  split; [rewrite length_take; lia|].
  intros j tag Hj Htag. rewrite getq_take by lia.
  pose proof (split_loop_tag pat j tag Htag) as Hin.
  destruct (is_on tag).
  - assert (on_fill = false) as Hon.
    { unfold on_fill.
      rewrite (rt_group_sum_pos on_idx j tag Hj Htag Hin).
      apply andb_false_r. }
    unfold raw2, raw1. rewrite Hon.
    destruct off_fill; [|done].
    apply fill_out. by apply split_loop_disjoint.
  - assert (off_fill = false) as Hoff.
    { unfold off_fill.
      rewrite (rt_group_sum_pos off_idx j tag Hj Htag Hin).
      apply andb_false_r. }
    unfold raw2, raw1. rewrite Hoff.
    destruct on_fill; [|done].
    apply fill_out. intros Hon.
    by apply (split_loop_disjoint pat j Hon).
Qed.

Lemma rt_new_on_total :
  pymax 0 (pymin 48 (or_zero (expected_minutes edited))) == on_total.
Proof.
  assert (expected_minutes edited = pymax 0 (pymin 48 on_total)) as ->
    by (by rewrite rt_edited).
  pose proof rt_totals. pose proof rt_on_total_nonneg.
  pose proof rt_off_total_nonneg.
  set (T := on_total) in *. py_arith.
Qed.

Lemma rt_new_off_total :
  pymax 0 (48 - pymax 0 (pymin 48 (or_zero (expected_minutes edited))))
  == off_total.
Proof.
  pose proof rt_new_on_total as Hon.
  set (T := pymax 0 (pymin 48 (or_zero (expected_minutes edited)))) in *.
  pose proof rt_totals. pose proof rt_off_total_nonneg.
  unfold pymax. py_case; lra.
Qed.

Lemma rt_new_durations j tag :
  (S j < L)%nat -> pat !! j = Some tag ->
  getq (durations_loop 0 pat (_ensure_default_percentages edited)
          (pymax 0 (pymin 48 (or_zero (expected_minutes edited))))
          (pymax 0
             (48 - pymax 0 (pymin 48 (or_zero (expected_minutes edited))))))
       j
  == g (S j) - g j.
Proof.
  intros Hj Htag. destruct rt_new_weights as [Hlen Hw].
  rewrite (durations_loop_lookup _ _ _ _ 0%nat j tag Htag).
  cbv zeta. rewrite Nat.add_0_l, Hlen.
  assert ((j <? L)%nat = true) as -> by (apply Nat.ltb_lt; lia).
  rewrite (Hw j tag Hj Htag).
  pose proof (split_loop_tag pat j tag Htag) as Hin.
  pose proof rt_new_on_total as Hon. pose proof rt_new_off_total as Hoff.
  set (on' := pymax 0 (pymin 48 (or_zero (expected_minutes edited)))) in *.
  set (off' := pymax 0 (48 - on')) in *.
  rewrite <- (rt_durations j) by lia.
  destruct (is_on tag).
  - pose proof (rt_on_total_pos j Hj Hin) as Hpos.
    assert (Qltb 0 on' = true) as -> by (apply Qltb_true; lra).
    rewrite rt_weight_on by done.
    apply Qltb_true in Hpos as Hb. rewrite Hb.
    by apply Qdiv_mult_cancel.
  - pose proof (rt_off_total_pos j Hj Hin) as Hpos.
    assert (Qltb 0 off' = true) as -> by (apply Qltb_true; lra).
    rewrite rt_weight_off by done.
    apply Qltb_true in Hpos as Hb. rewrite Hb.
    by apply Qdiv_mult_cancel.
Qed.

(** The segments of the edited player are those of the player before the
    edit. *)
Lemma rt_segments : Forall2 seg_eq (compute_segments edited) segs.
Proof.
  pose proof rt_segs_length as Hlen.
  assert (exists durs0,
            segs = set_last_end (segs_loop 0 pat durs0 0)) as [durs0 Hsegs].
  { eexists. unfold segs.
    by rewrite (compute_segments_resolved p aid arch Hid Hget). }
  rewrite (compute_segments_resolved edited aid arch rt_edited_id Hget).
  cbv zeta. rewrite Hsegs. fold pat.
  apply segs_loop_rerun; [reflexivity | lra |].
  intros j seg Hj Hseg. fold L in Hj.
  assert (segs !! j = Some seg) as Hseg'.
  { rewrite Hsegs, set_last_end_lookup; [done|].
    by rewrite segs_loop_length. }
  destruct (rt_seg_points j seg Hseg') as [Hs He].
  assert (j < length pat)%nat as Hjl by (fold L; lia).
  destruct (lookup_lt_is_Some_2 pat j Hjl) as [tag Htag].
  rewrite Nat.add_0_l, (rt_new_durations j tag Hj Htag).
  unfold seg_width. rewrite Hs, He. reflexivity.
Qed.

End RoundTrip.

Lemma seg_eq_close (tol : Q) (a b : Segment) :
  0 <= tol -> seg_eq a b -> seg_close tol a b.
Proof.
  intros Htol (Hs & He & Ht). unfold seg_close. split_and!; [| | done].
  - assert (seg_start a - seg_start b == 0) as -> by lra. exact Htol.
  - assert (seg_end a - seg_end b == 0) as -> by lra. exact Htol.
Qed.

(** C2 (as the code has it).  For a player with a resolvable archetype
    whose stints, the last one apart, are each at least 0.001 and at least
    [min_gap] wide, handing [compute_default_boundaries] back to
    [apply_boundaries] leaves a player whose segments have the same tags
    and numerically equal starts and ends, hence equal within 1e-6. *)
Theorem boundary_round_trip (p : Player) (arch : Archetype) (min_gap : Q) :
  resolve p = Some arch ->
  Forall (fun s => 0.001 <= seg_width s /\ min_gap <= seg_width s)
         (but_last (compute_segments p)) ->
  Forall2 seg_eq
    (compute_segments
       (apply_boundaries p (compute_default_boundaries p) min_gap))
    (compute_segments p)
  /\ segs_close 1e-6
       (compute_segments
          (apply_boundaries p (compute_default_boundaries p) min_gap))
       (compute_segments p).
Proof.
  intros Hres Hwide.
  destruct (resolve_lookup _ _ Hres) as (aid & Hid & Hget).
  assert (forall j, (S j < length (stint_pattern arch))%nat ->
            getq (0 :: map seg_end (compute_segments p)) j + 0.001
              <= getq (0 :: map seg_end (compute_segments p)) (S j)
            /\ getq (0 :: map seg_end (compute_segments p)) j + min_gap
              <= getq (0 :: map seg_end (compute_segments p)) (S j))
    as Hidx.
  { intros j Hj.
    pose proof (rt_segs_length p aid arch Hid Hget) as Hlen.
    assert (j < length (compute_segments p))%nat as Hj' by lia.
    destruct (lookup_lt_is_Some_2 _ j Hj') as [seg Hseg].
    destruct (rt_seg_points p aid arch Hid Hget j seg Hseg) as [Hs He].
    rewrite Forall_forall in Hwide.
    assert (seg ∈ but_last (compute_segments p)) as Hin.
    { apply list_elem_of_lookup. exists j.
      rewrite but_last_lookup by lia. done. }
    specialize (Hwide seg Hin). unfold seg_width in Hwide.
    rewrite Hs, He in Hwide. destruct Hwide as [H1 H2].
    split; lra. }
  assert (Forall2 seg_eq
            (compute_segments
               (apply_boundaries p (compute_default_boundaries p) min_gap))
            (compute_segments p)) as Heq.
  { apply (rt_segments p aid arch min_gap Hid Hget);
      intros j Hj; by apply Hidx. }
  split; [exact Heq|].
  unfold segs_close. eapply Forall2_impl; [exact Heq|].
  intros a b Hab. apply seg_eq_close; [|done]. by compute.
Qed.

Lemma boundary_round_trip_witness :
  resolve bench12 = Some bench_archetype
  /\ Forall (fun s => 0.001 <= seg_width s /\ 0.001 <= seg_width s)
       (but_last (compute_segments bench12))
  /\ Forall2 seg_eq
       (compute_segments
          (apply_boundaries bench12 (compute_default_boundaries bench12)
             0.001))
       (compute_segments bench12)
  /\ segs_close 1e-6
       (compute_segments
          (apply_boundaries bench12 (compute_default_boundaries bench12)
             0.001))
       (compute_segments bench12).
Proof.
  assert (Forall (fun s => 0.001 <= seg_width s /\ 0.001 <= seg_width s)
            (but_last (compute_segments bench12))) as Hwide.
  { assert (but_last (compute_segments bench12)
            = [(0, 36, "off"); (36, 48, "on")]) as ->
      by (vm_compute; reflexivity).
    repeat constructor; by compute. }
  split; [reflexivity|]. split; [exact Hwide|].
  exact (boundary_round_trip bench12 bench_archetype 0.001 eq_refl Hwide).
Defined.

(** C2 as stated fails: the bench player with no expected minutes has a
    zero-width "on" stint [24, 24]; the default boundaries open it to
    [24, 24.001], and after the edit the segment ends at 24.001, more than
    1e-6 away. *)
Lemma boundary_round_trip_fails :
  resolve idle_bench = Some bench_archetype
  /\ map seg_end (compute_segments idle_bench) = [48 # 2; 48 # 2; 48]
  /\ Forall2 Qeq (compute_default_boundaries idle_bench) [24; 24.001]
  /\ ~ segs_close 1e-6
         (compute_segments
            (apply_boundaries idle_bench
               (compute_default_boundaries idle_bench) 0.001))
         (compute_segments idle_bench).
Proof.
  split; [reflexivity|]. split; [vm_compute; reflexivity|]. split.
  - assert (compute_default_boundaries idle_bench = [48 # 2; 48002 # 2000])
      as -> by (vm_compute; reflexivity).
    repeat constructor.
  - intros H. unfold segs_close in H.
    apply (Forall2_lookup_l _ _ _ 1%nat) with
      (x := default (0, 0, "") (compute_segments
              (apply_boundaries idle_bench
                 (compute_default_boundaries idle_bench) 0.001) !! 1%nat))
      in H; [|vm_compute; reflexivity].
    destruct H as (y & Hy & _ & Hend & _).
    vm_compute in Hy. inversion Hy; subst y; clear Hy.
    vm_compute in Hend. apply Hend. reflexivity.
Qed.

(** * Further properties of the rotation engine *)

(** ** Edits overwrite each other *)

Lemma set_edit_set_edit (p : Player) (em1 em2 : Q) (raw1 raw2 : list Q) :
  set_edit (set_edit p em1 raw1) em2 raw2 = set_edit p em2 raw2.
Proof. done. Qed.

(** What [apply_boundaries] writes depends on the archetype, the candidate
    ends and the gap only: a second edit replaces the first one, and
    repeating an edit changes nothing. *)
Theorem apply_boundaries_overwrites (p : Player) (ends1 ends2 : list Q)
  (gap1 gap2 : Q) :
  apply_boundaries (apply_boundaries p ends1 gap1) ends2 gap2
  = apply_boundaries p ends2 gap2.
Proof.
  destruct (truthy_id (archetype_id p)) as [aid|] eqn:Hid.
  - destruct (get_config !! aid) as [arch|] eqn:Hget.
    + rewrite (apply_boundaries_resolved p aid arch ends1 gap1 Hid Hget).
      cbv zeta.
      rewrite (apply_boundaries_resolved _ aid arch ends2 gap2);
        [| exact Hid | exact Hget].
      rewrite (apply_boundaries_resolved p aid arch ends2 gap2 Hid Hget).
      cbv zeta. apply set_edit_set_edit.
    + assert (apply_boundaries p ends1 gap1 = p) as ->; [|done].
      unfold apply_boundaries. by rewrite Hid, Hget.
  - assert (apply_boundaries p ends1 gap1 = p) as ->; [|done].
    unfold apply_boundaries. by rewrite Hid.
Qed.

(** ** The sanitizer is idempotent *)

Lemma clamp_clamp (lo hi x : Q) :
  pymax lo (pymin hi (pymax lo (pymin hi x))) = pymax lo (pymin hi x).
Proof.
  unfold pymax, pymin.
  destruct (Qltb x hi) eqn:E1.
  - destruct (Qltb lo x) eqn:E2.
    + by rewrite E1, E2.
    + destruct (Qltb lo hi) eqn:E3.
      * assert (Qltb lo lo = false) as -> by (apply Qltb_false; lra). done.
      * by rewrite E3.
  - destruct (Qltb lo hi) eqn:E2.
    + assert (Qltb hi hi = false) as -> by (apply Qltb_false; lra).
      by rewrite E2.
    + destruct (Qltb lo hi) eqn:E3; [done|]. by rewrite E3.
Qed.

Lemma sanitize_loop_again (L : nat) (min_gap : Q) (n : nat) :
  forall k last (ends out : list Q),
  (forall j, (j < n)%nat ->
     out !! (k + j)%nat
     = sanitize_loop (seq k n) L ends min_gap last !! j) ->
  sanitize_loop (seq k n) L out min_gap last
  = sanitize_loop (seq k n) L ends min_gap last.
Proof.
  induction n as [|n IH]; intros k last ends out Hout; [done|].
  simpl.
  set (hi := 48 - inject_Z (Z.of_nat L - 1 - (Z.of_nat k + 1)) * min_gap).
  set (raw := if (k <? length ends)%nat then getq ends k
              else last + min_gap).
  set (val := pymax (last + min_gap) (pymin hi raw)).
  assert (out !! k = Some val) as Hk.
  { specialize (Hout 0%nat). rewrite Nat.add_0_r in Hout.
    rewrite Hout by lia. done. }
  assert ((k <? length out)%nat = true) as ->.
  { apply Nat.ltb_lt. by apply lookup_lt_Some in Hk. }
  rewrite (getq_lookup out k val Hk). unfold val at 1 2.
  rewrite clamp_clamp. fold val. f_equal.
  apply IH. intros j Hj.
  replace (S k + j)%nat with (k + S j)%nat by lia.
  rewrite Hout by lia. done.
Qed.

(** Sanitizing boundaries that are already sanitized returns them as they
    are, for every candidate list, every gap and every stint count. *)
Theorem sanitize_idempotent (L : nat) (ends : list Q) (min_gap : Q) :
  sanitize L (sanitize L ends min_gap) min_gap = sanitize L ends min_gap.
Proof.
  unfold sanitize at 1.
  rewrite take_ge
    by (unfold sanitize; rewrite sanitize_loop_length, length_seq; lia).
  unfold sanitize. apply sanitize_loop_again. intros j Hj. done.
Qed.

(** ** The shape of the default boundaries *)

Lemma boundaries_loop_spaced (bs : list Q) (last : Q) :
  spaced_from 0.001 last (boundaries_loop bs last).
Proof.
  revert last. induction bs as [|b bs IH]; intros last; simpl; [done|].
  split; [apply pymax_lb_l | apply IH].
Qed.

Lemma boundaries_loop_drift (bs : list Q) :
  forall (m : nat) last j v,
  last + 0.001 <= 48 + Qnat m * 0.001 ->
  boundaries_loop bs last !! j = Some v ->
  v <= 48 + Qnat (m + j) * 0.001.
Proof.
  induction bs as [|b bs IH]; intros m last j v Hlast Hv; [done|].
  simpl in Hv.
  assert (pymax (last + 0.001) (pymin 48 b) <= 48 + Qnat m * 0.001) as Hval.
  { pose proof (Qnat_nonneg m). set (x := Qnat m) in *. py_arith. }
  destruct j as [|j]; simpl in Hv.
  - inversion Hv; subst v. by rewrite Nat.add_0_r.
  - replace (m + S j)%nat with (S m + j)%nat by lia.
    apply (IH (S m) (pymax (last + 0.001) (pymin 48 b)) j v); [|done].
    rewrite Qnat_S. lra.
Qed.

(** The default boundaries of a player with a resolvable archetype of [L]
    stints are [L - 1] values, each at least 0.001 above the previous one
    (the first at least 0.001), and boundary [k] is at most
    [48 + k * 0.001]. *)
Theorem default_boundaries_shape (p : Player) (arch : Archetype) :
  resolve p = Some arch ->
  length (compute_default_boundaries p)
    = (length (stint_pattern arch) - 1)%nat
  /\ spaced_from 0.001 0 (compute_default_boundaries p)
  /\ forall k v, compute_default_boundaries p !! k = Some v ->
       v <= 48 + Qnat k * 0.001.
Proof.
  intros Hres. destruct (resolve_lookup _ _ Hres) as (aid & Hid & Hget).
  pose proof (rt_segs_length p aid arch Hid Hget) as Hlen.
  pose proof (catalog_pattern_nonempty aid arch Hget) as HL.
  unfold compute_default_boundaries.
  rewrite (nonempty_length (compute_segments p)) by lia.
  split_and!.
  - by rewrite boundaries_loop_length, length_map, but_last_length, Hlen.
  - apply boundaries_loop_spaced.
  - intros k v Hv.
    apply (boundaries_loop_drift
             (map seg_end (but_last (compute_segments p))) 0%nat 0 k v);
      [by compute | done].
Qed.

Lemma default_boundaries_shape_witness :
  resolve starter48 = Some starter3_archetype
  /\ length (compute_default_boundaries starter48)
     = (length (stint_pattern starter3_archetype) - 1)%nat
  /\ spaced_from 0.001 0 (compute_default_boundaries starter48)
  /\ forall k v, compute_default_boundaries starter48 !! k = Some v ->
       v <= 48 + Qnat k * 0.001.
Proof.
  split; [reflexivity|].
  exact (default_boundaries_shape starter48 starter3_archetype eq_refl).
Defined.

(** ** Starters open on court *)

Lemma catalog_starter_opens (s : string) (a : Archetype) :
  get_config !! s = Some a ->
  (starter a || String.eqb s "Star") = starter a
  /\ exists rest,
       stint_pattern a = (if starter a then "on" else "off") :: rest.
Proof.
  intros H. pose proof (catalog_key _ _ H) as Hkey.
  apply catalog_member in H. unfold ARCHETYPES in H.
  repeat (apply elem_of_cons in H as [-> | H];
          [simpl in Hkey; subst s; split; [reflexivity | by eexists]|]).
  by apply elem_of_nil in H.
Qed.

Lemma set_last_end_head (x : Segment) (rest : list Segment) :
  exists e rest',
    set_last_end (x :: rest) = (seg_start x, e, seg_tag x) :: rest'.
Proof.
  destruct x as [[s e] tag]. destruct rest as [|y rest].
  - by exists 48, [].
  - rewrite set_last_end_cons. by exists e, (set_last_end (y :: rest)).
Qed.

Lemma first_segment (tag : string) (rest : list string) (durs : list Q) :
  exists e rest',
    set_last_end (segs_loop 0 (tag :: rest) durs 0) = (0, e, tag) :: rest'.
Proof.
  change (segs_loop 0 (tag :: rest) durs 0)
    with ((0, pymin 48 (0 + pymax 0 (getq durs 0)), tag)
            :: segs_loop 1 rest durs (pymin 48 (0 + pymax 0 (getq durs 0)))).
  apply (set_last_end_head (0, pymin 48 (0 + pymax 0 (getq durs 0)), tag)).
Qed.

(** For a player with a resolvable archetype, [_is_starter_like] is the
    archetype's starter flag, and the first segment starts at 0 and is
    "on" for a starter-like player, "off" for the others. *)
Theorem starter_like_opens_on_court (p : Player) (arch : Archetype) :
  resolve p = Some arch ->
  _is_starter_like p = starter arch
  /\ exists e rest,
       compute_segments p
       = (0, e, if _is_starter_like p then "on" else "off") :: rest.
Proof.
  intros Hres. destruct (resolve_lookup _ _ Hres) as (aid & Hid & Hget).
  destruct (catalog_starter_opens aid arch Hget) as [Hflag [pat Hpat]].
  assert (_is_starter_like p = starter arch) as Hlike.
  { unfold _is_starter_like. by rewrite Hid, Hget. }
  split; [done|]. rewrite Hlike.
  rewrite (compute_segments_resolved p aid arch Hid Hget). cbv zeta.
  rewrite Hpat.
  match goal with
  | |- context [segs_loop 0 (?tag :: ?l) ?durs 0] =>
      destruct (first_segment tag l durs) as (e & rest' & ->)
  end.
  by exists e, rest'.
Qed.

Lemma starter_like_opens_on_court_witness :
  resolve starter48 = Some starter3_archetype
  /\ _is_starter_like starter48 = starter starter3_archetype
  /\ exists e rest,
       compute_segments starter48
       = (0, e, if _is_starter_like starter48 then "on" else "off") :: rest.
Proof.
  split; [reflexivity|].
  exact (starter_like_opens_on_court starter48 starter3_archetype eq_refl).
Defined.

(** ** The step series starts and ends with nobody on court *)

Lemma sum_deltas_perm (l1 l2 : list Event) :
  l1 ≡ₚ l2 -> sum_deltas l1 = sum_deltas l2.
Proof.
  unfold sum_deltas.
  induction 1 as [|x l1 l2 Hp IH|x y l|l1 l2 l3 Hp1 IH1 Hp2 IH2]; simpl;
    [done | by rewrite IH | lia | congruence].
Qed.

Lemma sum_deltas_paired (l : list Event) : paired l -> sum_deltas l = 0%Z.
Proof.
  unfold sum_deltas. induction 1 as [|s e l Hse Hl IH]; simpl; [done|].
  rewrite IH. done.
Qed.

Lemma team_events_balanced (ps : list Player) :
  sum_deltas (sort_events (collect_events ps)) = 0%Z.
Proof.
  rewrite (sum_deltas_perm _ _ (sort_events_perm _)).
  unfold collect_events. rewrite sum_deltas_app.
  by rewrite (sum_deltas_paired _ (player_events_paired ps)).
Qed.

(** For every team, [team_oncourt_steps] returns as many counts as times,
    and both the first and the last count are 0: every "on" segment that
    was opened has been closed by minute 48. *)
Theorem team_oncourt_steps_ends_empty (team : Team) :
  length (team_oncourt_steps team).1 = length (team_oncourt_steps team).2
  /\ head (team_oncourt_steps team).2 = Some 0%Z
  /\ last (team_oncourt_steps team).2 = Some 0%Z.
Proof.
  unfold team_oncourt_steps.
  destruct (team_events_nonempty (players team)) as (ev & rest & Hev).
  pose proof (team_events_balanced (players team)) as Hsum.
  rewrite Hev in Hsum |- *.
  assert (last (ys (walk (ev :: rest))) = Some 0%Z) as Hlast.
  { rewrite walk_last_y by done. by rewrite walk_curr, Hsum. }
  destruct (walk_points ev rest) as [Hx Hy].
  rewrite Hx, Hy in *. cbn [dedup].
  set (X := map fst (emitted 0 0 (ev :: rest))) in *.
  set (Y := map snd (emitted 0 0 (ev :: rest))) in *.
  assert (length X = length Y) as HXY by (unfold X, Y; by rewrite !length_map).
  pose proof (dedup_loop_lengths X Y [0] [0%Z] eq_refl) as Hlen.
  pose proof (dedup_loop_last_y X Y [0] [0%Z] 0%Z HXY eq_refl) as Hly.
  rewrite Hlast in Hly.
  destruct (dedup_loop_kept X Y [0] [0%Z]) as (kx & ky & Hd & _ & _).
  rewrite Hd in Hlen, Hly |- *. simpl in Hlen, Hly.
  unfold ensure_final.
  destruct (negb (Qeq_bool (default 0 (last ([0] ++ kx))) 48));
    cbn [fst snd].
  - split_and!.
    + rewrite !length_app. simpl. lia.
    + done.
    + rewrite last_snoc. simpl. rewrite Hly. done.
  - split_and!; [simpl; lia | done | done].
Qed.

(** ** What an edit leaves in the player *)

Lemma apply_boundaries_shares (p : Player) (aid : string) (arch : Archetype)
  (ends : list Q) (min_gap : Q) :
  truthy_id (archetype_id p) = Some aid ->
  get_config !! aid = Some arch ->
  apply_boundaries p ends min_gap =
    set_edit p
      (pymax 0
         (pymin 48
            (pysum
               (map (getq (cut_durations (length (stint_pattern arch))
                             ends min_gap))
                    (split_loop 0 (stint_pattern arch)).1))))
      (share_weights (stint_pattern arch)
         (cut_durations (length (stint_pattern arch)) ends min_gap)).
Proof.
  intros Hid Hget.
  by rewrite (apply_boundaries_resolved p aid arch ends min_gap Hid Hget).
Qed.

Lemma cut_durations_nonneg (L : nat) (ends : list Q) (min_gap : Q) j :
  0 <= getq (cut_durations L ends min_gap) j.
Proof.
  unfold cut_durations. destruct (decide (j < L)%nat) as [Hlt | Hge].
  - rewrite edit_durations_lookup by done. apply pymax_lb_l.
  - unfold getq, edit_durations.
    rewrite lookup_ge_None_2; [simpl; lra|].
    rewrite length_map, length_seq. lia.
Qed.

Section Shares.

Variables (pattern : list string) (durations : list Q).
Hypothesis Hnonneg : forall j, 0 <= getq durations j.

Let on_idx : list nat := (split_loop 0 pattern).1.
Let off_idx : list nat := (split_loop 0 pattern).2.
Let on_total : Q := pysum (map (getq durations) on_idx).
Let off_total : Q := pysum (map (getq durations) off_idx).

Lemma share_weights_length :
  length (share_weights pattern durations) = length pattern.
Proof.
  unfold share_weights. cbv zeta.
  by rewrite !fill_shares_length, length_replicate.
Qed.

Lemma share_weights_on j :
  j ∈ on_idx ->
  getq (share_weights pattern durations) j
  = if Qltb 0 on_total then getq durations j / on_total else 0.
Proof.
  intros Hj. unfold share_weights. cbv zeta.
  rewrite fill_shares_out by (by apply split_loop_disjoint).
  apply fill_shares_in; [done|]. rewrite length_replicate.
  apply (split_loop_bound pattern). by left.
Qed.

Lemma share_weights_off j :
  j ∈ off_idx ->
  getq (share_weights pattern durations) j
  = if Qltb 0 off_total then getq durations j / off_total else 0.
Proof.
  intros Hj. unfold share_weights. cbv zeta.
  apply fill_shares_in; [done|].
  rewrite fill_shares_length, length_replicate.
  apply (split_loop_bound pattern). by right.
Qed.

Lemma share_in_unit (idx : list nat) j :
  j ∈ idx ->
  let total := pysum (map (getq durations) idx) in
  0 <= (if Qltb 0 total then getq durations j / total else 0) <= 1.
Proof.
  intros Hj total.
  assert (getq durations j <= total) as Hle.
  { apply pysum_member; [|done]. apply Forall_forall. by intros k _. }
  py_case; [|lra]. split.
  - by apply Qdiv_nonneg.
  - apply Qle_shift_div_r; [done | lra].
Qed.

Lemma share_weights_unit j w :
  share_weights pattern durations !! j = Some w -> 0 <= w <= 1.
Proof.
  intros Hw. pose proof (lookup_lt_Some _ _ _ Hw) as Hj.
  rewrite share_weights_length in Hj.
  destruct (lookup_lt_is_Some_2 pattern j Hj) as [tag Htag].
  pose proof (split_loop_tag pattern j tag Htag) as Hin.
  rewrite <- (getq_lookup _ _ _ Hw).
  destruct (is_on tag).
  - rewrite share_weights_on by done. by apply share_in_unit.
  - rewrite share_weights_off by done. by apply share_in_unit.
Qed.

End Shares.



(** ** Segments recomputed from shared weights *)

Section Recompute.

(** A player [q] whose weights are the shares of the durations [durs] and
    whose expected minutes are their "on" total; the durations are
    non-negative, add up to 48 and are positive in every stint but the
    last. *)
Variables (q : Player) (aid : string) (arch : Archetype) (durs : list Q).
Hypothesis Hid : truthy_id (archetype_id q) = Some aid.
Hypothesis Hget : get_config !! aid = Some arch.

Let pat : list string := stint_pattern arch.
Let L : nat := length pat.
Let on_idx : list nat := (split_loop 0 pat).1.
Let off_idx : list nat := (split_loop 0 pat).2.
Let on_total : Q := pysum (map (getq durs) on_idx).
Let off_total : Q := pysum (map (getq durs) off_idx).

Hypothesis Hraw : stints_raw q = share_weights pat durs.
Hypothesis Hexp : expected_minutes q = pymax 0 (pymin 48 on_total).
Hypothesis Hnonneg : forall j, 0 <= getq durs j.
Hypothesis Hsum : sum_range (getq durs) 0 L == 48.
Hypothesis Hpos : forall j, (S j < L)%nat -> 0 < getq durs j.

Lemma rc_totals : on_total + off_total == 48.
Proof.
  unfold on_total, off_total, on_idx, off_idx.
  rewrite (split_loop_sum (getq durs) pat 0). exact Hsum.
Qed.

Lemma rc_on_total_nonneg : 0 <= on_total.
Proof. apply pysum_nonneg, Forall_forall. by intros k _. Qed.

Lemma rc_off_total_nonneg : 0 <= off_total.
Proof. apply pysum_nonneg, Forall_forall. by intros k _. Qed.

Lemma rc_group_total_pos (idx : list nat) j :
  (S j < L)%nat -> j ∈ idx -> 0 < pysum (map (getq durs) idx).
Proof.
  intros Hj Hin. pose proof (Hpos j Hj).
  assert (getq durs j <= pysum (map (getq durs) idx)); [|lra].
  apply pysum_member; [|done]. apply Forall_forall. by intros k _.
Qed.

Lemma rc_weights_nonneg j : 0 <= getq (share_weights pat durs) j.
Proof.
  unfold getq.
  destruct (share_weights pat durs !! j) as [w|] eqn:E; [|simpl; lra].
  simpl. by destruct (share_weights_unit pat durs Hnonneg j w E).
Qed.

Lemma rc_weight_pos j tag :
  (S j < L)%nat -> pat !! j = Some tag ->
  0 < getq (share_weights pat durs) j.
Proof.
  intros Hj Htag. pose proof (split_loop_tag pat j tag Htag) as Hin.
  pose proof (Hpos j Hj).
  assert (forall idx, j ∈ idx -> 0 < pysum (map (getq durs) idx)) as Htot
    by (intros idx; by apply rc_group_total_pos).
  destruct (is_on tag).
  - specialize (Htot _ Hin). rewrite share_weights_on by done.
    apply Qltb_true in Htot as Hb. rewrite Hb. by apply Qdiv_pos.
  - specialize (Htot _ Hin). rewrite share_weights_off by done.
    apply Qltb_true in Htot as Hb. rewrite Hb. by apply Qdiv_pos.
Qed.

Lemma rc_group_sum_pos (idx : list nat) j tag :
  (S j < L)%nat -> pat !! j = Some tag -> j ∈ idx ->
  Qeq_bool (pysum (map (getq (share_weights pat durs)) idx)) 0 = false.
Proof.
  intros Hj Htag Hin. apply Qeq_bool_false.
  pose proof (rc_weight_pos j tag Hj Htag).
  assert (getq (share_weights pat durs) j
          <= pysum (map (getq (share_weights pat durs)) idx)); [|lra].
  apply pysum_member; [|done].
  apply Forall_forall. intros k _. apply rc_weights_nonneg.
Qed.

Lemma rc_new_weights :
  length (_ensure_default_percentages q) = L
  /\ forall j tag, (S j < L)%nat -> pat !! j = Some tag ->
       getq (_ensure_default_percentages q) j
       = getq (share_weights pat durs) j.
Proof.
  rewrite (ensure_default_percentages_resolved q aid arch Hid Hget).
  rewrite Hraw. cbv zeta. fold pat. fold L.
  pose proof (share_weights_length pat durs) as Hwl. fold L in Hwl.
  replace (L - length (share_weights pat durs))%nat with 0%nat
    by (rewrite Hwl; lia).
  simpl replicate. rewrite app_nil_r. fold on_idx off_idx.
  set (weights := share_weights pat durs) in *.
  set (on_fill := nonempty on_idx
                  && Qeq_bool (pysum (map (getq weights) on_idx)) 0).
  set (off_fill := nonempty off_idx
                   && Qeq_bool (pysum (map (getq weights) off_idx)) 0).
  set (raw1 := if on_fill
               then fill on_idx (1 / Qnat (length on_idx)) weights
               else weights).
  set (raw2 := if off_fill
               then fill off_idx (1 / Qnat (length off_idx)) raw1
               else raw1).
  assert (length raw1 = L) as Hlen1.
  { unfold raw1. destruct on_fill; [rewrite fill_length|]; exact Hwl. }
  assert (length raw2 = L) as Hlen2.
  { unfold raw2. destruct off_fill; [rewrite fill_length|]; done. }
  split; [rewrite length_take; lia|].
  intros j tag Hj Htag. rewrite getq_take by lia.
  pose proof (split_loop_tag pat j tag Htag) as Hin.
  destruct (is_on tag).
  - assert (on_fill = false) as Hon.
    { unfold on_fill, weights.
      rewrite (rc_group_sum_pos on_idx j tag Hj Htag Hin).
      apply andb_false_r. }
    unfold raw2, raw1. rewrite Hon.
    destruct off_fill; [|done].
    apply fill_out. by apply split_loop_disjoint.
  - assert (off_fill = false) as Hoff.
    { unfold off_fill, weights.
      rewrite (rc_group_sum_pos off_idx j tag Hj Htag Hin).
      apply andb_false_r. }
    unfold raw2, raw1. rewrite Hoff.
    destruct on_fill; [|done].
    apply fill_out. intros Hon.
    by apply (split_loop_disjoint pat j Hon).
Qed.

Lemma rc_new_on_total :
  pymax 0 (pymin 48 (or_zero (expected_minutes q))) == on_total.
Proof.
  rewrite Hexp.
  pose proof rc_totals. pose proof rc_on_total_nonneg.
  pose proof rc_off_total_nonneg.
  set (T := on_total) in *. py_arith.
Qed.

Lemma rc_new_off_total :
  pymax 0 (48 - pymax 0 (pymin 48 (or_zero (expected_minutes q))))
  == off_total.
Proof.
  pose proof rc_new_on_total as Hon.
  set (T := pymax 0 (pymin 48 (or_zero (expected_minutes q)))) in *.
  pose proof rc_totals. pose proof rc_off_total_nonneg.
  unfold pymax. py_case; lra.
Qed.

(** In every stint but the last, the duration recomputed by
    [compute_segments] is the duration the weights came from. *)
Lemma rc_new_durations j tag :
  (S j < L)%nat -> pat !! j = Some tag ->
  getq (durations_loop 0 pat (_ensure_default_percentages q)
          (pymax 0 (pymin 48 (or_zero (expected_minutes q))))
          (pymax 0
             (48 - pymax 0 (pymin 48 (or_zero (expected_minutes q))))))
       j
  == getq durs j.
Proof.
  intros Hj Htag. destruct rc_new_weights as [Hlen Hw].
  rewrite (durations_loop_lookup _ _ _ _ 0%nat j tag Htag).
  cbv zeta. rewrite Nat.add_0_l, Hlen.
  assert ((j <? L)%nat = true) as -> by (apply Nat.ltb_lt; lia).
  rewrite (Hw j tag Hj Htag).
  pose proof (split_loop_tag pat j tag Htag) as Hin.
  pose proof rc_new_on_total as Hon. pose proof rc_new_off_total as Hoff.
  set (on' := pymax 0 (pymin 48 (or_zero (expected_minutes q)))) in *.
  set (off' := pymax 0 (48 - on')) in *.
  assert (forall idx, j ∈ idx -> 0 < pysum (map (getq durs) idx)) as Htot
    by (intros idx; by apply rc_group_total_pos).
  destruct (is_on tag).
  - specialize (Htot _ Hin). change (0 < on_total) in Htot.
    assert (Qltb 0 on' = true) as -> by (apply Qltb_true; lra).
    rewrite share_weights_on by done. fold on_idx. fold on_total.
    apply Qltb_true in Htot as Hb. rewrite Hb.
    by apply Qdiv_mult_cancel.
  - specialize (Htot _ Hin). change (0 < off_total) in Htot.
    assert (Qltb 0 off' = true) as -> by (apply Qltb_true; lra).
    rewrite share_weights_off by done. fold off_idx. fold off_total.
    apply Qltb_true in Htot as Hb. rewrite Hb.
    by apply Qdiv_mult_cancel.
Qed.

End Recompute.

(** ** The segments of an edited player *)

Lemma segs_loop_follow (g : nat -> Q) (durs : list Q) (rest : list string) :
  forall i t,
  t == g i ->
  (forall j, (i <= j)%nat -> (S j < i + length rest)%nat ->
     getq durs j == g (S j) - g j /\ g j <= g (S j) /\ g (S j) <= 48) ->
  forall j seg,
    set_last_end (segs_loop i rest durs t) !! j = Some seg ->
    seg_start seg == g (i + j)%nat
    /\ ((S j < length rest)%nat -> seg_end seg == g (S (i + j)))
    /\ ((S j = length rest)%nat -> seg_end seg = 48).
Proof.
  induction rest as [|tag rest IH]; intros i t Ht Hg j seg Hseg; [done|].
  destruct rest as [|tag' rest].
  - simpl in Hseg. destruct j as [|j]; [|done].
    inversion Hseg; subst seg. rewrite Nat.add_0_r.
    unfold seg_start, seg_end; simpl. split_and!; [done | lia | done].
  - destruct (Hg i) as (Hd & Hle & H48); [lia | simpl; lia|].
    assert (pymin 48 (t + pymax 0 (getq durs i)) == g (S i)) as Hend.
    { set (d := getq durs i) in *. py_arith. }
    change (segs_loop i (tag :: tag' :: rest) durs t)
      with ((t, pymin 48 (t + pymax 0 (getq durs i)), tag)
              :: segs_loop (S i) (tag' :: rest) durs
                   (pymin 48 (t + pymax 0 (getq durs i)))) in Hseg.
    destruct (segs_loop (S i) (tag' :: rest) durs
                (pymin 48 (t + pymax 0 (getq durs i)))) as [|y l] eqn:El.
    { apply (f_equal length) in El. rewrite segs_loop_length in El.
      simpl in El. lia. }
    rewrite set_last_end_cons, <- El in Hseg.
    destruct j as [|j]; simpl in Hseg.
    + inversion Hseg; subst seg. rewrite Nat.add_0_r.
      unfold seg_start, seg_end; simpl.
      split_and!; [done | done | simpl; lia].
    + destruct (IH (S i) _ Hend) with (j := j) (seg := seg)
        as (H1 & H2 & H3); [| done |].
      * intros k Hk1 Hk2. apply Hg; [lia | simpl in *; lia].
      * replace (i + S j)%nat with (S i + j)%nat by lia.
        split_and!; [done | |].
        -- intros Hlt. apply H2. simpl in *. lia.
        -- intros Heq. apply H3. simpl in *. lia.
Qed.

Lemma Qnat_le (a b : nat) : (a <= b)%nat -> Qnat a <= Qnat b.
Proof. intros H. unfold Qnat. rewrite <- Zle_Qle. lia. Qed.

Lemma sanitize_length (L : nat) (ends : list Q) (min_gap : Q) :
  length (sanitize L ends min_gap) = (L - 1)%nat.
Proof. unfold sanitize. by rewrite sanitize_loop_length, length_seq. Qed.

Lemma cut_point_0 L ends min_gap : cut_point L ends min_gap 0 = 0.
Proof. done. Qed.

Lemma cut_point_last L ends min_gap :
  (1 <= L)%nat -> cut_point L ends min_gap L = 48.
Proof.
  intros HL. unfold cut_point. destruct L as [|L]; [lia|].
  rewrite getq_cons_S.
  replace L with (length (sanitize (S L) ends min_gap)) at 2
    by (rewrite sanitize_length; lia).
  apply getq_snoc.
Qed.

Lemma cut_point_start L ends min_gap j :
  (j < L)%nat ->
  getq (0 :: sanitize L ends min_gap) j = cut_point L ends min_gap j.
Proof.
  intros Hj. unfold cut_point.
  change (0 :: sanitize L ends min_gap ++ [48])
    with ((0 :: sanitize L ends min_gap) ++ [48]).
  rewrite getq_app_l; [done|]. simpl. rewrite sanitize_length. lia.
Qed.

Lemma cut_point_lookup L ends min_gap j :
  (S j < L)%nat ->
  (0 :: sanitize L ends min_gap) !! j = Some (cut_point L ends min_gap j)
  /\ sanitize L ends min_gap !! j = Some (cut_point L ends min_gap (S j)).
Proof.
  intros Hj.
  assert (j < length (sanitize L ends min_gap))%nat as Hlt
    by (rewrite sanitize_length; lia).
  assert (j < length (0%Q :: sanitize L ends min_gap))%nat as Hlt'
    by (simpl; lia).
  destruct (lookup_lt_is_Some_2 _ _ Hlt) as [v Hv].
  destruct (lookup_lt_is_Some_2 _ _ Hlt') as [u Hu].
  split.
  - rewrite Hu. f_equal. rewrite <- cut_point_start by lia.
    by rewrite (getq_lookup _ _ _ Hu).
  - rewrite Hv. f_equal. unfold cut_point. rewrite getq_cons_S.
    rewrite getq_app_l by done. by rewrite (getq_lookup _ _ _ Hv).
Qed.

Lemma cut_point_gap L ends min_gap j :
  (S j < L)%nat ->
  cut_point L ends min_gap j + min_gap <= cut_point L ends min_gap (S j).
Proof.
  intros Hj. destruct (cut_point_lookup L ends min_gap j Hj) as [Hp Hv].
  unfold sanitize in Hp, Hv.
  exact (sanitize_loop_gap _ _ _ _ _ _ _ _ Hp Hv).
Qed.

Lemma cut_point_cap L ends min_gap j :
  0 < min_gap -> (Qnat L - 1) * min_gap <= 48 -> (S j < L)%nat ->
  cut_point L ends min_gap (S j) <= 48.
Proof.
  intros Hgap Hroom Hj.
  destruct (cut_point_lookup L ends min_gap j Hj) as [_ Hv].
  unfold sanitize in Hv.
  assert (Qnat L == Qnat (L - 1) + 1) as HQL.
  { replace L with (S (L - 1)) at 1 by lia. apply Qnat_S. }
  rewrite HQL in Hroom.
  assert (0 + Qnat (L - 1) * min_gap <= 48) as Hr by lra.
  assert (0 + (L - 1) = L - 1)%nat as E0 by lia.
  assert (1 <= L)%nat as E1 by lia.
  pose proof (sanitize_loop_room L (take (L - 1) ends) min_gap (L - 1)
                0%nat 0 j (cut_point L ends min_gap (S j)) E0 E1 Hr Hv)
    as Hup.
  simpl in Hup.
  assert (Qnat (S (S j)) <= Qnat L) as Hle by (apply Qnat_le; lia).
  rewrite !Qnat_S in Hle.
  assert (0 <= (Qnat L - 2 - Qnat j) * min_gap) as Hprod.
  { apply Qmult_le_0_compat; lra. }
  lra.
Qed.

Lemma cut_point_mono L ends min_gap j :
  0 < min_gap -> (Qnat L - 1) * min_gap <= 48 -> (j < L)%nat ->
  cut_point L ends min_gap j <= cut_point L ends min_gap (S j)
  /\ cut_point L ends min_gap (S j) <= 48.
Proof.
  intros Hgap Hroom Hj.
  destruct (decide (S j < L)%nat) as [Hlt | Hge].
  - pose proof (cut_point_gap L ends min_gap j Hlt).
    pose proof (cut_point_cap L ends min_gap j Hgap Hroom Hlt). lra.
  - assert (S j = L) as -> by lia.
    rewrite cut_point_last by lia. split; [|lra].
    destruct j as [|j]; [rewrite cut_point_0; lra|].
    apply cut_point_cap; [done | done | lia].
Qed.

Lemma cut_durations_diff L ends min_gap j :
  0 < min_gap -> (Qnat L - 1) * min_gap <= 48 -> (j < L)%nat ->
  getq (cut_durations L ends min_gap) j
  == cut_point L ends min_gap (S j) - cut_point L ends min_gap j.
Proof.
  intros Hgap Hroom Hj. unfold cut_durations.
  rewrite edit_durations_lookup by done.
  rewrite cut_point_start by done.
  change (getq (sanitize L ends min_gap ++ [48]) j)
    with (cut_point L ends min_gap (S j)).
  destruct (cut_point_mono L ends min_gap j Hgap Hroom Hj) as [Hle _].
  set (a := cut_point L ends min_gap (S j)) in *.
  set (b := cut_point L ends min_gap j) in *. py_arith.
Qed.

(** The segments of an edited player sit on the points cut by the
    sanitized boundaries. *)
Lemma edited_segment_points (p : Player) (aid : string) (arch : Archetype)
  (ends : list Q) (min_gap : Q) :
  truthy_id (archetype_id p) = Some aid ->
  get_config !! aid = Some arch ->
  0 < min_gap ->
  (Qnat (length (stint_pattern arch)) - 1) * min_gap <= 48 ->
  forall j seg,
    compute_segments (apply_boundaries p ends min_gap) !! j = Some seg ->
    seg_start seg == cut_point (length (stint_pattern arch)) ends min_gap j
    /\ seg_end seg
       == cut_point (length (stint_pattern arch)) ends min_gap (S j).
Proof.
  intros Hid Hget Hgap Hroom.
  pose proof (catalog_pattern_nonempty aid arch Hget) as HL.
  set (L := length (stint_pattern arch)) in *.
  set (q := apply_boundaries p ends min_gap).
  assert (q = set_edit p
                (pymax 0
                   (pymin 48
                      (pysum
                         (map (getq (cut_durations L ends min_gap))
                            (split_loop 0 (stint_pattern arch)).1))))
                (share_weights (stint_pattern arch)
                   (cut_durations L ends min_gap))) as Hq
    by apply (apply_boundaries_shares p aid arch ends min_gap Hid Hget).
  assert (truthy_id (archetype_id q) = Some aid) as Hidq
    by (by rewrite Hq).
  assert (forall j tag, (S j < L)%nat -> stint_pattern arch !! j = Some tag ->
            getq (durations_loop 0 (stint_pattern arch)
                    (_ensure_default_percentages q)
                    (pymax 0 (pymin 48 (or_zero (expected_minutes q))))
                    (pymax 0
                       (48 - pymax 0
                               (pymin 48 (or_zero (expected_minutes q))))))
                 j
            == cut_point L ends min_gap (S j) - cut_point L ends min_gap j)
    as Hdur.
  { intros j tag Hj Htag.
    rewrite <- (cut_durations_diff L ends min_gap j Hgap Hroom) by lia.
    apply (rc_new_durations q aid arch (cut_durations L ends min_gap)
             Hidq Hget) with (tag := tag); try done.
    - by rewrite Hq.
    - by rewrite Hq.
    - apply cut_durations_nonneg.
    - rewrite (sum_range_telescope _ (cut_point L ends min_gap) _ 0%nat).
      + fold L. simpl. rewrite cut_point_last by lia.
        rewrite cut_point_0. lra.
      + intros i Hi. apply cut_durations_diff; [done | done |]. fold L in Hi.
        lia.
    - intros i Hi. fold L in Hi.
      rewrite cut_durations_diff by (done || lia).
      pose proof (cut_point_gap L ends min_gap i Hi). lra. }
  rewrite (compute_segments_resolved q aid arch Hidq Hget). cbv zeta.
  set (durs1 := durations_loop 0 _ _ _ _) in *.
  intros j seg Hseg.
  pose proof (lookup_lt_Some _ _ _ Hseg) as Hj.
  rewrite set_last_end_length, segs_loop_length in Hj. fold L in Hj.
  destruct (segs_loop_follow (cut_point L ends min_gap) durs1
              (stint_pattern arch) 0%nat 0) with (j := j) (seg := seg)
    as (H1 & H2 & H3); [reflexivity | | done |].
  - intros i _ Hi. fold L in Hi.
    assert (i < length (stint_pattern arch))%nat as Hil
      by (fold L; lia).
    destruct (lookup_lt_is_Some_2 _ _ Hil) as [tag Htag].
    split; [apply (Hdur i tag); [lia | done]|].
    apply cut_point_mono; [done | done | lia].
  - simpl in H1. split; [done|]. fold L in H2, H3.
    destruct (decide (S j < L)%nat) as [Hlt | Hge].
    + by apply H2.
    + assert (S j = L) as E by lia. rewrite (H3 E), E.
      by rewrite cut_point_last by lia.
Qed.

Lemma edited_segments_shape (p : Player) (aid : string) (arch : Archetype)
  (ends : list Q) (min_gap : Q) :
  truthy_id (archetype_id p) = Some aid ->
  get_config !! aid = Some arch ->
  length (compute_segments (apply_boundaries p ends min_gap))
    = length (stint_pattern arch)
  /\ map seg_tag (compute_segments (apply_boundaries p ends min_gap))
     = stint_pattern arch.
Proof.
  intros Hid Hget.
  assert (truthy_id (archetype_id (apply_boundaries p ends min_gap))
          = Some aid) as Hidq
    by (by rewrite (apply_boundaries_shares p aid arch ends min_gap Hid Hget)).
  rewrite (compute_segments_resolved _ aid arch Hidq Hget). cbv zeta.
  split.
  - by rewrite set_last_end_length, segs_loop_length.
  - by rewrite set_last_end_tags, segs_loop_tags.
Qed.

(** After [apply_boundaries] with a gap [min_gap > 0] that leaves room for
    the boundaries, [(L - 1) * min_gap <= 48], the segments computed from
    the edited player are the ones the sanitized boundaries cut: they
    start at 0 and at each boundary, end at each boundary and at 48, and
    carry the tags of the pattern. *)
Theorem edit_then_compute (p : Player) (arch : Archetype) (ends : list Q)
  (min_gap : Q) :
  resolve p = Some arch ->
  0 < min_gap ->
  (Qnat (length (stint_pattern arch)) - 1) * min_gap <= 48 ->
  Forall2 Qeq
    (map seg_start (compute_segments (apply_boundaries p ends min_gap)))
    (0 :: sanitize (length (stint_pattern arch)) ends min_gap)
  /\ Forall2 Qeq
       (map seg_end (compute_segments (apply_boundaries p ends min_gap)))
       (sanitize (length (stint_pattern arch)) ends min_gap ++ [48])
  /\ map seg_tag (compute_segments (apply_boundaries p ends min_gap))
     = stint_pattern arch.
Proof.
  intros Hres Hgap Hroom.
  destruct (resolve_lookup _ _ Hres) as (aid & Hid & Hget).
  pose proof (catalog_pattern_nonempty aid arch Hget) as HL.
  pose proof (edited_segment_points p aid arch ends min_gap Hid Hget
                Hgap Hroom) as Hpts.
  destruct (edited_segments_shape p aid arch ends min_gap Hid Hget)
    as [Hlen Htags].
  set (L := length (stint_pattern arch)) in *.
  split_and!; [| | done].
  - apply Forall2_same_length_lookup_2.
    + rewrite length_map, Hlen. simpl. rewrite sanitize_length. lia.
    + intros j x y Hx Hy. rewrite list_lookup_fmap in Hx.
      destruct (compute_segments _ !! j) as [seg|] eqn:Hseg; [|done].
      simpl in Hx. inversion Hx; subst x.
      destruct (Hpts j seg Hseg) as [Hs _]. rewrite Hs.
      pose proof (lookup_lt_Some _ _ _ Hy) as Hj. simpl in Hj.
      rewrite sanitize_length in Hj.
      rewrite <- (getq_lookup _ _ _ Hy). rewrite cut_point_start; [done|].
      lia.
  - apply Forall2_same_length_lookup_2.
    + rewrite length_map, Hlen, length_app, sanitize_length. simpl. lia.
    + intros j x y Hx Hy. rewrite list_lookup_fmap in Hx.
      destruct (compute_segments _ !! j) as [seg|] eqn:Hseg; [|done].
      simpl in Hx. inversion Hx; subst x.
      destruct (Hpts j seg Hseg) as [_ He]. rewrite He.
      rewrite <- (getq_lookup _ _ _ Hy). reflexivity.
Qed.

Lemma edit_then_compute_witness :
  resolve bench30 = Some bench_archetype
  /\ 0 < 0.5
  /\ (Qnat (length (stint_pattern bench_archetype)) - 1) * 0.5 <= 48
  /\ Forall2 Qeq
       (map seg_start (compute_segments (apply_boundaries bench30 [40; 7] 0.5)))
       (0 :: sanitize (length (stint_pattern bench_archetype)) [40; 7] 0.5)
  /\ Forall2 Qeq
       (map seg_end (compute_segments (apply_boundaries bench30 [40; 7] 0.5)))
       (sanitize (length (stint_pattern bench_archetype)) [40; 7] 0.5 ++ [48])
  /\ map seg_tag (compute_segments (apply_boundaries bench30 [40; 7] 0.5))
     = stint_pattern bench_archetype.
Proof.
  assert (0 < 0.5) as Hgap by reflexivity.
  assert ((Qnat (length (stint_pattern bench_archetype)) - 1) * 0.5 <= 48)
    as Hroom by (vm_compute; discriminate).
  split; [reflexivity|]. split; [exact Hgap|]. split; [exact Hroom|].
  exact (edit_then_compute bench30 bench_archetype [40; 7] 0.5 eq_refl
           Hgap Hroom).
Defined.

(** ** Expected minutes after an edit *)

Lemma pysum_map_ext (f h : nat -> Q) (idx : list nat) :
  (forall j, j ∈ idx -> f j == h j) ->
  pysum (map f idx) == pysum (map h idx).
Proof.
  induction idx as [|k idx IH]; intros H; simpl; [reflexivity|].
  rewrite !pysum_cons, IH.
  - rewrite (H k) by apply list_elem_of_here. reflexivity.
  - intros j Hj. apply H. by apply list_elem_of_further.
Qed.

Lemma on_court_minutes_indexed (segs : list Segment) :
  forall i,
  on_court_minutes segs
  == pysum (map (fun j => default 0 (seg_width <$> segs !! (j - i)%nat))
              (split_loop i (map seg_tag segs)).1).
Proof.
  unfold on_court_minutes.
  induction segs as [|s segs IH]; intros i; simpl; [reflexivity|].
  specialize (IH (S i)).
  pose proof (split_loop_on (map seg_tag segs) (S i)) as Hon.
  destruct (split_loop (S i) (map seg_tag segs)) as [on off].
  simpl in IH, Hon.
  assert (pysum (map (fun j => default 0 (seg_width <$> segs !! (j - S i)%nat))
                   on)
          == pysum (map (fun j => default 0
                                    (seg_width <$> (s :: segs) !! (j - i)%nat))
                      on)) as Hshift.
  { apply pysum_map_ext. intros j Hj. apply Hon in Hj as [Hle _].
    replace (j - i)%nat with (S (j - S i)) by lia. reflexivity. }
  destruct (is_on (seg_tag s)); simpl.
  - rewrite !pysum_cons, IH, Hshift, Nat.sub_diag. reflexivity.
  - by rewrite IH, Hshift.
Qed.

(** After [apply_boundaries] with a gap [min_gap > 0] that leaves room for
    the boundaries, the player's [expected_minutes] is the total width of
    the "on" segments that [compute_segments] returns for the edited
    player. *)
Theorem edit_sets_minutes_on_court (p : Player) (arch : Archetype)
  (ends : list Q) (min_gap : Q) :
  resolve p = Some arch ->
  0 < min_gap ->
  (Qnat (length (stint_pattern arch)) - 1) * min_gap <= 48 ->
  expected_minutes (apply_boundaries p ends min_gap)
  == on_court_minutes (compute_segments (apply_boundaries p ends min_gap)).
Proof.
  intros Hres Hgap Hroom.
  destruct (resolve_lookup _ _ Hres) as (aid & Hid & Hget).
  pose proof (catalog_pattern_nonempty aid arch Hget) as HL.
  pose proof (edited_segment_points p aid arch ends min_gap Hid Hget
                Hgap Hroom) as Hpts.
  destruct (edited_segments_shape p aid arch ends min_gap Hid Hget)
    as [Hlen Htags].
  rewrite (on_court_minutes_indexed _ 0%nat), Htags.
  set (segs := compute_segments (apply_boundaries p ends min_gap)) in *.
  set (L := length (stint_pattern arch)) in *.
  set (D := cut_durations L ends min_gap).
  assert (pysum (map (fun j => default 0
                                 (seg_width <$> segs !! (j - 0)%nat))
                   (split_loop 0 (stint_pattern arch)).1)
          == pysum (map (getq D) (split_loop 0 (stint_pattern arch)).1))
    as ->.
  { apply pysum_map_ext. intros j Hj. rewrite Nat.sub_0_r.
    assert (j < L)%nat as HjL
      by (apply (split_loop_bound (stint_pattern arch)); by left).
    assert (j < length segs)%nat as Hjs by (rewrite Hlen; done).
    destruct (lookup_lt_is_Some_2 _ _ Hjs) as [seg Hseg].
    rewrite Hseg. simpl. destruct (Hpts j seg Hseg) as [Hs He].
    unfold seg_width, D. rewrite Hs, He.
    by rewrite (cut_durations_diff L ends min_gap j Hgap Hroom HjL). }
  rewrite (apply_boundaries_shares p aid arch ends min_gap Hid Hget).
  simpl expected_minutes. fold L D.
  assert (pysum (map (getq D) (split_loop 0 (stint_pattern arch)).1)
          + pysum (map (getq D) (split_loop 0 (stint_pattern arch)).2)
          == 48) as Htot.
  { rewrite (split_loop_sum (getq D) (stint_pattern arch) 0).
    rewrite (sum_range_telescope _ (cut_point L ends min_gap) _ 0%nat).
    - fold L. simpl. rewrite cut_point_last by lia.
      rewrite cut_point_0. lra.
    - intros i Hi. apply cut_durations_diff; [done | done |]. fold L in Hi.
      lia. }
  assert (0 <= pysum (map (getq D) (split_loop 0 (stint_pattern arch)).1))
    as Hon.
  { apply pysum_nonneg, Forall_forall. intros k _.
    apply cut_durations_nonneg. }
  assert (0 <= pysum (map (getq D) (split_loop 0 (stint_pattern arch)).2))
    as Hoff.
  { apply pysum_nonneg, Forall_forall. intros k _.
    apply cut_durations_nonneg. }
  apply clamp_id. lra.
Qed.

Lemma edit_sets_minutes_on_court_witness :
  resolve bench30 = Some bench_archetype
  /\ 0 < 0.5
  /\ (Qnat (length (stint_pattern bench_archetype)) - 1) * 0.5 <= 48
  /\ expected_minutes (apply_boundaries bench30 [40; 7] 0.5)
     == on_court_minutes
          (compute_segments (apply_boundaries bench30 [40; 7] 0.5)).
Proof.
  assert (0 < 0.5) as Hgap by reflexivity.
  assert ((Qnat (length (stint_pattern bench_archetype)) - 1) * 0.5 <= 48)
    as Hroom by (vm_compute; discriminate).
  split; [reflexivity|]. split; [exact Hgap|]. split; [exact Hroom|].
  exact (edit_sets_minutes_on_court bench30 bench_archetype [40; 7] 0.5
           eq_refl Hgap Hroom).
Defined.

(** ** The default weights *)

Lemma fill_in idx eq raw j :
  j ∈ idx -> (j < length raw)%nat -> getq (fill idx eq raw) j = eq.
Proof.
  unfold fill. revert raw.
  induction idx as [|i idx IH]; intros raw Hj Hlen; simpl.
  - by apply elem_of_nil in Hj.
  - destruct (decide (j ∈ idx)) as [Hin | Hout].
    + apply IH; [done | by rewrite length_insert].
    + apply elem_of_cons in Hj as [-> | Hj]; [|done].
      change (getq (fill idx eq (<[i := eq]> raw)) i = eq).
      rewrite fill_out by done.
      unfold getq. by rewrite list_lookup_insert_eq.
Qed.

Lemma getq_padded (l : list Q) (n j : nat) :
  getq (l ++ replicate n 0) j = getq l j.
Proof.
  unfold getq. destruct (decide (j < length l)%nat) as [Hlt | Hge].
  - by rewrite lookup_app_l.
  - rewrite lookup_app_r by lia. rewrite (lookup_ge_None_2 l j) by lia.
    destruct (replicate n 0 !! (j - length l)%nat) as [x|] eqn:E; [|done].
    by apply lookup_replicate in E as [-> _].
Qed.

Lemma nonempty_elem {A} (l : list A) (x : A) : x ∈ l -> nonempty l = true.
Proof. destruct l; [intros H; by apply elem_of_nil in H | done]. Qed.

Lemma ensure_lookup (p : Player) (arch : Archetype) :
  resolve p = Some arch ->
  length (_ensure_default_percentages p) = length (stint_pattern arch)
  /\ forall j tag,
       stint_pattern arch !! j = Some tag ->
       getq (_ensure_default_percentages p) j
       = let idx := if is_on tag then (split_loop 0 (stint_pattern arch)).1
                    else (split_loop 0 (stint_pattern arch)).2 in
         if Qeq_bool (pysum (map (getq (stints_raw p)) idx)) 0
         then 1 / Qnat (length idx)
         else getq (stints_raw p) j.
Proof.
  intros Hres. destruct (resolve_lookup _ _ Hres) as (aid & Hid & Hget).
  rewrite (ensure_default_percentages_resolved p aid arch Hid Hget).
  cbv zeta.
  set (pat := stint_pattern arch). set (L := length pat).
  set (raw0 := stints_raw p ++ replicate (L - length (stints_raw p)) 0).
  set (on_idx := (split_loop 0 pat).1). set (off_idx := (split_loop 0 pat).2).
  assert (map (getq raw0) on_idx = map (getq (stints_raw p)) on_idx) as ->
    by (apply map_ext; intros j; apply getq_padded).
  assert (map (getq raw0) off_idx = map (getq (stints_raw p)) off_idx) as ->
    by (apply map_ext; intros j; apply getq_padded).
  assert (L <= length raw0)%nat as Hlen0.
  { unfold raw0. rewrite length_app, length_replicate. lia. }
  set (on_fill := nonempty on_idx
                  && Qeq_bool (pysum (map (getq (stints_raw p)) on_idx)) 0).
  set (off_fill := nonempty off_idx
                   && Qeq_bool (pysum (map (getq (stints_raw p)) off_idx)) 0).
  set (raw1 := if on_fill
               then fill on_idx (1 / Qnat (length on_idx)) raw0 else raw0).
  set (raw2 := if off_fill
               then fill off_idx (1 / Qnat (length off_idx)) raw1 else raw1).
  assert (length raw1 = length raw0) as Hlen1.
  { unfold raw1. destruct on_fill; [apply fill_length | done]. }
  assert (length raw2 = length raw0) as Hlen2.
  { unfold raw2. destruct off_fill; [by rewrite fill_length | done]. }
  split; [rewrite length_take; lia|].
  intros j tag Htag.
  pose proof (lookup_lt_Some _ _ _ Htag) as Hj. fold L in Hj.
  rewrite getq_take by done.
  pose proof (split_loop_tag pat j tag Htag) as Hin.
  destruct (is_on tag).
  - fold on_idx in Hin |- *.
    assert (j ∉ off_idx) as Hout by (by apply split_loop_disjoint).
    assert (getq raw2 j = getq raw1 j) as ->.
    { unfold raw2. destruct off_fill; [by apply fill_out | done]. }
    unfold raw1, on_fill. rewrite (nonempty_elem on_idx j Hin). simpl.
    destruct (Qeq_bool (pysum (map (getq (stints_raw p)) on_idx)) 0).
    + apply fill_in; [done | lia].
    + apply getq_padded.
  - fold off_idx in Hin |- *.
    assert (j ∉ on_idx) as Hout.
    { intros Hon. by apply (split_loop_disjoint pat j Hon). }
    unfold raw2, off_fill. rewrite (nonempty_elem off_idx j Hin). simpl.
    destruct (Qeq_bool (pysum (map (getq (stints_raw p)) off_idx)) 0).
    + apply fill_in; [done | lia].
    + unfold raw1. destruct on_fill; [rewrite fill_out by done|];
        apply getq_padded.
Qed.

(** For weights that are not negative, the sum of a group is 0 exactly
    when every weight of the group is 0. *)
Lemma zero_sum_all_zero (f : nat -> Q) (idx : list nat) :
  (forall k, 0 <= f k) ->
  Qeq_bool (pysum (map f idx)) 0 = forallb (fun i => Qeq_bool (f i) 0) idx.
Proof.
  intros Hf. induction idx as [|k idx IH]; [done|].
  simpl map. simpl forallb. rewrite <- IH.
  pose proof (Hf k) as Hk.
  assert (0 <= pysum (map f idx)) as Hrest
    by (apply pysum_nonneg, Forall_forall; intros; apply Hf).
  pose proof (pysum_cons (f k) (map f idx)) as Hsum.
  destruct (Qeq_bool (f k) 0) eqn:E1;
    destruct (Qeq_bool (pysum (map f idx)) 0) eqn:E2; simpl.
  - apply Qeq_bool_iff in E1, E2. apply Qeq_bool_iff. lra.
  - apply Qeq_bool_iff in E1. apply Qeq_bool_false in E2.
    apply Qeq_bool_false. intros Hz. apply E2. lra.
  - apply Qeq_bool_false in E1.
    apply Qeq_bool_false. intros Hz. apply E1. lra.
  - apply Qeq_bool_false in E1.
    apply Qeq_bool_false. intros Hz. apply E1. lra.
Qed.

(** For a player with a resolvable archetype of [L] stints and weights
    that are not negative, [_ensure_default_percentages] returns [L]
    weights; a missing weight counts as 0; a stint whose group ("on" or
    "off") has no weight other than 0, which is when the group's sum is 0,
    gets the equal share [1 / group size], and every other stint keeps
    its weight. *)
Theorem ensure_default_percentages_fill (p : Player) (arch : Archetype) :
  resolve p = Some arch ->
  (forall j, 0 <= getq (stints_raw p) j) ->
  length (_ensure_default_percentages p) = length (stint_pattern arch)
  /\ forall j tag,
       stint_pattern arch !! j = Some tag ->
       getq (_ensure_default_percentages p) j
       = let idx := if is_on tag then (split_loop 0 (stint_pattern arch)).1
                    else (split_loop 0 (stint_pattern arch)).2 in
         if forallb (fun i => Qeq_bool (getq (stints_raw p) i) 0) idx
         then 1 / Qnat (length idx)
         else getq (stints_raw p) j.
Proof.
  intros Hres Hraw. destruct (ensure_lookup p arch Hres) as [Hlen Hlk].
  split; [exact Hlen|]. intros j tag Htag.
  rewrite (Hlk j tag Htag). cbv zeta.
  by rewrite (zero_sum_all_zero (getq (stints_raw p)) _ Hraw).
Qed.

Lemma ensure_default_percentages_fill_witness :
  resolve bench_partial = Some bench_archetype
  /\ length (_ensure_default_percentages bench_partial)
     = length (stint_pattern bench_archetype)
  /\ getq (_ensure_default_percentages bench_partial) 1 = 1 / Qnat 1.
Proof.
  assert (forall j, 0 <= getq (stints_raw bench_partial) j) as Hraw.
  { intros j. do 2 (destruct j as [|j]; [vm_compute; discriminate|]).
    vm_compute; discriminate. }
  split; [reflexivity|].
  destruct (ensure_default_percentages_fill bench_partial bench_archetype
              eq_refl Hraw) as [Hlen Hlk].
  split; [exact Hlen|].
  exact (Hlk 1%nat "on" eq_refl).
Defined.

Lemma pysum_constant (c : Q) (idx : list nat) :
  pysum (map (fun _ => c) idx) == Qnat (length idx) * c.
Proof.
  induction idx as [|k idx IH]; simpl length.
  - change (Qnat 0) with 0. unfold pysum. simpl. lra.
  - simpl map. rewrite pysum_cons, IH, Qnat_S. lra.
Qed.

Lemma ensure_group_sum (p : Player) (arch : Archetype)
  (j : nat) (tag : string) :
  resolve p = Some arch ->
  stint_pattern arch !! j = Some tag ->
  let idx := if is_on tag then (split_loop 0 (stint_pattern arch)).1
             else (split_loop 0 (stint_pattern arch)).2 in
  pysum (map (getq (_ensure_default_percentages p)) idx)
  == (if Qeq_bool (pysum (map (getq (stints_raw p)) idx)) 0 then 1
      else pysum (map (getq (stints_raw p)) idx))
  /\ ~ pysum (map (getq (_ensure_default_percentages p)) idx) == 0.
Proof.
  intros Hres Htag idx.
  destruct (ensure_lookup p arch Hres) as [_ Hlk].
  pose proof (split_loop_tag (stint_pattern arch) j tag Htag) as Hin.
  assert (j ∈ idx) as Hj by (unfold idx; by destruct (is_on tag)).
  assert (forall k, k ∈ idx ->
            getq (_ensure_default_percentages p) k
            = if Qeq_bool (pysum (map (getq (stints_raw p)) idx)) 0
              then 1 / Qnat (length idx) else getq (stints_raw p) k) as Hk.
  { intros k Hkin. unfold idx in Hkin |- *. destruct (is_on tag) eqn:Etag.
    - apply split_loop_on in Hkin as Hk'.
      destruct Hk' as (_ & tag' & Htag' & Hon').
      rewrite Nat.sub_0_r in Htag'.
      rewrite (Hlk k tag' Htag'). cbv zeta. by rewrite Hon'.
    - apply split_loop_off in Hkin as Hk'.
      destruct Hk' as (_ & tag' & Htag' & Hon').
      rewrite Nat.sub_0_r in Htag'.
      rewrite (Hlk k tag' Htag'). cbv zeta. by rewrite Hon'. }
  assert (pysum (map (getq (_ensure_default_percentages p)) idx)
          == (if Qeq_bool (pysum (map (getq (stints_raw p)) idx)) 0 then 1
              else pysum (map (getq (stints_raw p)) idx))) as Hsum.
  { destruct (Qeq_bool (pysum (map (getq (stints_raw p)) idx)) 0) eqn:E.
    - rewrite (pysum_map_ext _ (fun _ => 1 / Qnat (length idx)) idx).
      + rewrite pysum_constant. field.
        assert (1 <= length idx)%nat as Hlen.
        { destruct idx; [by apply elem_of_nil in Hj | simpl; lia]. }
        apply Qnat_le in Hlen. change (Qnat 1) with 1 in Hlen. lra.
      + intros k Hkin. by rewrite (Hk k Hkin).
    - apply pysum_map_ext. intros k Hkin. by rewrite (Hk k Hkin). }
  split; [exact Hsum|].
  rewrite Hsum.
  destruct (Qeq_bool (pysum (map (getq (stints_raw p)) idx)) 0) eqn:E.
  - lra.
  - by apply Qeq_bool_false.
Qed.

(** For weights that are not negative, after
    [_ensure_default_percentages] the weights of the group of any stint
    add up to 1 when the group had no weight other than 0, and to what
    they added up to otherwise; either way the group's total is
    positive. *)
Theorem ensure_default_percentages_group_sum (p : Player) (arch : Archetype)
  (j : nat) (tag : string) :
  resolve p = Some arch ->
  (forall k, 0 <= getq (stints_raw p) k) ->
  stint_pattern arch !! j = Some tag ->
  let idx := if is_on tag then (split_loop 0 (stint_pattern arch)).1
             else (split_loop 0 (stint_pattern arch)).2 in
  pysum (map (getq (_ensure_default_percentages p)) idx)
  == (if forallb (fun i => Qeq_bool (getq (stints_raw p) i) 0) idx then 1
      else pysum (map (getq (stints_raw p)) idx))
  /\ 0 < pysum (map (getq (_ensure_default_percentages p)) idx).
Proof.
  intros Hres Hraw Htag idx.
  destruct (ensure_group_sum p arch j tag Hres Htag) as [Hsum Hnz].
  fold idx in Hsum, Hnz.
  rewrite (zero_sum_all_zero (getq (stints_raw p)) idx Hraw) in Hsum.
  split; [exact Hsum|].
  assert (0 <= pysum (map (getq (stints_raw p)) idx)) as Hge
    by (apply pysum_nonneg, Forall_forall; intros; apply Hraw).
  rewrite Hsum in Hnz |- *.
  destruct (forallb _ idx); lra.
Qed.

Lemma ensure_default_percentages_group_sum_witness :
  resolve bench_partial = Some bench_archetype
  /\ stint_pattern bench_archetype !! 1%nat = Some "on"
  /\ (let idx := if is_on "on"
                 then (split_loop 0 (stint_pattern bench_archetype)).1
                 else (split_loop 0 (stint_pattern bench_archetype)).2 in
      pysum (map (getq (_ensure_default_percentages bench_partial)) idx)
      == (if forallb
               (fun i => Qeq_bool (getq (stints_raw bench_partial) i) 0) idx
          then 1
          else pysum (map (getq (stints_raw bench_partial)) idx))
      /\ 0 < pysum (map (getq (_ensure_default_percentages bench_partial))
                      idx)).
Proof.
  assert (forall j, 0 <= getq (stints_raw bench_partial) j) as Hraw.
  { intros j. do 2 (destruct j as [|j]; [vm_compute; discriminate|]).
    vm_compute; discriminate. }
  split; [reflexivity|]. split; [reflexivity|].
  exact (ensure_default_percentages_group_sum bench_partial bench_archetype
           1%nat "on" eq_refl Hraw eq_refl).
Defined.

(** ** The weights of the two groups *)

Lemma pysum_present (l : list Q) (idx : list nat) :
  pysum (map (getq l) (List.filter (fun i => (i <? length l)%nat) idx))
  == pysum (map (getq l) idx).
Proof.
  induction idx as [|k idx IH]; simpl; [reflexivity|].
  destruct (k <? length l)%nat eqn:E; simpl.
  - by rewrite !pysum_cons, IH.
  - rewrite pysum_cons, IH.
    apply Nat.ltb_ge in E. unfold getq at 2.
    rewrite (lookup_ge_None_2 l k) by lia. simpl. lra.
Qed.

Lemma sum_range_take (l : list Q) (n : nat) :
  forall i, sum_range (getq l) i n == pysum (take n (drop i l)).
Proof.
  induction n as [|n IH]; intros i; simpl.
  - rewrite take_0. reflexivity.
  - rewrite (IH (S i)).
    destruct (l !! i) as [x|] eqn:E.
    + rewrite (drop_S l x i E). simpl.
      rewrite pysum_cons, (getq_lookup l i x E). reflexivity.
    + unfold getq. rewrite E. simpl.
      apply lookup_ge_None_1 in E.
      rewrite !drop_ge by lia. rewrite take_nil. unfold pysum. simpl. lra.
Qed.

(** [split_on_off_sums] returns nothing exactly when the archetype id is
    absent or empty; for an id unknown to the catalog both sums are 0; for
    a resolvable archetype of [L] stints the two sums add up to the sum of
    the first [L] weights of the player. *)
Theorem split_on_off_sums_total (p : Player) :
  (split_on_off_sums p = None <-> truthy_id (archetype_id p) = None)
  /\ (forall aid, truthy_id (archetype_id p) = Some aid ->
        get_config !! aid = None ->
        split_on_off_sums p = Some (pysum [], pysum []))
  /\ (forall arch, resolve p = Some arch ->
        exists on_sum off_sum,
          split_on_off_sums p = Some (on_sum, off_sum)
          /\ on_sum + off_sum
             == pysum (take (length (stint_pattern arch)) (stints_raw p))).
Proof.
  split_and!.
  - unfold split_on_off_sums.
    destruct (truthy_id (archetype_id p)) as [aid|]; [|done].
    destruct (split_on_off_indices aid). done.
  - intros aid Hid Hget. unfold split_on_off_sums, split_on_off_indices.
    by rewrite Hid, Hget.
  - intros arch Hres.
    destruct (resolve_lookup _ _ Hres) as (aid & Hid & Hget).
    unfold split_on_off_sums.
    rewrite Hid, (split_on_off_indices_resolved aid arch Hget).
    eexists _, _. split; [reflexivity|].
    rewrite !pysum_present.
    rewrite (split_loop_sum (getq (stints_raw p)) (stint_pattern arch) 0).
    rewrite sum_range_take. by rewrite drop_0.
Qed.

(** ** Team totals *)

Lemma round_half_even_range (y : Q) :
  inject_Z (round_half_even y) - (1 # 2) <= y
  /\ y <= inject_Z (round_half_even y) + (1 # 2).
Proof.
  unfold round_half_even. cbv zeta.
  pose proof (Qfloor_le y) as Hlo. pose proof (Qlt_floor y) as Hhi.
  rewrite inject_Z_plus in Hhi. change (inject_Z 1) with 1 in Hhi.
  set (f := Qfloor y) in *.
  repeat py_case; try destruct (Z.even f);
    rewrite ?inject_Z_plus; change (inject_Z 1) with 1; lra.
Qed.

(** Rounding to the grid never leaves an interval whose ends are whole
    numbers. *)
Lemma pyround6_between (x : Q) (a b : Z) :
  inject_Z a <= x <= inject_Z b ->
  inject_Z a <= pyround6 x <= inject_Z b.
Proof.
  intros [Ha Hb]. unfold pyround6.
  destruct (round_half_even_range (x * 1000000)) as [Hlo Hhi].
  set (k := round_half_even (x * 1000000)) in *.
  assert (a * 1000000 <= k <= b * 1000000)%Z as [Hk1 Hk2].
  { split.
    - apply Z.lt_pred_le. rewrite Zlt_Qlt. unfold Z.pred.
      rewrite inject_Z_plus, inject_Z_mult.
      change (inject_Z 1000000) with 1000000.
      change (inject_Z (-1)) with (-1). lra.
    - apply Z.lt_succ_r. rewrite Zlt_Qlt. unfold Z.succ.
      rewrite inject_Z_plus, inject_Z_mult.
      change (inject_Z 1000000) with 1000000.
      change (inject_Z 1) with 1. lra. }
  rewrite Zle_Qle, inject_Z_mult in Hk1, Hk2.
  change (inject_Z 1000000) with 1000000 in Hk1, Hk2.
  split.
  - apply Qle_shift_div_l; [reflexivity | lra].
  - apply Qle_shift_div_r; [reflexivity | lra].
Qed.

Lemma clamped_sum_range (f : Player -> Q) (hi : Q) (ps : list Player) :
  (forall p, 0 <= f p <= hi) ->
  0 <= pysum (map f ps) <= Qnat (length ps) * hi.
Proof.
  intros Hf. induction ps as [|p ps IH]; simpl length.
  - change (Qnat 0) with 0. unfold pysum. simpl. lra.
  - simpl map. rewrite pysum_cons, Qnat_S. specialize (Hf p). lra.
Qed.

Lemma team_sums_range (team : Team) :
  0 <= closer_sum team <= Qnat (length (players team))
  /\ 0 <= expected_minutes_sum team <= 48 * Qnat (length (players team)).
Proof.
  split.
  - unfold closer_sum.
    apply (pyround6_between _ 0%Z (Z.of_nat (length (players team)))).
    change (inject_Z 0) with 0. fold (Qnat (length (players team))).
    pose proof (clamped_sum_range
                  (fun p => pymax 0 (pymin 1 (closer_weighting p))) 1
                  (players team)) as H.
    assert (forall p : Player,
              0 <= pymax 0 (pymin 1 (closer_weighting p)) <= 1) as Hf
      by (intros p; apply clamp_range; lra).
    specialize (H Hf). lra.
  - unfold expected_minutes_sum.
    assert (48 * Qnat (length (players team))
            == inject_Z (48 * Z.of_nat (length (players team)))) as ->.
    { rewrite inject_Z_mult. reflexivity. }
    apply (pyround6_between _ 0%Z).
    rewrite inject_Z_mult. change (inject_Z 0) with 0.
    change (inject_Z 48) with 48. fold (Qnat (length (players team))).
    pose proof (clamped_sum_range
                  (fun p => pymax 0 (pymin 48 (or_zero (expected_minutes p))))
                  48 (players team)) as H.
    assert (forall p : Player,
              0 <= pymax 0 (pymin 48 (or_zero (expected_minutes p))) <= 48)
      as Hf by (intros p; apply clamp_range; lra).
    specialize (H Hf). lra.
Qed.

(** [closer_sum] lies between 0 and the number of players, and
    [expected_minutes_sum] between 0 and 48 times that number, whatever
    the weightings and minutes of the players are. *)
Theorem team_sums_bounded (team : Team) :
  0 <= closer_sum team <= Qnat (length (players team))
  /\ 0 <= expected_minutes_sum team <= 48 * Qnat (length (players team)).
Proof. apply team_sums_range. Qed.


(** With fewer than five players a team can pass neither check: the
    closer total stays below 5 and the expected minutes below 240 by more
    than the tolerance, so both statuses are "bad". *)
Theorem short_roster_is_flagged (team : Team) :
  (length (players team) < 5)%nat ->
  closer_status (closer_sum team) 0.01 = "bad"
  /\ expected_minutes_status (expected_minutes_sum team) 240 0.01 = "bad".
Proof.
  intros Hn. destruct (team_sums_range team) as [[_ Hc] [_ He]].
  assert (Qnat (length (players team)) <= 4) as Hq.
  { change 4 with (Qnat 4). apply Qnat_le. lia. }
  split.
  - unfold closer_status.
    destruct (Qle_bool (Qabs (closer_sum team - 5)) 0.01) eqn:E; [|done].
    apply Qle_bool_iff, Qabs_Qle_condition in E as [E _]. lra.
  - unfold expected_minutes_status.
    destruct (Qle_bool (Qabs (expected_minutes_sum team - 240)) 0.01) eqn:E;
      [|done].
    apply Qle_bool_iff, Qabs_Qle_condition in E as [E _]. lra.
Qed.

Lemma short_roster_is_flagged_witness :
  (length (players short_team) < 5)%nat
  /\ closer_status (closer_sum short_team) 0.01 = "bad"
  /\ expected_minutes_status (expected_minutes_sum short_team) 240 0.01
     = "bad".
Proof.
  assert (length (players short_team) < 5)%nat as Hn by (simpl; lia).
  split; [exact Hn|].
  exact (short_roster_is_flagged short_team Hn).
Defined.

(** ** The count never exceeds the roster *)

Lemma event_ltb_trans (a b c : Event) :
  event_ltb a b = true -> event_ltb b c = true -> event_ltb a c = true.
Proof.
  rewrite !event_ltb_true.
  intros [H1 | [H1 H1']] [H2 | [H2 H2']].
  - left. lra.
  - left. lra.
  - left. lra.
  - right. split; [lra | lia].
Qed.

Lemma in_before_out (s e : Q) :
  s < e -> event_ltb (s, 1%Z) (e, (-1)%Z) = true.
Proof. intros H. apply event_ltb_true. by left. Qed.

Lemma capped_weaken (c b : Z) (x x' : Event) (l : list Event) :
  (forall z, event_ltb z x' = true -> event_ltb z x = true) ->
  capped_run c b x l -> capped_run c b x' l.
Proof.
  intros Hx. revert c. induction l as [|y l IH]; intros c H; [done|].
  destruct H as [H1 H2]. split; [|by apply IH].
  destruct (event_ltb y x') eqn:E.
  - by rewrite (Hx y E) in H1.
  - destruct (event_ltb y x); lia.
Qed.

Lemma capped_at_most (c b : Z) (x : Event) (l : list Event) :
  capped_run c b x l -> at_most_run c (b + 1) l.
Proof.
  revert c. induction l as [|y l IH]; intros c H; [done|].
  destruct H as [H1 H2]. split; [|by apply IH].
  destruct (event_ltb y x); lia.
Qed.

Lemma at_most_capped (c b : Z) (x : Event) (l : list Event) :
  at_most_run c b l -> capped_run c b x l.
Proof.
  revert c. induction l as [|y l IH]; intros c H; [done|].
  destruct H as [H1 H2]. split; [|by apply IH].
  destruct (event_ltb y x); lia.
Qed.

Lemma at_most_late (c b : Z) (x : Event) (l : list Event) :
  Forall (fun z => event_ltb z x = false) l ->
  at_most_run c (b + 1) l -> capped_run c b x l.
Proof.
  intros Hall. revert c.
  induction Hall as [|y l Hy Hall IH]; intros c H; [done|].
  destruct H as [H1 H2]. split; [by rewrite Hy | by apply IH].
Qed.

(** Inserting a [-1] event that is sorted before [x] under a count raised
    by one. *)
Lemma raised_insert_out (e : Q) (x : Event) (l : list Event) :
  event_ltb (e, (-1)%Z) x = true ->
  forall c b,
  (c <= b)%Z -> capped_run c b x l ->
  at_most_run (c + 1) (b + 1) (insert_event (e, (-1)%Z) l).
Proof.
  intros Hx. induction l as [|z l IH]; intros c b Hc H.
  - simpl. split; [lia | done].
  - destruct H as [H1 H2]. simpl.
    destruct (event_ltb z (e, (-1)%Z)) eqn:Ez.
    + rewrite (event_ltb_trans _ _ _ Ez Hx) in H1.
      split; [lia|].
      replace (c + 1 + z.2)%Z with (c + z.2 + 1)%Z by lia.
      by apply IH.
    + split; [simpl; lia|]. simpl.
      replace (c + 1 + -1)%Z with c by lia.
      apply (capped_at_most c b x (z :: l)). by split.
Qed.

Lemma insert_event_elem (x z : Event) (l : list Event) :
  z ∈ insert_event x l -> z = x \/ z ∈ l.
Proof.
  intros H. rewrite insert_event_perm in H.
  by apply elem_of_cons in H.
Qed.

(** Inserting the two events of an "on" segment that ends before [x]:
    the counts rise by one between the two events only. *)
Lemma capped_insert_pair (s e : Q) (x : Event) (l : list Event) :
  s < e -> event_ltb (e, (-1)%Z) x = true ->
  StronglySorted ev_le l ->
  forall c b,
  (c <= b)%Z -> capped_run c b x l ->
  capped_run c b (s, 1%Z)
    (insert_event (s, 1%Z) (insert_event (e, (-1)%Z) l)).
Proof.
  intros Hse Hx Hs.
  pose proof (out_not_before_in s e Hse) as Hoi.
  pose proof (in_before_out s e Hse) as Hio.
  assert (event_ltb (s, 1%Z) (s, 1%Z) = false) as Hss.
  { destruct (event_ltb (s, 1%Z) (s, 1%Z)) eqn:E; [|done].
    apply event_ltb_true in E. simpl in E. destruct E as [E | [_ E]];
      [lra | lia]. }
  assert (forall z, event_ltb z (s, 1%Z) = true -> event_ltb z x = true)
    as Hzx.
  { intros z Hz. apply (event_ltb_trans z (s, 1%Z)); [done|].
    by apply (event_ltb_trans _ (e, (-1)%Z)). }
  induction Hs as [|y l Hs IH Hall]; intros c b Hc H.
  - simpl. rewrite Hoi. simpl. rewrite Hss, Hoi. repeat split; lia.
  - destruct H as [H1 H2]. simpl.
    destruct (event_ltb y (e, (-1)%Z)) eqn:Ey.
    + simpl. rewrite (event_ltb_trans _ _ _ Ey Hx) in H1.
      destruct (event_ltb y (s, 1%Z)) eqn:Eys.
      * simpl. rewrite Eys. split; [done|]. by apply IH.
      * simpl. rewrite Hss, Eys. split; [lia|]. split; [lia|].
        apply at_most_late.
        -- apply Forall_forall. intros z Hz.
           apply insert_event_elem in Hz as [-> | Hz]; [done|].
           rewrite Forall_forall in Hall. specialize (Hall z Hz).
           change (ev_le (s, 1%Z) z).
           transitivity y; [exact Eys | exact Hall].
        -- replace (c + 1 + y.2)%Z with (c + y.2 + 1)%Z by lia.
           by apply (raised_insert_out e x).
    + simpl. rewrite Hoi. simpl. rewrite Hss, Hoi.
      split; [lia|]. split; [simpl; lia|]. simpl.
      replace (c + 1 + -1)%Z with c by lia.
      change (capped_run c b (s, 1%Z) (y :: l)).
      apply (capped_weaken c b x); [done|]. by split.
Qed.

Lemma chained_weaken (t t' : Q) (l : list Event) :
  t <= t' -> chained t' l -> chained t l.
Proof.
  intros Ht H. destruct H as [t' | t' s e l H1 H2 H3 H4].
  - constructor.
  - constructor; [lra | done | done | done].
Qed.

Lemma segment_events_chained (segs : list Segment) :
  forall t,
  contiguous_from t segs -> Forall seg_in_game segs ->
  chained t (segment_events segs).
Proof.
  induction segs as [|[[s e] tag] segs IH]; intros t Hc Hall; simpl;
    [constructor|].
  destruct Hc as [Hs Hc]. apply Forall_cons in Hall as [Hx Hall].
  unfold seg_in_game, seg_start, seg_end in Hx, Hs, Hc. simpl in *.
  subst t. specialize (IH e Hc Hall).
  destruct (is_on tag && Qltb s e) eqn:E.
  - apply andb_true_iff in E as [_ E]. apply Qltb_true in E.
    constructor; [py_arith | py_arith | py_arith |].
    apply (chained_weaken _ e); [py_arith | done].
  - apply (chained_weaken _ e); [lra | done].
Qed.

Lemma chained_head_after (e : Q) (l : list Event) :
  e <= 48 -> chained e l -> event_ltb (e, (-1)%Z) (chain_head l) = true.
Proof.
  intros H48 H. apply event_ltb_true.
  destruct H as [t | t s e' l H1 H2 H3 H4]; simpl.
  - left. lra.
  - destruct (Qlt_le_dec t s) as [Hlt | Hle]; [by left|].
    right. split; [lra | lia].
Qed.

Lemma foldr_insert_sorted (l base : list Event) :
  StronglySorted ev_le base ->
  StronglySorted ev_le (foldr insert_event base l).
Proof.
  intros Hb. apply Sorted_StronglySorted; [apply _|].
  induction l as [|x l IH]; simpl.
  - by apply StronglySorted_Sorted.
  - by apply insert_event_sorted.
Qed.

(** Inserting the events of one player raises no running count by more
    than one. *)
Lemma insert_chain_capped (chain : list Event) (t : Q) :
  chained t chain ->
  forall base c b,
  StronglySorted ev_le base -> (c <= b)%Z -> at_most_run c b base ->
  capped_run c b (chain_head chain) (foldr insert_event base chain).
Proof.
  induction 1 as [t | t s e l H1 H2 H3 H4 IH]; intros base c b Hs Hc Hb.
  - simpl. by apply at_most_capped.
  - simpl foldr. simpl chain_head.
    apply (capped_insert_pair s e (chain_head l)); try done.
    + by apply chained_head_after.
    + by apply foldr_insert_sorted.
    + by apply IH.
Qed.

Lemma sort_events_app (l1 l2 : list Event) :
  sort_events (l1 ++ l2) = foldr insert_event (sort_events l2) l1.
Proof. unfold sort_events. apply foldr_app. Qed.

Lemma compute_segments_contiguous (p : Player) :
  contiguous_from 0 (compute_segments p).
Proof.
  unfold compute_segments.
  destruct (truthy_id (archetype_id p)) as [aid|]; [|done].
  destruct (get_config !! aid) as [arch|]; [|done].
  apply set_last_end_contiguous, segs_loop_contiguous.
Qed.

Lemma collect_events_cons (p : Player) (ps : list Player) :
  collect_events (p :: ps)
  = segment_events (compute_segments p) ++ collect_events ps.
Proof. unfold collect_events. simpl. by rewrite app_assoc. Qed.

Lemma team_events_at_most (ps : list Player) :
  at_most_run 0 (Z.of_nat (length ps)) (sort_events (collect_events ps)).
Proof.
  induction ps as [|p ps IH].
  - change (at_most_run 0 0 [(0, 0%Z); (48, 0%Z)]). simpl. lia.
  - rewrite collect_events_cons, sort_events_app.
    replace (Z.of_nat (length (p :: ps)))
      with (Z.of_nat (length ps) + 1)%Z by (simpl length; lia).
    eapply capped_at_most.
    apply (insert_chain_capped _ 0).
    + apply segment_events_chained;
        [apply compute_segments_contiguous | apply compute_segments_in_game].
    + apply sort_events_sorted.
    + lia.
    + exact IH.
Qed.

Lemma emitted_counts_at_most (b c : Z) (lt : Q) (events : list Event) :
  (c <= b)%Z -> at_most_run c b events ->
  Forall (fun y => (y <= b)%Z) (map snd (emitted c lt events)).
Proof.
  revert c lt. induction events as [|[t d] rest IH]; intros c lt Hc H;
    simpl; [constructor|].
  destruct H as [H1 H2]. simpl in H1, H2.
  rewrite map_app. apply Forall_app. split.
  - destruct (Qeq_bool t lt); repeat constructor. done.
  - simpl. constructor; [done | by apply IH].
Qed.

Lemma team_steps_counts (team : Team) :
  exists kx ky,
    team_oncourt_steps team = ensure_final (0 :: kx, 0%Z :: ky)
    /\ ky `sublist_of`
         map snd (emitted 0 0 (sort_events (collect_events (players team)))).
Proof.
  unfold team_oncourt_steps.
  destruct (team_events_nonempty (players team)) as (ev & rest & Hev).
  rewrite Hev. destruct (walk_points ev rest) as [-> ->]. cbn [dedup].
  destruct (dedup_loop_kept (map fst (emitted 0 0 (ev :: rest)))
              (map snd (emitted 0 0 (ev :: rest))) [0] [0%Z])
    as (kx & ky & -> & Hx & Hy).
  by exists kx, ky.
Qed.

(** For every team, no count returned by [team_oncourt_steps] exceeds the
    number of players of the team: the "on" segments of one player never
    overlap, and a player leaving at the instant another enters is counted
    out first. *)
Theorem team_oncourt_steps_at_most_roster (team : Team) :
  Forall (fun c => (c <= Z.of_nat (length (players team)))%Z)
         (team_oncourt_steps team).2.
Proof.
  destruct (team_steps_counts team) as (kx & ky & -> & Hsub).
  assert (Forall (fun c => (c <= Z.of_nat (length (players team)))%Z)
            (0%Z :: ky)) as Hall.
  { constructor; [lia|]. eapply sublist_all; [exact Hsub|].
    apply emitted_counts_at_most; [lia | apply team_events_at_most]. }
  unfold ensure_final.
  destruct (negb (Qeq_bool (default 0 (last (0 :: kx))) 48));
    cbn [fst snd]; [|done].
  apply Forall_app. split; [done|]. constructor; [|constructor].
  apply (last_default_elem (0%Z :: ky)
           (fun c => (c <= Z.of_nat (length (players team)))%Z));
    [lia | done].
Qed.

(** ** The exported table *)

Lemma export_line (p : Player) :
  map (fun h => export_row p !! h) HEADERS = export_line_of p.
Proof.
  unfold export_row, export_line_of. cbv zeta.
  generalize (length (stints_raw p)) (getq (stints_raw p)).
  intros n f. vm_compute. reflexivity.
Qed.

Lemma export_csv_eq (game : GameData) :
  export_csv game
  = map export_line_of
      (players (home_team game) ++ players (away_team game)).
Proof.
  unfold export_csv, frame. rewrite <- map_app, map_map.
  apply map_ext. intros p. apply export_line.
Qed.

(** [export_csv] writes one line per player, the home team first and each
    team in roster order; every line has a cell for each of the sixteen
    headers: team, id, name, expected minutes, archetype id (blank when
    not set), closer weighting, nine stint cells (a weight where the
    player has one, blank otherwise) and the scaler. *)
Theorem export_csv_lines (game : GameData) :
  export_csv game
  = map export_line_of
      (players (home_team game) ++ players (away_team game))
  /\ Forall (fun line => length line = length HEADERS
                         /\ Forall is_Some line)
       (export_csv game).
Proof.
  pose proof (export_csv_eq game) as E.
  split; [exact E|]. rewrite E.
  apply Forall_forall. intros line Hin.
  apply list_elem_of_fmap in Hin as (p & -> & _).
  split; [done|]. unfold export_line_of.
  repeat (apply Forall_cons; split; [by eexists|]).
  apply Forall_nil. done.
Qed.

Lemma stint_cells_numbers (raw : list Q) (m : nat) :
  forall i,
  omap (fun c => match c with Some (CNum x) => Some x | _ => None end)
    (map (fun i => Some (if (i <? length raw)%nat
                         then CNum (getq raw i) else CStr ""))
         (seq i m))
  = take m (drop i raw).
Proof.
  induction m as [|m IH]; intros i; [by rewrite take_0|].
  change (seq i (S m)) with (i :: seq (S i) m). rewrite map_cons.
  specialize (IH (S i)).
  set (g := fun c : option Cell =>
              match c with Some (CNum x) => Some x | _ => None end) in *.
  set (l := map _ (seq (S i) m)) in *.
  destruct (raw !! i) as [x|] eqn:E.
  - pose proof (lookup_lt_Some _ _ _ E) as Hlt.
    apply Nat.ltb_lt in Hlt. rewrite Hlt.
    change (omap g (Some (CNum (getq raw i)) :: l))
      with (getq raw i :: omap g l).
    rewrite IH, (drop_S raw x i E), (getq_lookup raw i x E). done.
  - apply lookup_ge_None_1 in E as Hge.
    assert ((i <? length raw)%nat = false) as -> by (apply Nat.ltb_ge; lia).
    change (omap g (Some (CStr "") :: l)) with (omap g l).
    rewrite IH, !drop_ge by lia. by rewrite take_nil.
Qed.

Lemma catalog_pattern_short (s : string) (a : Archetype) :
  get_config !! s = Some a -> (length (stint_pattern a) <= 9)%nat.
Proof.
  intros H. apply catalog_member in H.
  unfold ARCHETYPES in H.
  repeat (apply elem_of_cons in H as [-> | H]; [simpl; lia|]).
  by apply elem_of_nil in H.
Qed.

Lemma export_line_numbers (p : Player) :
  stint_numbers (export_line_of p) = take 9 (stints_raw p).
Proof.
  unfold stint_numbers.
  change (take 9 (drop 6 (export_line_of p)))
    with (map (fun i => Some (if (i <? length (stints_raw p))%nat
                              then CNum (getq (stints_raw p) i)
                              else CStr ""))
            (seq 0 9)).
  rewrite stint_cells_numbers. by rewrite drop_0.
Qed.

(** The numbers in the stint columns of a player's line are the player's
    first nine weights, in order; weights beyond the ninth are not
    exported. *)
Theorem export_csv_stint_columns (game : GameData) (k : nat)
  (line : list (option Cell)) :
  export_csv game !! k = Some line ->
  exists p,
    (players (home_team game) ++ players (away_team game)) !! k = Some p
    /\ stint_numbers line = take 9 (stints_raw p).
Proof.
  intros Hk.
  pose proof (export_csv_eq game) as E.
  rewrite E, list_lookup_fmap in Hk.
  destruct ((players (home_team game) ++ players (away_team game)) !! k)
    as [p|]; [|done].
  exists p. split; [done|]. simpl in Hk. inversion Hk.
  apply export_line_numbers.
Qed.

Lemma export_csv_stint_columns_witness :
  export_csv {| home_team := team_of [long_weights];
                away_team := team_of [] |} !! 0%nat
  = Some (export_line_of long_weights)
  /\ exists p,
       (players (home_team {| home_team := team_of [long_weights];
                              away_team := team_of [] |})
        ++ players (away_team {| home_team := team_of [long_weights];
                                 away_team := team_of [] |})) !! 0%nat
       = Some p
       /\ stint_numbers (export_line_of long_weights)
          = take 9 (stints_raw p).
Proof.
  assert (export_csv {| home_team := team_of [long_weights];
                        away_team := team_of [] |} !! 0%nat
          = Some (export_line_of long_weights)) as Hk
    by (vm_compute; reflexivity).
  split; [exact Hk|].
  exact (export_csv_stint_columns _ 0%nat _ Hk).
Defined.

(** A player edited by [apply_boundaries] is exported with all the
    weights: no catalog archetype has more than nine stints. *)
Theorem export_keeps_edited_weights (p : Player) (arch : Archetype)
  (ends : list Q) (min_gap : Q) :
  resolve p = Some arch ->
  export_csv {| home_team := team_of [apply_boundaries p ends min_gap];
                away_team := team_of [] |}
  = [export_line_of (apply_boundaries p ends min_gap)]
  /\ stint_numbers (export_line_of (apply_boundaries p ends min_gap))
     = stints_raw (apply_boundaries p ends min_gap).
Proof.
  intros Hres. destruct (resolve_lookup _ _ Hres) as (aid & Hid & Hget).
  split.
  - by rewrite export_csv_eq.
  - rewrite export_line_numbers. apply take_ge.
    rewrite (apply_boundaries_shares p aid arch ends min_gap Hid Hget).
    simpl stints_raw.
    rewrite (share_weights_length (stint_pattern arch)).
    by apply (catalog_pattern_short aid).
Qed.

Lemma export_keeps_edited_weights_witness :
  resolve bench30 = Some bench_archetype
  /\ export_csv {| home_team := team_of [apply_boundaries bench30 [9; 30] 0.5];
                   away_team := team_of [] |}
     = [export_line_of (apply_boundaries bench30 [9; 30] 0.5)]
  /\ stint_numbers (export_line_of (apply_boundaries bench30 [9; 30] 0.5))
     = stints_raw (apply_boundaries bench30 [9; 30] 0.5).
Proof.
  split; [reflexivity|].
  exact (export_keeps_edited_weights bench30 bench_archetype [9; 30] 0.5
           eq_refl).
Defined.

(** ** Weights that add up to 1 in each group *)

Lemma pysum_scale (f : nat -> Q) (c : Q) (idx : list nat) :
  pysum (map (fun j => f j * c) idx) == pysum (map f idx) * c.
Proof.
  induction idx as [|k idx IH]; simpl map.
  - unfold pysum. simpl. lra.
  - rewrite !pysum_cons, IH. lra.
Qed.

Lemma sum_range_snoc (f : nat -> Q) (n : nat) :
  forall i, sum_range f i (S n) == sum_range f i n + f (i + n)%nat.
Proof.
  induction n as [|n IH]; intros i.
  - simpl. rewrite Nat.add_0_r. lra.
  - change (sum_range f i (S (S n))) with (f i + sum_range f (S i) (S n)).
    rewrite (IH (S i)). simpl.
    replace (S (i + n)) with (i + S n)%nat by lia. lra.
Qed.

Lemma prefix_sum_S (f : nat -> Q) (j : nat) :
  prefix_sum f (S j) == prefix_sum f j + f j.
Proof. unfold prefix_sum. by rewrite sum_range_snoc. Qed.

Lemma prefix_sum_mono (f : nat -> Q) (j k : nat) :
  (forall i, 0 <= f i) -> (j <= k)%nat -> prefix_sum f j <= prefix_sum f k.
Proof.
  intros Hf Hjk. induction Hjk as [|k Hjk IH]; [lra|].
  rewrite prefix_sum_S. specialize (Hf k). lra.
Qed.

(** Every catalog archetype with two stints or more has an "on" stint
    and an "off" stint among its first two. *)
Lemma catalog_both_groups (s : string) (a : Archetype) :
  get_config !! s = Some a -> (2 <= length (stint_pattern a))%nat ->
  (split_loop 0 (stint_pattern a)).1 <> []
  /\ (split_loop 0 (stint_pattern a)).2 <> [].
Proof.
  intros H HL. apply catalog_member in H.
  unfold ARCHETYPES in H.
  repeat (apply elem_of_cons in H as [-> | H];
          [first [by split | simpl in HL; lia]|]).
  by apply elem_of_nil in H.
Qed.

Section Normalized.

(** A player whose weights, after the default fill, are non-negative and
    add up to 1 in the "on" group and in the "off" group. *)
Variables (p : Player) (aid : string) (arch : Archetype).
Hypothesis Hid : truthy_id (archetype_id p) = Some aid.
Hypothesis Hget : get_config !! aid = Some arch.

Let pat : list string := stint_pattern arch.
Let L : nat := length pat.
Let raw : list Q := _ensure_default_percentages p.
Let T : Q := clamped_minutes p.
Let durs : list Q := durations_loop 0 pat raw T (pymax 0 (48 - T)).

Hypothesis Hlen : length raw = L.
Hypothesis Hnonneg : forall j, 0 <= getq raw j.
Hypothesis Hon : pysum (map (getq raw) (split_loop 0 pat).1) == 1.
Hypothesis Hoff : pysum (map (getq raw) (split_loop 0 pat).2) == 1.

Lemma nz_T_range : 0 <= T <= 48.
Proof. apply clamp_range. lra. Qed.

Lemma nz_dur j tag :
  pat !! j = Some tag ->
  getq durs j == getq raw j * (if is_on tag then T else 48 - T).
Proof.
  intros Htag. pose proof (lookup_lt_Some _ _ _ Htag) as Hj. fold L in Hj.
  unfold durs. rewrite (durations_loop_lookup _ _ _ _ 0%nat j tag Htag).
  cbv zeta. rewrite Nat.add_0_l, Hlen.
  assert ((j <? L)%nat = true) as -> by (by apply Nat.ltb_lt).
  pose proof nz_T_range as [H0 H48].
  set (w := getq raw j). unfold pymax.
  destruct (is_on tag).
  - py_case; [reflexivity|].
    assert (T == 0) as -> by lra. lra.
  - repeat py_case; try lra.
    + assert (48 - T == 0) as -> by lra. lra.
Qed.

Lemma nz_dur_nonneg j : 0 <= getq durs j.
Proof.
  destruct (pat !! j) as [tag|] eqn:Htag.
  - rewrite (nz_dur j tag Htag). pose proof nz_T_range.
    apply Qmult_le_0_compat; [apply Hnonneg|].
    destruct (is_on tag); lra.
  - apply lookup_ge_None_1 in Htag. unfold getq, durs.
    rewrite lookup_ge_None_2; [simpl; lra|].
    by rewrite durations_loop_length.
Qed.

Lemma nz_on_sum : pysum (map (getq durs) (split_loop 0 pat).1) == T.
Proof.
  rewrite (pysum_map_ext _ (fun j => getq raw j * T)).
  - rewrite pysum_scale, Hon. lra.
  - intros j Hj. apply split_loop_on in Hj as (_ & tag & Htag & Hison).
    rewrite Nat.sub_0_r in Htag. rewrite (nz_dur j tag Htag).
    by rewrite Hison.
Qed.

Lemma nz_off_sum : pysum (map (getq durs) (split_loop 0 pat).2) == 48 - T.
Proof.
  rewrite (pysum_map_ext _ (fun j => getq raw j * (48 - T))).
  - rewrite pysum_scale, Hoff. lra.
  - intros j Hj. apply split_loop_off in Hj as (_ & tag & Htag & Hison).
    rewrite Nat.sub_0_r in Htag. rewrite (nz_dur j tag Htag).
    by rewrite Hison.
Qed.

Lemma nz_total : prefix_sum (getq durs) L == 48.
Proof.
  unfold prefix_sum, L.
  rewrite <- (split_loop_sum (getq durs) pat 0), nz_on_sum, nz_off_sum.
  lra.
Qed.

(** The segments are the durations laid end to end. *)
Lemma nz_points j seg :
  compute_segments p !! j = Some seg ->
  seg_start seg == prefix_sum (getq durs) j
  /\ seg_end seg == prefix_sum (getq durs) (S j).
Proof.
  rewrite (compute_segments_resolved p aid arch Hid Hget). cbv zeta.
  fold pat. fold (clamped_minutes p). fold T. fold raw. fold durs.
  intros Hseg.
  pose proof (lookup_lt_Some _ _ _ Hseg) as Hj.
  rewrite set_last_end_length, segs_loop_length in Hj. fold L in Hj.
  destruct (segs_loop_follow (prefix_sum (getq durs)) durs pat 0%nat 0)
    with (j := j) (seg := seg) as (H1 & H2 & H3);
    [reflexivity | | done |].
  - intros i _ Hi. fold L in Hi. pose proof (nz_dur_nonneg i).
    rewrite prefix_sum_S. split; [lra|]. split; [lra|].
    rewrite <- prefix_sum_S, <- nz_total.
    apply prefix_sum_mono; [apply nz_dur_nonneg | lia].
  - simpl in H1. split; [done|]. fold L in H2, H3.
    destruct (decide (S j < L)%nat) as [Hlt | Hge].
    + by apply H2.
    + assert (S j = L) as E by lia. rewrite (H3 E), E.
      by rewrite nz_total.
Qed.

Lemma nz_width j seg :
  compute_segments p !! j = Some seg -> seg_width seg == getq durs j.
Proof.
  intros Hseg. destruct (nz_points j seg Hseg) as [Hs He].
  unfold seg_width. rewrite Hs, He, prefix_sum_S. lra.
Qed.

Lemma nz_on_court : on_court_minutes (compute_segments p) == T.
Proof.
  rewrite (on_court_minutes_indexed _ 0%nat).
  assert (map seg_tag (compute_segments p) = pat) as ->.
  { rewrite (compute_segments_resolved p aid arch Hid Hget). cbv zeta.
    by rewrite set_last_end_tags, segs_loop_tags. }
  rewrite <- nz_on_sum. apply pysum_map_ext. intros j Hj.
  rewrite Nat.sub_0_r.
  assert (j < length (compute_segments p))%nat as Hjs.
  { rewrite (compute_segments_resolved p aid arch Hid Hget). cbv zeta.
    rewrite set_last_end_length, segs_loop_length.
    apply (split_loop_bound pat). by left. }
  destruct (lookup_lt_is_Some_2 _ _ Hjs) as [seg Hseg].
  rewrite Hseg. simpl. by apply nz_width.
Qed.

End Normalized.

Lemma filled_weight_nonneg (p : Player) (arch : Archetype) :
  resolve p = Some arch ->
  (forall j, 0 <= getq (stints_raw p) j) ->
  forall j, 0 <= getq (_ensure_default_percentages p) j.
Proof.
  intros Hres Hraw j. destruct (ensure_lookup p arch Hres) as [Hlen Hlk].
  destruct (stint_pattern arch !! j) as [tag|] eqn:Htag.
  - rewrite (Hlk j tag Htag). cbv zeta.
    destruct (Qeq_bool _ 0); [|apply Hraw].
    unfold Qdiv. rewrite Qmult_1_l. apply Qinv_le_0_compat, Qnat_nonneg.
  - apply lookup_ge_None_1 in Htag. unfold getq.
    rewrite lookup_ge_None_2; [simpl; lra | lia].
Qed.

Lemma filled_group_is_one (p : Player) (arch : Archetype)
  (idx : list nat) (b : bool) :
  resolve p = Some arch ->
  idx = (if b then (split_loop 0 (stint_pattern arch)).1
         else (split_loop 0 (stint_pattern arch)).2) ->
  idx <> [] ->
  pysum (map (getq (stints_raw p)) idx) == 0
  \/ pysum (map (getq (stints_raw p)) idx) == 1 ->
  pysum (map (getq (_ensure_default_percentages p)) idx) == 1.
Proof.
  intros Hres Hidx Hne Hsum.
  destruct idx as [|k rest] eqn:E; [done|]. rewrite <- E in *.
  assert (k ∈ idx) as Hk by (rewrite E; left).
  assert (exists tag, stint_pattern arch !! k = Some tag /\ is_on tag = b)
    as (tag & Htag & Hb).
  { rewrite Hidx in Hk. destruct b.
    - apply split_loop_on in Hk as (_ & tag & Htag & Hison).
      rewrite Nat.sub_0_r in Htag. by exists tag.
    - apply split_loop_off in Hk as (_ & tag & Htag & Hison).
      rewrite Nat.sub_0_r in Htag. by exists tag. }
  destruct (ensure_group_sum p arch k tag Hres Htag) as [Hs _].
  rewrite Hb, <- Hidx in Hs. rewrite Hs.
  destruct (Qeq_bool _ 0) eqn:Hz; [reflexivity|].
  destruct Hsum as [H0 | H1]; [|done].
  apply Qeq_bool_false in Hz. by destruct Hz.
Qed.

(** When a player's given weights are non-negative and each group's
    weights add up to 1 (or to 0, in which case the group gets the even
    default), [compute_segments] gives every segment exactly its weight's
    share of its group total: weight times the clamped expected minutes
    for an "on" segment, weight times the rest of the 48 minutes for an
    "off" segment.  The "on" segments then add up to the clamped expected
    minutes. *)
Theorem unit_weights_give_exact_shares (p : Player) (arch : Archetype) :
  resolve p = Some arch ->
  (2 <= length (stint_pattern arch))%nat ->
  (forall j, 0 <= getq (stints_raw p) j) ->
  pysum (map (getq (stints_raw p)) (split_loop 0 (stint_pattern arch)).1) == 0
  \/ pysum (map (getq (stints_raw p)) (split_loop 0 (stint_pattern arch)).1)
     == 1 ->
  pysum (map (getq (stints_raw p)) (split_loop 0 (stint_pattern arch)).2) == 0
  \/ pysum (map (getq (stints_raw p)) (split_loop 0 (stint_pattern arch)).2)
     == 1 ->
  (forall j seg tag,
     compute_segments p !! j = Some seg ->
     stint_pattern arch !! j = Some tag ->
     seg_width seg
     == getq (_ensure_default_percentages p) j
        * (if is_on tag then clamped_minutes p else 48 - clamped_minutes p))
  /\ on_court_minutes (compute_segments p) == clamped_minutes p.
Proof.
  intros Hres HL Hraw Hon Hoff.
  destruct (resolve_lookup _ _ Hres) as (aid & Hid & Hget).
  destruct (ensure_lookup p arch Hres) as [Hlen _].
  destruct (catalog_both_groups aid arch Hget HL) as [Hne1 Hne2].
  pose proof (filled_weight_nonneg p arch Hres Hraw) as Hnn.
  pose proof (filled_group_is_one p arch _ true Hres eq_refl Hne1 Hon) as H1.
  pose proof (filled_group_is_one p arch _ false Hres eq_refl Hne2 Hoff) as H2.
  split.
  - intros j seg tag Hseg Htag.
    rewrite (nz_width p aid arch Hid Hget Hlen Hnn H1 H2 j seg Hseg).
    by apply nz_dur.
  - by apply (nz_on_court p aid arch Hid Hget Hlen Hnn H1 H2).
Qed.

Lemma unit_weights_give_exact_shares_witness :
  resolve starter_even = Some starter3_archetype
  /\ on_court_minutes (compute_segments starter_even)
     == clamped_minutes starter_even.
Proof.
  assert (forall j, 0 <= getq (stints_raw starter_even) j) as Hraw.
  { intros j. do 6 (destruct j as [|j]; [vm_compute; discriminate|]).
    vm_compute; discriminate. }
  assert (2 <= length (stint_pattern starter3_archetype))%nat as HL
    by (vm_compute; lia).
  assert (pysum (map (getq (stints_raw starter_even))
                   (split_loop 0 (stint_pattern starter3_archetype)).1) == 1)
    as Hon by (vm_compute; reflexivity).
  assert (pysum (map (getq (stints_raw starter_even))
                   (split_loop 0 (stint_pattern starter3_archetype)).2) == 1)
    as Hoff by (vm_compute; reflexivity).
  split; [reflexivity|].
  exact (proj2 (unit_weights_give_exact_shares starter_even starter3_archetype
                  eq_refl HL Hraw (or_intror Hon) (or_intror Hoff))).
Defined.
